(** * kpng endpoints client: a shallow embedding of [pkg/client/client.go]

    The client keeps a local, path-ordered store of services and endpoints
    that a server streams as a diff ([Set], [Delete], [Sync]), and after each
    [Sync] regroups the store into one [ServiceEndpoints] per service.

    The embedding follows the Go source function by function:
    - the generated protobuf package [localnetv1] and [proto.Unmarshal] are
      taken as an interface (a type class), since only their use is in the
      source;
    - [google/btree] is an external dependency, modelled by its contract: the
      ascending list of its items;
    - the transport (gRPC dial, stream send and receive), the clock and the
      cancellation of the context are an explicit [World] that every call
      threads, together with the client's fields;
    - Go run-time panics, a transport that never answers, and the fuel of the
      unbounded retry loops are outcomes of their own. *)

From Stdlib Require Import List String Ascii Bool Arith ZArith Lia.
From Stdlib.Strings Require Import Byte.
From Stdlib Require Import Sorted Relations OrdersEx RelationClasses.
Import ListNotations.

Set Implicit Arguments.
Unset Strict Implicit.

(** ** Wire messages *)

Module localnetv1.

(** The payload messages and the watch request are opaque here: the client
    only decodes, stores and regroups them. [Unmarshal_Service] and
    [Unmarshal_Endpoint] stand for [proto.Unmarshal] into a fresh
    [&Service{}] and [&Endpoint{}]; [None] is a decoding error. *)
Class Schema : Type := {
  Service : Type;
  Endpoint : Type;
  WatchReq : Type;
  Unmarshal_Service : list byte -> option Service;
  Unmarshal_Endpoint : list byte -> option Endpoint
}.

(** The enum [localnetv1.Set]. A Go enum is an [int32]: a message can carry a
    number that is neither of the two the client knows. *)
Inductive Set_ : Type :=
| Set_ServicesSet
| Set_EndpointsSet
| Set_Unknown (number : Z).

(** [Ref{Set, Path}] *)
Record Ref : Type := { Ref_Set : Set_; Path : string }.

(** [Value{Ref, Bytes}]; [Ref] is a pointer, [nil] when the field is absent
    from the message. *)
Record Value : Type := { Ref_ : option Ref; Bytes : list byte }.

(** The oneof [OpItem.Op]. *)
Inductive isOpItem_Op : Type :=
| OpItem_Set (set : Value)
| OpItem_Delete (del : Ref)
| OpItem_Sync.

(** [OpItem{Op}]; the oneof is [nil] when the message sets none of its
    fields (among them a field this client's schema does not know). *)
Record OpItem : Type := { Op : option isOpItem_Op }.

End localnetv1.

Import localnetv1(Schema, Set_ServicesSet, Set_EndpointsSet, Set_Unknown,
                  OpItem_Set, OpItem_Delete, OpItem_Sync).

(** ** The ordered store *)

Module btree.
Section BTree.
Context {Item : Type}.
(** [Item.Less] *)
Variable Less : Item -> Item -> bool.

(** The items of the tree in ascending order. *)
Definition BTree : Type := list Item.

Definition New (degree : nat) : BTree := [].

Definition Len (t : BTree) : nat := List.length t.

(** Two items neither of which is less than the other are the same key:
    [ReplaceOrInsert] puts the new item in the place of the old one. *)
Fixpoint ReplaceOrInsert (item : Item) (t : BTree) : BTree :=
  match t with
  | [] => [item]
  | x :: t' =>
      if Less item x then item :: x :: t'
      else if Less x item then x :: ReplaceOrInsert item t'
      else item :: t'
  end.

Fixpoint Delete (item : Item) (t : BTree) : BTree :=
  match t with
  | [] => []
  | x :: t' =>
      if Less item x then x :: t'
      else if Less x item then x :: Delete item t'
      else t'
  end.

(** What one call of the iterator does to the state [S] it closes over:
    it returns [true] (go on), returns [false] (stop), or panics. *)
Inductive Visit (S : Type) : Type :=
| GoOn (s : S)
| Halt (s : S)
| Panics (s : S).

(** The result of a whole traversal. *)
Inductive Walk (S : Type) : Type :=
| Walked (s : S)
| Crashed (s : S).

Fixpoint Ascend {S : Type} (t : BTree) (iterator : Item -> S -> Visit S)
    (s : S) : Walk S :=
  match t with
  | [] => Walked s
  | i :: t' =>
      match iterator i s with
      | GoOn s' => Ascend t' iterator s'
      | Halt s' => Walked s'
      | Panics s' => Crashed s'
      end
  end.
End BTree.
End btree.

Section Model.
Context {schema : Schema}.

(** [proto.Message], as far as this client builds one. *)
Inductive Message : Type :=
| Msg_Service (v : localnetv1.Service)
| Msg_Endpoint (v : localnetv1.Endpoint).

(** The empty message [Unmarshal] fills: [&Service{}] or [&Endpoint{}]. *)
Inductive Empty : Type := EmptyService | EmptyEndpoint.

Definition Unmarshal (b : list byte) (v : Empty) : option Message :=
  match v with
  | EmptyService => option_map Msg_Service (localnetv1.Unmarshal_Service b)
  | EmptyEndpoint => option_map Msg_Endpoint (localnetv1.Unmarshal_Endpoint b)
  end.

(** Modelled from the spec: the type [kv] and its method [Less] are declared
    in another file of package [client]; the store is keyed by [Path], a
    sequence of bytes, and the order of paths is the lexical order, byte by
    byte, as Go compares strings. [Value] is an interface: [nil] in the key
    that [Delete] builds. *)
Record kv : Type := { Path : string; Value : option Message }.

Definition Less (a b : kv) : bool := String.ltb (Path a) (Path b).

Record ServiceEndpoints : Type := {
  Service : localnetv1.Service;
  Endpoints : list localnetv1.Endpoint
}.

(** *** The grouping goroutine of [NextCh]

    The closure's variables: [seps], a pointer ([nil] at first), and what it
    has sent on [results] so far. *)
Record Grouping : Type := {
  seps : option ServiceEndpoints;
  results : list ServiceEndpoints
}.

(** [results <- seps] when [seps != nil] *)
Definition flush (g : Grouping) : list ServiceEndpoints :=
  match seps g with
  | Some s => results g ++ [s]
  | None => results g
  end.

(** The iterator given to [Ascend]. Appending to [seps.Endpoints] while
    [seps] is [nil] dereferences a nil pointer. *)
Definition visit (i : kv) (g : Grouping) : btree.Visit Grouping :=
  match Value i with
  | Some (Msg_Service v) =>
      btree.GoOn {| seps := Some {| Service := v; Endpoints := [] |};
                    results := flush g |}
  | Some (Msg_Endpoint v) =>
      match seps g with
      | None => btree.Panics g
      | Some s =>
          btree.GoOn {| seps := Some {| Service := Service s;
                                        Endpoints := Endpoints s ++ [v] |};
                        results := results g |}
      end
  | None => btree.GoOn g
  end.

(** How the goroutine ends: it closes [results] after its sends, or it
    panics, which ends the process: the deferred call closes [results]
    first. *)
Inductive Goroutine : Type :=
| Closes (sent : list ServiceEndpoints)
| Dies (sent : list ServiceEndpoints).

Definition grouper (data : btree.BTree (Item:=kv)) : Goroutine :=
  match btree.Ascend data visit {| seps := None; results := [] |} with
  | btree.Walked g => Closes (flush g)
  | btree.Crashed g => Dies (results g)
  end.

(** ** The world around the client

    What the transport answers is scripted: each blocking call takes the
    next answer of its kind, with the time it took. A call whose script is
    used up never returns. *)
Inductive DialResult : Type :=
| DialOk
| DialCanceled   (* [err == context.Canceled]; gRPC answers so only once
                    the context is canceled, which no script is held to *)
| DialFailed.

(** Handles: the serial number of the connection. *)
Definition ClientConn : Type := nat.
Definition WatchClient : Type := nat.

Inductive Event : Type :=
| EvDialContext (r : DialResult)
| EvWatch (c : ClientConn) (ok : bool)
| EvNew                                  (* [epc.data = btree.New(2)] *)
| EvSend (w : WatchClient) (req : localnetv1.WatchReq) (ok : bool)
| EvRecv (w : WatchClient) (op : option localnetv1.OpItem)
| EvCloseSend (w : WatchClient)
| EvClose (c : ClientConn)
| EvSleep (start : nat) (d : nat)
| EvUnmarshal (b : list byte) (v : Empty) (ok : bool)
| EvLog (msg : string).

Record World : Type := {
  now : nat;                    (* the clock *)
  cancelAt : option nat;        (* when [epc.cancel] is called, if ever *)
  dials : list (nat * DialResult);
  watches : list (nat * bool);
  sends : list (nat * bool);
  recvs : list (nat * option localnetv1.OpItem);
  serial : nat;                 (* connections made so far *)
  trace : list Event            (* what happened, latest first *)
}.

(** The fields of [EndpointsClient] that [Next] and [NextCh] use. [ctx] is
    in the [World] ([now] and [cancelAt]); [Target], [TLS] and [MaxMsgSize]
    only configure the dial, whose result is scripted. *)
Record EndpointsClient : Type := {
  ErrorDelay : nat;
  conn : option ClientConn;
  watch : option WatchClient;
  data : option (btree.BTree (Item:=kv))
}.

Definition set_conn (c : option ClientConn) (epc : EndpointsClient) :=
  {| ErrorDelay := ErrorDelay epc; conn := c; watch := watch epc;
     data := data epc |}.
Definition set_watch (w : option WatchClient) (epc : EndpointsClient) :=
  {| ErrorDelay := ErrorDelay epc; conn := conn epc; watch := w;
     data := data epc |}.
Definition set_data (d : option (btree.BTree (Item:=kv)))
    (epc : EndpointsClient) :=
  {| ErrorDelay := ErrorDelay epc; conn := conn epc; watch := watch epc;
     data := d |}.

Definition happen (e : Event) (w : World) : World :=
  {| now := now w; cancelAt := cancelAt w; dials := dials w;
     watches := watches w; sends := sends w; recvs := recvs w;
     serial := serial w; trace := e :: trace w |}.
Definition pass (d : nat) (w : World) : World :=
  {| now := now w + d; cancelAt := cancelAt w; dials := dials w;
     watches := watches w; sends := sends w; recvs := recvs w;
     serial := serial w; trace := trace w |}.
Definition set_dials l (w : World) : World :=
  {| now := now w; cancelAt := cancelAt w; dials := l;
     watches := watches w; sends := sends w; recvs := recvs w;
     serial := serial w; trace := trace w |}.
Definition set_watches l (w : World) : World :=
  {| now := now w; cancelAt := cancelAt w; dials := dials w;
     watches := l; sends := sends w; recvs := recvs w;
     serial := serial w; trace := trace w |}.
Definition set_sends l (w : World) : World :=
  {| now := now w; cancelAt := cancelAt w; dials := dials w;
     watches := watches w; sends := l; recvs := recvs w;
     serial := serial w; trace := trace w |}.
Definition set_recvs l (w : World) : World :=
  {| now := now w; cancelAt := cancelAt w; dials := dials w;
     watches := watches w; sends := sends w; recvs := l;
     serial := serial w; trace := trace w |}.
Definition next_serial (w : World) : World :=
  {| now := now w; cancelAt := cancelAt w; dials := dials w;
     watches := watches w; sends := sends w; recvs := recvs w;
     serial := S (serial w); trace := trace w |}.

(** [epc.ctx.Err() != nil]: the context is canceled from [cancelAt] on. *)
Definition canceled (w : World) : bool :=
  match cancelAt w with
  | Some c => c <=? now w
  | None => false
  end.

(** ** Calls: a state monad over the client and the world

    [Panic] is a run-time panic of the goroutine that makes the call: the
    call does not return. [Dying a] is a process that a panic of another
    goroutine is taking down: the call returns [a] if the process lasts
    until it does, and whatever the caller does next it does in a process
    that is about to end. *)
Inductive Outcome (A : Type) : Type :=
| Ret (a : A) (epc : EndpointsClient) (w : World)
| Panic (epc : EndpointsClient) (w : World)     (* a Go run-time panic *)
| Blocked (epc : EndpointsClient) (w : World)   (* the transport never answers *)
| OutOfFuel
| Dying (a : A) (epc : EndpointsClient) (w : World).  (* the process is going down *)
Arguments OutOfFuel {A}.
Arguments Panic {A}.
Arguments Blocked {A}.

(** What a call comes to in a process that is going down. *)
Definition dying {A} (o : Outcome A) : Outcome A :=
  match o with
  | Ret a epc w => Dying a epc w
  | _ => o
  end.

Definition M (A : Type) : Type := EndpointsClient -> World -> Outcome A.

Definition ret {A} (a : A) : M A := fun epc w => Ret a epc w.
Definition bind {A B} (m : M A) (k : A -> M B) : M B :=
  fun epc w =>
    match m epc w with
    | Ret a epc' w' => k a epc' w'
    | Panic epc' w' => Panic epc' w'
    | Blocked epc' w' => Blocked epc' w'
    | OutOfFuel => OutOfFuel
    | Dying a epc' w' => dying (k a epc' w')
    end.
Definition panic {A} : M A := fun epc w => Panic epc w.
Definition get : M EndpointsClient := fun epc w => Ret epc epc w.
Definition modify (f : EndpointsClient -> EndpointsClient) : M unit :=
  fun epc w => Ret tt (f epc) w.
Definition world (f : World -> World) : M unit :=
  fun epc w => Ret tt epc (f w).
Definition ctx_Err : M bool := fun epc w => Ret (canceled w) epc w.

(** [y] is what [x] is once the fuel suffices. *)
Definition settles {A} (x y : Outcome A) : Prop := x = OutOfFuel \/ y = x.
End Model.

Arguments OutOfFuel {schema A}.
Arguments Panic {schema A}.
Arguments Blocked {schema A}.
Arguments Dying {schema A}.

Declare Scope go_scope.
Delimit Scope go_scope with go.
Notation "x <- m ;; k" := (bind m (fun x => k))
  (at level 61, m at next level, right associativity) : go_scope.
Notation "m ;; k" := (bind m (fun _ => k))
  (at level 61, right associativity) : go_scope.

(** ** The client *)

Section Client.
Context {schema : Schema}.
Local Open Scope go_scope.

Definition klog (msg : string) : M unit := world (happen (EvLog msg)).

(** [epc.DialContext]: it logs, then calls [grpc.DialContext]. *)
Definition DialContext : M (option ClientConn * DialResult) :=
  klog "connecting to " ;;
  fun epc w =>
    match dials w with
    | [] => Blocked epc w
    | (d, DialOk) :: rest =>
        Ret (Some (serial w), DialOk) epc
            (happen (EvDialContext DialOk)
               (next_serial (pass d (set_dials rest w))))
    | (d, r) :: rest =>
        Ret (None, r) epc (happen (EvDialContext r) (pass d (set_dials rest w)))
    end.

Definition Dial : M (option ClientConn * DialResult) :=
  c <- ctx_Err ;;
  if c then ret (None, DialCanceled) else DialContext.

(** [localnetv1.NewEndpointsClient(epc.conn).Watch(epc.ctx)] *)
Definition Watch (c : ClientConn) : M (option WatchClient) :=
  fun epc w =>
    match watches w with
    | [] => Blocked epc w
    | (d, ok) :: rest =>
        Ret (if ok then Some c else None) epc
            (happen (EvWatch c ok) (pass d (set_watches rest w)))
    end.

(** [epc.watch.Send(req)]: [true] when [err == nil]. Calling a method of a
    nil interface panics. *)
Definition Send (req : localnetv1.WatchReq) : M bool :=
  fun epc w =>
    match watch epc with
    | None => Panic epc w
    | Some s =>
        match sends w with
        | [] => Blocked epc w
        | (d, ok) :: rest =>
            Ret ok epc (happen (EvSend s req ok) (pass d (set_sends rest w)))
        end
    end.

(** [epc.watch.Recv()]: [None] when [err != nil]. *)
Definition Recv : M (option localnetv1.OpItem) :=
  fun epc w =>
    match watch epc with
    | None => Panic epc w
    | Some s =>
        match recvs w with
        | [] => Blocked epc w
        | (d, r) :: rest =>
            Ret r epc (happen (EvRecv s r) (pass d (set_recvs rest w)))
        end
    end.

(** [time.Sleep(epc.ErrorDelay)] *)
Definition errorSleep : M unit :=
  fun epc w =>
    Ret tt epc (pass (ErrorDelay epc) (happen (EvSleep (now w) (ErrorDelay epc)) w)).

Fixpoint dial (fuel : nat) : M bool :=
  match fuel with
  | O => fun _ _ => OutOfFuel
  | S fuel' =>
      r <- Dial ;;
      match r with
      | (_, DialCanceled) => ret true
      | (Some c, DialOk) =>
          modify (set_conn (Some c)) ;;
          s <- Watch c ;;
          modify (set_watch s) ;;
          match s with
          | None =>
              world (happen (EvClose c)) ;;
              klog "failed to start watch: " ;;
              errorSleep ;;
              dial fuel'
          | Some _ =>
              modify (set_data (Some (btree.New 2))) ;;
              world (happen EvNew) ;;
              ret false
          end
      | _ =>
          klog "failed to connect: " ;;
          errorSleep ;;
          dial fuel'
      end
  end.

Definition postError (fuel : nat) : M unit :=
  epc <- get ;;
  match watch epc with
  | Some s => world (happen (EvCloseSend s)) ;; modify (set_watch None)
  | None => ret tt
  end ;;
  match conn epc with
  | Some c => world (happen (EvClose c)) ;; modify (set_conn None)
  | None => ret tt
  end ;;
  c <- ctx_Err ;;
  if c then ret tt
  else errorSleep ;; dial fuel ;; ret tt.

(** [proto.Unmarshal(set.Bytes, v)] *)
Definition proto_Unmarshal (b : list byte) (v : Empty) : M (option Message) :=
  fun epc w =>
    let r := Unmarshal b v in
    Ret r epc
        (happen (EvUnmarshal b v (match r with Some _ => true | None => false end)) w).

(** [epc.data.ReplaceOrInsert] and [epc.data.Delete]; [epc.data] is a
    pointer, [nil] until the first connection. *)
Definition data_ReplaceOrInsert (i : kv) : M unit :=
  epc <- get ;;
  match data epc with
  | None => panic
  | Some t => modify (set_data (Some (btree.ReplaceOrInsert Less i t)))
  end.

Definition data_Delete (i : kv) : M unit :=
  epc <- get ;;
  match data epc with
  | None => panic
  | Some t => modify (set_data (Some (btree.Delete Less i t)))
  end.

(** How one turn of the [apply] loop ends. *)
Inductive Turn : Type := ContinueApply | BreakApply.

(** The [switch] on [set.Ref.Set]: the empty message to decode into, or
    none for a set the client does not know ([continue apply]). *)
Definition empty_for (s : localnetv1.Set_) : option Empty :=
  match s with
  | Set_ServicesSet => Some EmptyService
  | Set_EndpointsSet => Some EmptyEndpoint
  | Set_Unknown _ => None
  end.

(** The [switch] on [op.Op] in the [apply] loop. [set.Ref] is a pointer:
    reading [set.Ref.Set] when the message has no [Ref] panics. *)
Definition applyOp (op : localnetv1.OpItem) : M Turn :=
  match localnetv1.Op op with
  | Some (OpItem_Set set) =>
      match localnetv1.Ref_ set with
      | None => panic
      | Some ref =>
          match empty_for (localnetv1.Ref_Set ref) with
          | None => ret ContinueApply
          | Some v =>
              r <- proto_Unmarshal (localnetv1.Bytes set) v ;;
              match r with
              | None => klog "failed to parse value: " ;; ret ContinueApply
              | Some m =>
                  data_ReplaceOrInsert
                    {| Path := localnetv1.Path ref; Value := Some m |} ;;
                  ret ContinueApply
              end
          end
      end
  | Some (OpItem_Delete ref) =>
      data_Delete {| Path := localnetv1.Path ref; Value := None |} ;;
      ret ContinueApply
  | Some OpItem_Sync => ret BreakApply
  | None => ret ContinueApply
  end.

(** How the [apply] loop is left: [break apply] on [Sync], or a failed
    [Recv] (before [postError] and [goto retry]). *)
Inductive Applied : Type := Synced | RecvFailed.

Fixpoint apply (fuel : nat) : M Applied :=
  match fuel with
  | O => fun _ _ => OutOfFuel
  | S fuel' =>
      r <- Recv ;;
      match r with
      | None => klog "watch recv failed: " ;; ret RecvFailed
      | Some op =>
          t <- applyOp op ;;
          match t with
          | ContinueApply => apply fuel'
          | BreakApply => ret Synced
          end
      end
  end.

(** The channel [NextCh] returns: closed before the return, or fed by the
    goroutine that walks the store as it is at the [Sync]. ([Next] waits
    for the goroutine; a caller of [NextCh] that starts the next round
    before the channel is closed lets the loop write the store while the
    goroutine reads it, which this embedding leaves out.) *)
Inductive Results : Type :=
| ClosedEmpty
| FedBy (g : Goroutine).

(** [go func() { ... }()]; [epc.data.Ascend] on a nil tree panics, in the
    goroutine. *)
Definition spawn : M (Results * bool) :=
  epc <- get ;;
  ret (FedBy (match data epc with
              | Some t => grouper t
              | None => Dies []
              end), false).

(** [NextCh] from its label [retry] on. *)
Fixpoint retry (fuel : nat) (req : localnetv1.WatchReq) : M (Results * bool) :=
  match fuel with
  | O => fun _ _ => OutOfFuel
  | S fuel' =>
      c <- ctx_Err ;;
      if c then ret (ClosedEmpty, true)
      else
        ok <- Send req ;;
        if ok then
          a <- apply fuel' ;;
          match a with
          | Synced => spawn
          | RecvFailed => postError fuel' ;; retry fuel' req
          end
        else postError fuel' ;; retry fuel' req
  end.

Definition NextCh (fuel : nat) (req : localnetv1.WatchReq) : M (Results * bool) :=
  epc <- get ;;
  match watch epc with
  | None => dial fuel ;; ret tt
  | Some _ => ret tt
  end ;;
  retry fuel req.

(** [for seps := range ch]: what the caller receives until the channel is
    closed. A goroutine that panics closes the channel by its deferred call
    and then takes the process down: the loop ends with what was sent if
    the process lasts until it does. *)
Definition range (ch : Results) : M (list ServiceEndpoints) :=
  match ch with
  | ClosedEmpty => ret []
  | FedBy (Closes sent) => ret sent
  | FedBy (Dies sent) => fun epc w => Dying sent epc w
  end.

Definition Next (fuel : nat) (req : localnetv1.WatchReq)
    : M (list ServiceEndpoints * bool) :=
  r <- NextCh fuel req ;;
  let (ch, canceled) := r in
  if canceled then ret ([], true)
  else
    epc <- get ;;
    match data epc with
    | None => panic                       (* [epc.data.Len()] *)
    | Some _ => items <- range ch ;; ret (items, false)
    end.

End Client.

(** ** The channel between the grouping goroutine and [Next]

  [results] is a buffered channel: a send waits while the buffer is full,
  a receive takes the oldest item, and the [range] loop of [Next] ends once
  the channel is closed and empty. The goroutine and [Next] take turns in
  any order; [range] above is what every such run comes to
  ([range_receives_all] below). A goroutine that panics first runs its
  deferred [close(results)], and then the run-time ends the process: the
  loop can take its turns in between. *)

Module chan.
Section Chan.
Variable A : Type.
Variable capacity : nat.

(** How the goroutine will end: it closes the channel, or it panics;
    [Crashing] is a panic that has run the deferred close, with the end of
    the process still to come. *)
Inductive Ending : Type := ThenClose | ThenPanic | Crashing.

Record Sys : Type := {
  pending : list A;          (* what the goroutine has still to send *)
  ending : option Ending;    (* how it will end; [None] once it has *)
  buffer : list A;
  closed : bool;
  items : list A;            (* what the [range] loop has appended *)
  returned : bool;           (* the [range] loop is over *)
  crashed : bool             (* the process is gone *)
}.

Definition start (l : list A) (e : Ending) : Sys :=
  {| pending := l; ending := Some e; buffer := []; closed := false;
     items := []; returned := false; crashed := false |}.

Inductive step : Sys -> Sys -> Prop :=
| step_send x p e b c i r :
    List.length b < capacity ->
    step {| pending := x :: p; ending := e; buffer := b; closed := c;
            items := i; returned := r; crashed := false |}
         {| pending := p; ending := e; buffer := b ++ [x]; closed := c;
            items := i; returned := r; crashed := false |}
| step_close b c i r :
    step {| pending := []; ending := Some ThenClose; buffer := b; closed := c;
            items := i; returned := r; crashed := false |}
         {| pending := []; ending := None; buffer := b; closed := true;
            items := i; returned := r; crashed := false |}
| step_panic b c i r :
    step {| pending := []; ending := Some ThenPanic; buffer := b; closed := c;
            items := i; returned := r; crashed := false |}
         {| pending := []; ending := Some Crashing; buffer := b; closed := true;
            items := i; returned := r; crashed := false |}
| step_crash b i r :
    step {| pending := []; ending := Some Crashing; buffer := b; closed := true;
            items := i; returned := r; crashed := false |}
         {| pending := []; ending := None; buffer := b; closed := true;
            items := i; returned := r; crashed := true |}
| step_recv p e x b c i :
    step {| pending := p; ending := e; buffer := x :: b; closed := c;
            items := i; returned := false; crashed := false |}
         {| pending := p; ending := e; buffer := b; closed := c;
            items := i ++ [x]; returned := false; crashed := false |}
| step_end p e i :
    step {| pending := p; ending := e; buffer := []; closed := true;
            items := i; returned := false; crashed := false |}
         {| pending := p; ending := e; buffer := []; closed := true;
            items := i; returned := true; crashed := false |}.

Definition steps : Sys -> Sys -> Prop := clos_refl_trans_1n Sys step.

(** Nothing is lost, repeated or put out of order on the way. *)
Definition carried (l : list A) (s : Sys) : Prop :=
  items s ++ buffer s ++ pending s = l.

(** The channel is closed exactly when the goroutine has ended or has
    run its deferred close, and the loop returns only on a closed and empty
    channel. *)
Definition orderly (s : Sys) : Prop :=
  (closed s = true ->
   pending s = [] /\ (ending s = None \/ ending s = Some Crashing))
  /\ (ending s = None \/ ending s = Some Crashing ->
      closed s = true /\ pending s = [])
  /\ (returned s = true -> buffer s = [] /\ closed s = true).

(** The work left: sends, the end of the goroutine (two steps for a
    panic), receives, the end of the loop. *)
Definition left (s : Sys) : nat :=
  2 * List.length (pending s) + List.length (buffer s)
  + (match ending s with
     | Some ThenPanic => 2
     | Some _ => 1
     | None => 0
     end)
  + (if returned s then 0 else 1).
End Chan.
End chan.

Section Reading.
Context {schema : Schema}.

(** How the goroutine of [NextCh] starts on the channel. *)
Definition on_channel (g : Goroutine) : chan.Sys ServiceEndpoints :=
  match g with
  | Closes sent => chan.start sent chan.ThenClose
  | Dies sent => chan.start sent chan.ThenPanic
  end.

(** ** The store as the spec words it

    The entries that survive are the entries of the store. An aggregate is
    a service with the endpoints whose paths lie strictly between the path
    of the service and the path of the next service. *)
Definition next_service_path (t : list kv) (p : string) : option string :=
  match filter (fun i => match Value i with
                         | Some (Msg_Service _) => String.ltb p (Path i)
                         | _ => false
                         end) t with
  | [] => None
  | i :: _ => Some (Path i)
  end.

Definition strictly_between (lo : string) (hi : option string) (p : string) : bool :=
  String.ltb lo p && match hi with
                     | Some h => String.ltb p h
                     | None => true
                     end.

Definition endpoints_between (t : list kv) (lo : string) (hi : option string)
    : list localnetv1.Endpoint :=
  flat_map (fun i => match Value i with
                     | Some (Msg_Endpoint e) =>
                         if strictly_between lo hi (Path i) then [e] else []
                     | _ => []
                     end) t.

Definition spec_aggregates (t : list kv) : list ServiceEndpoints :=
  flat_map (fun i => match Value i with
                     | Some (Msg_Service s) =>
                         [{| Service := s;
                             Endpoints := endpoints_between t (Path i)
                                            (next_service_path t (Path i)) |}]
                     | _ => []
                     end) t.

(** The store is kept in strictly ascending order of paths. *)
Definition ascending (t : list kv) : Prop :=
  StronglySorted (fun a b => Less a b = true) t.

(** What holds of the client between calls: its store, once made, is
    ascending, and it has no watch before it has a store. *)
Definition well_kept (epc : EndpointsClient) : Prop :=
  match data epc with
  | Some t => ascending t
  | None => watch epc = None
  end.

(** The entry at a path, if any. *)
Definition lookup (p : string) (t : list kv) : option kv :=
  find (fun i => String.eqb (Path i) p) t.

(** The first entry that holds a value holds an endpoint: an endpoint
    before every service. *)
Fixpoint orphan_first (t : list kv) : bool :=
  match t with
  | [] => false
  | i :: t' =>
      match Value i with
      | Some (Msg_Endpoint _) => true
      | Some (Msg_Service _) => false
      | None => orphan_first t'
      end
  end.

(** The endpoints at the head of a list, up to its first service. *)
Fixpoint leading (l : list kv) : list localnetv1.Endpoint :=
  match l with
  | [] => []
  | j :: l' =>
      match Value j with
      | Some (Msg_Service _) => []
      | Some (Msg_Endpoint e) => e :: leading l'
      | None => leading l'
      end
  end.

(** Each service of a list with the endpoints that follow it. *)
Fixpoint groups (l : list kv) : list ServiceEndpoints :=
  match l with
  | [] => []
  | j :: l' =>
      match Value j with
      | Some (Msg_Service s) =>
          {| Service := s; Endpoints := leading l' |} :: groups l'
      | _ => groups l'
      end
  end.

(** ** Reading a trace *)

(** What a received operation does to the store when [applyOp] returns. *)
Definition effect (op : localnetv1.OpItem) (t : list kv) : list kv :=
  match localnetv1.Op op with
  | Some (OpItem_Set set) =>
      match localnetv1.Ref_ set with
      | None => t
      | Some ref =>
          match empty_for (localnetv1.Ref_Set ref) with
          | None => t
          | Some v =>
              match Unmarshal (localnetv1.Bytes set) v with
              | None => t
              | Some m =>
                  btree.ReplaceOrInsert Less
                    {| Path := localnetv1.Path ref; Value := Some m |} t
              end
          end
      end
  | Some (OpItem_Delete ref) =>
      btree.Delete Less {| Path := localnetv1.Path ref; Value := None |} t
  | _ => t
  end.

(** An operation that [applyOp] takes without leaving the loop and without
    a panic: any but [Sync] and a [Set] without its [Ref]. *)
Definition plain (op : localnetv1.OpItem) : bool :=
  match localnetv1.Op op with
  | Some (OpItem_Set set) =>
      match localnetv1.Ref_ set with Some _ => true | None => false end
  | Some OpItem_Sync => false
  | _ => true
  end.

(** The store after a sequence of operations. *)
Definition effects (ops : list localnetv1.OpItem) (t : list kv) : list kv :=
  fold_left (fun t op => effect op t) ops t.

(** Operations as answers of [Recv], each with the time it took. *)
Definition arriving (rs : list (nat * localnetv1.OpItem))
    : list (nat * option localnetv1.OpItem) :=
  map (fun r => (fst r, Some (snd r))) rs.

(** The time a list of answers takes. *)
Definition total {A : Type} (l : list (nat * A)) : nat :=
  fold_right (fun a n => fst a + n) 0 l.

(** The store after the events of a trace (latest first), from [d]. *)
Fixpoint replay (d : option (list kv)) (tr : list Event) : option (list kv) :=
  match tr with
  | [] => d
  | EvNew :: tr' => Some (btree.New 2)
  | EvRecv _ (Some op) :: tr' => option_map (effect op) (replay d tr')
  | _ :: tr' => replay d tr'
  end.

(** The operations received in a trace, oldest first. *)
Fixpoint received (tr : list Event) : list localnetv1.OpItem :=
  match tr with
  | [] => []
  | EvRecv _ (Some op) :: tr' => received tr' ++ [op]
  | _ :: tr' => received tr'
  end.

Definition is_failure (e : Event) : bool :=
  match e with
  | EvSend _ _ false | EvRecv _ None => true
  | _ => false
  end.

Definition is_new (e : Event) : bool :=
  match e with EvNew => true | _ => false end.

Definition is_connection (e : Event) : bool :=
  match e with EvWatch _ true => true | _ => false end.

Definition is_sleep (e : Event) : bool :=
  match e with EvSleep _ _ => true | _ => false end.

Definition is_send (e : Event) : bool :=
  match e with EvSend _ _ _ => true | _ => false end.

Definition is_recv (e : Event) : bool :=
  match e with EvRecv _ _ => true | _ => false end.

(** Events that touch neither the stream nor the store. *)
Definition aside (e : Event) : bool :=
  match e with
  | EvSend _ _ _ | EvRecv _ _ | EvNew | EvWatch _ true => false
  | _ => true
  end.

(** No transport error and no new store: the events of one connection
    while it works. *)
Definition clean (tr : list Event) : Prop :=
  existsb is_failure tr = false /\ existsb is_new tr = false.

(** The world [w'] comes after [w], with the events [new] in between. *)
Definition extends (w w' : World) (new : list Event) : Prop :=
  trace w' = new ++ trace w /\ cancelAt w' = cancelAt w /\ now w <= now w'.

(** Every request sent in the trace is [req]. *)
Definition sends_only (req : localnetv1.WatchReq) (tr : list Event) : Prop :=
  forall s r ok, In (EvSend s r ok) tr -> r = req.

(** Every new store directly follows the start of a watch, and every watch
    that starts is directly followed by a new store. *)
Fixpoint paired (tr : list Event) : Prop :=
  match tr with
  | [] => True
  | EvNew :: EvWatch _ true :: tr' => paired tr'
  | EvNew :: _ => False
  | EvWatch _ true :: _ => False
  | _ :: tr' => paired tr'
  end.

(** *** The backoff as the spec words it

    Cancellation is checked before each backoff sleep: no sleep of a call of
    [dial] starts once the context is canceled. *)
Definition checked_before_each_sleep : Prop :=
  forall fuel epc w b epc' w' new,
    dial fuel epc w = Ret b epc' w' ->
    trace w' = new ++ trace w ->
    forall t d c, In (EvSleep t d) new -> cancelAt w = Some c -> t < c.

(** The sleep is interruptible: a sleep that starts before the cancellation
    is over when the cancellation comes, at the latest. *)
Definition sleep_is_interruptible : Prop :=
  forall epc w epc' w' c,
    errorSleep epc w = Ret tt epc' w' ->
    cancelAt w = Some c -> now w < c -> now w' <= c.

End Reading.

(** ** The transport as a client has to use it

    A connection is dialed, a watch is started on it, requests are sent and
    operations received on the watch, the watch is half-closed and the
    connection closed. [Wire] is where the client stands in this order;
    [Tired] is after a failure, before the sleep that has to come before
    the next dial. *)

Section Conduct.
Context {schema : Schema}.

Inductive Wire : Type :=
| Ready                        (* nothing open; a dial may come *)
| Tired                        (* nothing open; a sleep has to come first *)
| Dialed                       (* a connection without a watch yet *)
| Streaming (c : ClientConn)   (* a watch on the connection [c] *)
| Closing (c : ClientConn).    (* [c] is open and of no more use *)

(** The events a client may cause in each state. A sleep lasts [delay]. *)
Definition wire_step (delay : nat) (s : Wire) (e : Event) : option Wire :=
  match e with
  | EvLog _ => Some s
  | EvDialContext r =>
      match s with
      | Ready => Some (match r with DialOk => Dialed | _ => Tired end)
      | _ => None
      end
  | EvWatch c ok =>
      match s with
      | Dialed => Some (if ok then Streaming c else Closing c)
      | _ => None
      end
  | EvNew | EvUnmarshal _ _ _ =>
      match s with
      | Streaming _ => Some s
      | _ => None
      end
  | EvSend c _ _ | EvRecv c _ =>
      match s with
      | Streaming c' => if c =? c' then Some s else None
      | _ => None
      end
  | EvCloseSend c =>
      match s with
      | Streaming c' => if c =? c' then Some (Closing c) else None
      | _ => None
      end
  | EvClose c =>
      match s with
      | Closing c' => if c =? c' then Some Tired else None
      | _ => None
      end
  | EvSleep _ d =>
      match s with
      | Tired => if d =? delay then Some Ready else None
      | _ => None
      end
  end.

(** Where the events of a trace (latest first) lead from [s], if the trace
    keeps to the order. *)
Fixpoint wire_trace (delay : nat) (tr : list Event) (s : Wire) : option Wire :=
  match tr with
  | [] => Some s
  | e :: tr' =>
      match wire_trace delay tr' s with
      | Some s' => wire_step delay s' e
      | None => None
      end
  end.

(** Where a client stands between calls. *)
Definition wire_of (epc : EndpointsClient) : Wire :=
  match watch epc with
  | Some s => Streaming s
  | None => Ready
  end.

(** The state [st] the events led to is the state of the client's fields. *)
Definition settled (st : Wire) (epc : EndpointsClient) : Prop :=
  match watch epc with
  | Some s => st = Streaming s
  | None => st = Ready \/ st = Tired
  end.

(** The watch of a client is on its connection. *)
Definition linked (epc : EndpointsClient) : Prop :=
  forall s, watch epc = Some s -> conn epc = Some s.

Definition is_dial (e : Event) : bool :=
  match e with EvDialContext _ => true | _ => false end.

Definition is_close (e : Event) : bool :=
  match e with EvClose _ => true | _ => false end.

Definition is_dial_ok (e : Event) : bool :=
  match e with EvDialContext DialOk => true | _ => false end.

(** A connection is open in the state [s]. *)
Definition open (s : Wire) : nat :=
  match s with
  | Ready | Tired => 0
  | Dialed | Streaming _ | Closing _ => 1
  end.

(** The connections made and the connections closed in a trace. *)
Definition opened (tr : list Event) : nat := List.length (filter is_dial_ok tr).
Definition closes (tr : list Event) : nat := List.length (filter is_close tr).

(** The calls of [grpc.DialContext] and the sleeps in a trace. *)
Definition attempts (tr : list Event) : nat := List.length (filter is_dial tr).
Definition naps (tr : list Event) : nat := List.length (filter is_sleep tr).

(** A dial is answered [context.Canceled] only for a canceled context: the
    cancellation, at [k], has come by the time of the answer, [fst a] after
    a dial that is not made before [t0]. *)
Definition unforged (k : option nat) (t0 : nat) (a : nat * DialResult) : bool :=
  match snd a with
  | DialCanceled =>
      match k with
      | Some c => c <=? t0 + fst a
      | None => false
      end
  | _ => true
  end.



(** What the transport has still to answer in [w'] is what it had in [w],
    less what was taken; [w'] is not before [w], with the same
    cancellation. *)
Definition taken {A : Type} (before after : list A) : Prop :=
  exists u, before = u ++ after.

Definition follows (w w' : World) : Prop :=
  taken (dials w) (dials w') /\ taken (watches w) (watches w')
  /\ taken (sends w) (sends w') /\ taken (recvs w) (recvs w')
  /\ cancelAt w' = cancelAt w /\ now w <= now w'.



End Conduct.

(** ** The store and its aggregates, entry by entry *)

Section Entries.
Context {schema : Schema}.

(** The messages of an aggregate: the service, then its endpoints. *)
Definition members (g : ServiceEndpoints) : list Message :=
  Msg_Service (Service g) :: map Msg_Endpoint (Endpoints g).

(** The messages of a store, in the order of the store. *)
Definition values (t : list kv) : list Message :=
  flat_map (fun i => match Value i with
                     | Some m => [m]
                     | None => []
                     end) t.

(** What an operation says of the path [p], when [applyOp] takes it: the
    entry to hold, or none ([Some None]); [None] when it says nothing. *)
Definition says (p : string) (op : localnetv1.OpItem) : option (option kv) :=
  match localnetv1.Op op with
  | Some (OpItem_Set set) =>
      match localnetv1.Ref_ set with
      | None => None
      | Some ref =>
          match empty_for (localnetv1.Ref_Set ref) with
          | None => None
          | Some v =>
              match Unmarshal (localnetv1.Bytes set) v with
              | None => None
              | Some m =>
                  if String.eqb (localnetv1.Path ref) p
                  then Some (Some {| Path := localnetv1.Path ref; Value := Some m |})
                  else None
              end
          end
      end
  | Some (OpItem_Delete ref) =>
      if String.eqb (localnetv1.Path ref) p then Some None else None
  | _ => None
  end.

(** The last word on [p] in a sequence of operations, oldest first. *)
Fixpoint last_word (p : string) (ops : list localnetv1.OpItem)
    : option (option kv) :=
  match ops with
  | [] => None
  | op :: ops' =>
      match last_word p ops' with
      | Some v => Some v
      | None => says p op
      end
  end.

End Entries.

(** ** [Cancel] *)

Section CancelFunc.
Context {schema : Schema}.

Definition set_cancelAt (c : option nat) (w : World) : World :=
  {| now := now w; cancelAt := c; dials := dials w;
     watches := watches w; sends := sends w; recvs := recvs w;
     serial := serial w; trace := trace w |}.

(** [epc.cancel], the cancel function of [context.WithCancel]: the first
    call cancels the context, the calls after it do nothing. *)
Definition cancel (w : World) : World :=
  if canceled w then w else set_cancelAt (Some (now w)) w.

(** [epc.Cancel()] *)
Definition Cancel : M unit := world cancel.

End CancelFunc.

(** ** Scripts with setbacks *)

Section Scripts.
Context {schema : Schema}.






End Scripts.

(** ** Cancellation on signals: [CancelOn]

    The goroutine of [CancelOn] makes a channel of capacity 1, asks
    [signal.Notify] to relay the signals to it, cancels the client on the
    first signal it receives and exits the process on the second.

    [os/signal] is taken by its contract: [Notify] relays the signals
    named, all of them when none is named, but for SIGKILL and SIGSTOP,
    which cannot be caught; it does not block, so a signal that finds the
    channel full is dropped. A signal that is not relayed, because
    [Notify] does not relay it or has not been called yet, gets the default
    action of the run-time, in a process where nothing else asks for
    signals: SIGHUP, SIGINT and SIGTERM end the process, as SIGKILL always
    does; what the other signals do (a stack dump, a stop, nothing) is not
    followed. *)

Section Signals.
Context {schema : Schema}.

(** [os.Signal], by its number. *)
Definition Signal : Type := nat.
Definition Interrupt : Signal := 2.      (* [os.Interrupt], SIGINT *)
Definition Kill : Signal := 9.           (* [os.Kill], SIGKILL *)
Definition SIGTERM : Signal := 15.
Definition SIGSTOP : Signal := 19.       (* as on Linux *)
Definition SIGHUP : Signal := 1.

Definition relays (signals : list Signal) (sig : Signal) : bool :=
  negb (sig =? Kill) && negb (sig =? SIGSTOP)
  && match signals with
     | [] => true
     | _ => existsb (Nat.eqb sig) signals
     end.

(** The signals that end the process when nothing relays them. *)
Definition fatal (sig : Signal) : bool :=
  (sig =? SIGHUP) || (sig =? Interrupt) || (sig =? Kill) || (sig =? SIGTERM).

(** Where the goroutine stands: before [signal.Notify], at the first
    [<-c], at the second, or after [os.Exit(code)]; or the process was
    ended by a signal that was not relayed, or it got such a signal that
    does not end it, after which it is not followed. *)
Inductive Stage : Type :=
| Starting
| AwaitFirst
| AwaitSecond
| Exited (code : nat)
| Killed (sig : Signal)
| Unfollowed (sig : Signal).

(** The default action of the run-time on a signal. *)
Definition by_default (sig : Signal) : Stage :=
  if fatal sig then Killed sig else Unfollowed sig.

Record Handler : Type := {
  stage : Stage;
  notified : list Signal;      (* the signals given to [CancelOn] *)
  inbox : option Signal        (* the channel [c], of capacity 1 *)
}.

(** [go func() { ... }()] *)
Definition CancelOn (signals : list Signal) : Handler :=
  {| stage := Starting; notified := signals; inbox := None |}.

Definition CancelOnSignals : Handler := CancelOn [Interrupt; Kill; SIGTERM].

(** What happens around the goroutine and to it: a signal arrives at the
    process, the goroutine runs up to its next receive, time passes. *)
Inductive Act : Type :=
| Arrives (sig : Signal)
| Runs
| Passes (d : nat).

Definition act (a : Act) (hw : Handler * World) : Handler * World :=
  let (h, w) := hw in
  match stage h, a with
  | Exited _, _ => (h, w)                       (* the process is gone *)
  | Killed _, _ => (h, w)                       (* the process is gone *)
  | Unfollowed _, _ => (h, w)                   (* not followed *)
  | _, Passes d => (h, pass d w)
  | Starting, Arrives sig =>                    (* not relayed yet *)
      ({| stage := by_default sig; notified := notified h;
          inbox := inbox h |}, w)
  | _, Arrives sig =>
      if relays (notified h) sig then
        match inbox h with
        | None => ({| stage := stage h; notified := notified h;
                      inbox := Some sig |}, w)
        | Some _ => (h, w)                      (* [c] is full *)
        end
      else ({| stage := by_default sig; notified := notified h;
               inbox := inbox h |}, w)
  | Starting, Runs =>
      ({| stage := AwaitFirst; notified := notified h; inbox := None |}, w)
  | AwaitFirst, Runs =>
      match inbox h with
      | None => (h, w)                          (* blocked on [<-c] *)
      | Some _ =>
          ({| stage := AwaitSecond; notified := notified h; inbox := None |},
           cancel (happen (EvLog "got signal ") w))
      end
  | AwaitSecond, Runs =>
      match inbox h with
      | None => (h, w)
      | Some _ =>
          ({| stage := Exited 1; notified := notified h; inbox := None |},
           happen (EvLog "got signal ") w)
      end
  end.

Definition acts (l : list Act) (hw : Handler * World) : Handler * World :=
  fold_left (fun hw a => act a hw) l hw.

(** The signals of a schedule that [Notify] relays. *)
Definition relayed (signals : list Signal) (l : list Act) : nat :=
  List.length (filter (fun a => match a with
                                | Arrives sig => relays signals sig
                                | _ => false
                                end) l).

(** The goroutine is at work: the process has not exited and every signal
    so far was relayed. *)
Definition at_work (h : Handler) : bool :=
  match stage h with
  | Starting | AwaitFirst | AwaitSecond => true
  | _ => false
  end.

(** What holds of the goroutine and the context after a schedule with [n]
    signals that [Notify] relays. *)
Definition in_step (n : nat) (hw : Handler * World) : Prop :=
  let (h, w) := hw in
  match stage h with
  | Starting => cancelAt w = None /\ inbox h = None
  | AwaitFirst => cancelAt w = None /\ (inbox h <> None -> 1 <= n)
  | AwaitSecond => canceled w = true /\ 1 <= n /\ (inbox h <> None -> 2 <= n)
  | Exited code => code = 1 /\ canceled w = true /\ 2 <= n
  | Killed sig => fatal sig = true /\ (cancelAt w <> None -> 1 <= n)
  | Unfollowed sig => fatal sig = false /\ (cancelAt w <> None -> 1 <= n)
  end.

End Signals.

(** ** A small schema to run the client on

    Services and endpoints are their names; a payload decodes to the name it
    spells, and the empty payload does not decode. *)

Definition name_of (b : list byte) : option string :=
  match b with
  | [] => None
  | _ => Some (string_of_list_byte b)
  end.

Definition names : Schema :=
  {| localnetv1.Service := string;
     localnetv1.Endpoint := string;
     localnetv1.WatchReq := unit;
     localnetv1.Unmarshal_Service := name_of;
     localnetv1.Unmarshal_Endpoint := name_of |}.

Definition ref_of (k : localnetv1.Set_) (p : string) : localnetv1.Ref :=
  {| localnetv1.Ref_Set := k; localnetv1.Path := p |}.

Definition value_of (k : localnetv1.Set_) (p : string) (payload : string)
    : localnetv1.Value :=
  {| localnetv1.Ref_ := Some (ref_of k p);
     localnetv1.Bytes := list_byte_of_string payload |}.

Definition set_op (k : localnetv1.Set_) (p : string) (payload : string)
    : localnetv1.OpItem :=
  {| localnetv1.Op := Some (OpItem_Set (value_of k p payload)) |}.

Definition delete_op (p : string) : localnetv1.OpItem :=
  {| localnetv1.Op := Some (OpItem_Delete (ref_of Set_ServicesSet p)) |}.

Definition sync_op : localnetv1.OpItem := {| localnetv1.Op := Some OpItem_Sync |}.

Definition nil_op : localnetv1.OpItem := {| localnetv1.Op := None |}.

(** A client that has never connected, and one with an open watch on an
    empty store. *)
Definition fresh (delay : nat) : EndpointsClient (schema:=names) :=
  {| ErrorDelay := delay; conn := None; watch := None; data := None |}.

Definition connected (delay : nat) (t : list (kv (schema:=names)))
    : EndpointsClient (schema:=names) :=
  {| ErrorDelay := delay; conn := Some 0; watch := Some 0; data := Some t |}.

(** A world at time 0 with the given scripts. *)
Definition script (cancel : option nat) (ds : list (nat * DialResult))
    (ws ss : list (nat * bool)) (rs : list (nat * option localnetv1.OpItem))
    : World (schema:=names) :=
  {| now := 0; cancelAt := cancel; dials := ds; watches := ws; sends := ss;
     recvs := rs; serial := 1; trace := [] |}.

Definition answers (ops : list localnetv1.OpItem)
    : list (nat * option localnetv1.OpItem) :=
  map (fun op => (0, Some op)) ops.

Definition service_at (p name : string) : kv (schema:=names) :=
  {| Path := p; Value := Some (Msg_Service (name : @localnetv1.Service names)) |}.

Definition endpoint_at (p name : string) : kv (schema:=names) :=
  {| Path := p; Value := Some (Msg_Endpoint (name : @localnetv1.Endpoint names)) |}.

(** A round: the request is sent at once and the operations arrive at once. *)
Definition round_of (ops : list localnetv1.OpItem) : World (schema:=names) :=
  script None [] [] [(0, true)] (answers ops).

(** Scenario A of the spec: a service and its two endpoints. *)
Definition scenario_A : list localnetv1.OpItem :=
  [set_op Set_ServicesSet "ns/svc" "S";
   set_op Set_EndpointsSet "ns/svc/ep1" "E1";
   set_op Set_EndpointsSet "ns/svc/ep2" "E2";
   sync_op].

(** Scenario B of the spec: an endpoint and no service. *)
Definition scenario_B : list localnetv1.OpItem :=
  [set_op Set_EndpointsSet "ns/svc/ep1" "E1"; sync_op].

(** An endpoint sorted before the only service. *)
Definition orphan_then_service : list localnetv1.OpItem :=
  [set_op Set_EndpointsSet "ns/a/ep" "E1";
   set_op Set_ServicesSet "ns/svc" "S";
   sync_op].

(** A round broken by a failed receive: an operation arrives, the stream
    fails, the client sleeps, dials again and the round restarts. *)
Definition broken_round : World (schema:=names) :=
  script None [(2, DialOk)] [(1, true)] [(0, true); (0, true)]
    [(0, Some (set_op Set_ServicesSet "ns/old" "OLD"));
     (3, None);
     (0, Some (set_op Set_ServicesSet "ns/svc" "S"));
     (0, Some (set_op Set_EndpointsSet "ns/svc/ep1" "E1"));
     (0, Some sync_op)].

(** A round broken by a failed send: the send fails after 4 ticks, the
    client sleeps, dials again and sends the request again. *)
Definition failed_send_round : World (schema:=names) :=
  script None [(2, DialOk)] [(1, true)] [(4, false); (0, true)]
    [(0, Some (set_op Set_ServicesSet "ns/svc" "S"));
     (0, Some (set_op Set_EndpointsSet "ns/svc/ep1" "E1"));
     (0, Some sync_op)].

(** A watch that fails to start while the context is being canceled: the
    dial takes one tick, the cancellation comes at tick 1. *)
Definition canceled_during_dial : World (schema:=names) :=
  script (Some 1) [(1, DialOk)] [(0, false)] [] [].

(** A dial that fails at tick 1 and a watch that fails to start at tick 1,
    each with the cancellation at tick 3, during the sleep that follows. *)
Definition canceled_during_sleep : World (schema:=names) :=
  script (Some 3) [(1, DialFailed)] [] [] [].

Definition canceled_during_second_sleep : World (schema:=names) :=
  script (Some 3) [(1, DialOk)] [(0, false)] [] [].

(** A context canceled from the start. *)
Definition canceled_at_start : World (schema:=names) :=
  script (Some 0) [(0, DialOk)] [(0, true)] [(0, true)] (answers scenario_A).

Definition aggregate (service : string) (endpoints : list string)
    : ServiceEndpoints (schema:=names) :=
  @Build_ServiceEndpoints names service endpoints.

(** Scenario A from a client that has yet to connect. *)
Definition first_round : World (schema:=names) :=
  script None [(0, DialOk)] [(0, true)] [(0, true)] (answers scenario_A).


(** A [Set] whose message has no [Ref]. *)
Definition set_without_ref : localnetv1.OpItem :=
  {| localnetv1.Op :=
       Some (OpItem_Set {| localnetv1.Ref_ := None; localnetv1.Bytes := [] |}) |}.

(** A round whose stream fails at tick 4, after the cancellation at
    tick 2. *)
Definition canceled_mid_round : World (schema:=names) :=
  script (Some 2) [] [] [(1, true)]
    [(0, Some (set_op Set_ServicesSet "ns/svc" "S")); (3, None)].


(** * Properties *)

(** ** The order of paths *)

Lemma compare_OT (a b : string) : String.compare a b = String_as_OT.compare a b.
Proof.
  revert b; induction a as [|c a IH]; destruct b as [|c' b]; simpl; auto.
Qed.

Lemma ltb_lt (a b : string) : String.ltb a b = true <-> String_as_OT.lt a b.
Proof.
  unfold String.ltb, String_as_OT.lt. rewrite compare_OT.
  destruct (String_as_OT.compare a b); split; congruence.
Qed.

Lemma ltb_irrefl (s : string) : String.ltb s s = false.
Proof.
  destruct (String.ltb s s) eqn:E; auto.
  apply ltb_lt in E. exfalso. exact (StrictOrder_Irreflexive s E).
Qed.

Lemma ltb_trans (a b c : string) :
  String.ltb a b = true -> String.ltb b c = true -> String.ltb a c = true.
Proof. rewrite !ltb_lt. apply StrictOrder_Transitive. Qed.

Lemma ltb_asym (a b : string) : String.ltb a b = true -> String.ltb b a = false.
Proof.
  intros H. destruct (String.ltb b a) eqn:E; auto.
  rewrite <- (ltb_irrefl a). symmetry. eapply ltb_trans; eauto.
Qed.

Lemma ltb_total (a b : string) :
  String.ltb a b = false -> String.ltb b a = false -> a = b.
Proof.
  unfold String.ltb. rewrite (String.compare_antisym b a).
  destruct (String.compare a b) eqn:E; simpl; try discriminate.
  intros _ _. now apply String.compare_eq_iff.
Qed.

Section Store.
Context {schema : Schema}.

Local Notation "'RoI'" := (btree.ReplaceOrInsert Less).
Local Notation "'Del'" := (btree.Delete Less).

Lemma Less_irrefl (a : kv) : Less a a = false.
Proof. apply ltb_irrefl. Qed.

Lemma Less_same (a b : kv) : Path a = Path b -> Less a b = false /\ Less b a = false.
Proof. unfold Less. intros ->. split; apply ltb_irrefl. Qed.

Lemma Less_trans (a b c : kv) : Less a b = true -> Less b c = true -> Less a c = true.
Proof. apply ltb_trans. Qed.

Lemma Less_total (a b : kv) : Less a b = false -> Less b a = false -> Path a = Path b.
Proof. apply ltb_total. Qed.

Lemma ascending_cons (x : kv) (t : list kv) :
  ascending (x :: t) <-> ascending t /\ Forall (fun y => Less x y = true) t.
Proof.
  split.
  - intros H. inversion H; subst. split; assumption.
  - intros [H1 H2]. constructor; assumption.
Qed.

Lemma Forall_ReplaceOrInsert (x item : kv) (t : list kv) :
  Less x item = true -> Forall (fun y => Less x y = true) t ->
  Forall (fun y => Less x y = true) (RoI item t).
Proof.
  intros Hx. induction t as [|y t IH]; simpl; intros H.
  - constructor; auto.
  - inversion H; subst.
    destruct (Less item y); [|destruct (Less y item)]; repeat constructor; auto.
Qed.

Lemma ascending_ReplaceOrInsert (item : kv) (t : list kv) :
  ascending t -> ascending (RoI item t).
Proof.
  induction t as [|x t IH]; simpl; intros H.
  - repeat constructor.
  - apply ascending_cons in H. destruct H as [Ht Hx].
    destruct (Less item x) eqn:E1; [|destruct (Less x item) eqn:E2].
    + apply ascending_cons. split.
      * apply ascending_cons. split; assumption.
      * constructor; auto.
        eapply Forall_impl; [|exact Hx]. intros y Hy. eapply Less_trans; eauto.
    + apply ascending_cons. split; auto. apply Forall_ReplaceOrInsert; auto.
    + apply ascending_cons. split; auto.
      pose proof (Less_total E1 E2) as Hp.
      eapply Forall_impl; [|exact Hx]. intros y Hy.
      unfold Less in *. rewrite Hp. exact Hy.
Qed.

Lemma Forall_Delete (P : kv -> Prop) (item : kv) (t : list kv) :
  Forall P t -> Forall P (Del item t).
Proof.
  induction t as [|y t IH]; simpl; intros H; auto.
  inversion H; subst.
  destruct (Less item y); [|destruct (Less y item)]; auto.
Qed.

Lemma ascending_Delete (item : kv) (t : list kv) :
  ascending t -> ascending (Del item t).
Proof.
  induction t as [|x t IH]; simpl; intros H; auto.
  pose proof H as H'. apply ascending_cons in H'. destruct H' as [Ht Hx].
  destruct (Less item x) eqn:E1; [|destruct (Less x item) eqn:E2]; auto.
  apply ascending_cons. split; auto. apply Forall_Delete; auto.
Qed.

Lemma ascending_NoDup (t : list kv) : ascending t -> NoDup (map Path t).
Proof.
  induction t as [|x t IH]; simpl; intros H.
  - constructor.
  - apply ascending_cons in H. destruct H as [Ht Hx]. constructor; auto.
    intros Hin. apply in_map_iff in Hin. destruct Hin as [y [Hy Hin]].
    rewrite Forall_forall in Hx. specialize (Hx y Hin).
    unfold Less in Hx. rewrite Hy, ltb_irrefl in Hx. discriminate.
Qed.

Lemma lookup_above (p : string) (x : kv) (t : list kv) :
  Forall (fun y => Less x y = true) t ->
  (String.ltb p (Path x) = true \/ p = Path x) -> lookup p t = None.
Proof.
  intros Hx Hp. induction t as [|y t IH]; simpl; auto.
  inversion Hx; subst. unfold lookup in *. simpl.
  destruct (String.eqb (Path y) p) eqn:E; auto.
  apply String.eqb_eq in E. subst p. unfold Less in H1. exfalso.
  destruct Hp as [Hp|Hp].
  - rewrite (ltb_asym Hp) in H1. discriminate.
  - rewrite Hp, ltb_irrefl in H1. discriminate.
Qed.

(** After [ReplaceOrInsert] the path of the item holds the item, and every
    other path holds what it held. *)
Lemma lookup_ReplaceOrInsert (p : string) (item : kv) (t : list kv) :
  ascending t ->
  lookup p (RoI item t) =
    if String.eqb (Path item) p then Some item else lookup p t.
Proof.
  induction t as [|x t IH]; intros H.
  - unfold lookup. simpl. destruct (String.eqb (Path item) p); auto.
  - apply ascending_cons in H. destruct H as [Ht Hx]. simpl.
    destruct (Less item x) eqn:E1; [|destruct (Less x item) eqn:E2].
    + unfold lookup. simpl. reflexivity.
    + unfold lookup in *. simpl.
      destruct (String.eqb (Path x) p) eqn:Ex.
      * apply String.eqb_eq in Ex. subst p.
        destruct (String.eqb (Path item) (Path x)) eqn:Ei; auto.
        apply String.eqb_eq in Ei. unfold Less in E2.
        rewrite Ei, ltb_irrefl in E2. discriminate.
      * apply IH; auto.
    + pose proof (Less_total E1 E2) as Hp. unfold lookup. simpl.
      rewrite Hp. destruct (String.eqb (Path x) p); auto.
Qed.

(** After [Delete] the path of the item holds nothing, and every other path
    holds what it held. *)
Lemma lookup_Delete (p : string) (item : kv) (t : list kv) :
  ascending t ->
  lookup p (Del item t) =
    if String.eqb (Path item) p then None else lookup p t.
Proof.
  induction t as [|x t IH]; intros H.
  - unfold lookup. simpl. destruct (String.eqb (Path item) p); auto.
  - apply ascending_cons in H. destruct H as [Ht Hx]. simpl.
    destruct (Less item x) eqn:E1; [|destruct (Less x item) eqn:E2].
    + destruct (String.eqb (Path item) p) eqn:Ei; auto.
      apply String.eqb_eq in Ei. subst p.
      unfold lookup. simpl.
      destruct (String.eqb (Path x) (Path item)) eqn:Ex.
      * apply String.eqb_eq in Ex. unfold Less in E1.
        rewrite Ex, ltb_irrefl in E1. discriminate.
      * apply (lookup_above (x:=x)); auto.
    + unfold lookup in *. simpl.
      destruct (String.eqb (Path x) p) eqn:Ex.
      * apply String.eqb_eq in Ex. subst p.
        destruct (String.eqb (Path item) (Path x)) eqn:Ei; auto.
        apply String.eqb_eq in Ei. unfold Less in E2.
        rewrite Ei, ltb_irrefl in E2. discriminate.
      * apply IH; auto.
    + pose proof (Less_total E1 E2) as Hp.
      destruct (String.eqb (Path item) p) eqn:Ei.
      * apply String.eqb_eq in Ei. subst p.
        apply (lookup_above (x:=x)); auto.
      * unfold lookup. simpl. rewrite <- Hp, Ei. reflexivity.
Qed.

Lemma ReplaceOrInsert_twice (item : kv) (t : list kv) :
  RoI item (RoI item t) = RoI item t.
Proof.
  induction t as [|x t IH]; simpl.
  - rewrite Less_irrefl. reflexivity.
  - destruct (Less item x) eqn:E1; [|destruct (Less x item) eqn:E2]; simpl.
    + rewrite Less_irrefl. reflexivity.
    + rewrite E1, E2, IH. reflexivity.
    + rewrite Less_irrefl. reflexivity.
Qed.

Lemma ReplaceOrInsert_in_place (item : kv) (t : list kv) :
  ascending t -> In (Path item) (map Path t) ->
  map Path (RoI item t) = map Path t.
Proof.
  induction t as [|x t IH]; simpl; intros H Hin; [contradiction|].
  apply ascending_cons in H. destruct H as [Ht Hx].
  destruct (Less item x) eqn:E1; [|destruct (Less x item) eqn:E2]; simpl.
  - exfalso. destruct Hin as [Hin|Hin].
    + unfold Less in E1. rewrite Hin, ltb_irrefl in E1. discriminate.
    + apply in_map_iff in Hin. destruct Hin as [y [Hy Hin]].
      rewrite Forall_forall in Hx. specialize (Hx y Hin).
      unfold Less in *. rewrite Hy in Hx.
      rewrite (ltb_asym Hx) in E1. discriminate.
  - f_equal. apply IH; auto. destruct Hin as [Hin|Hin]; auto.
    unfold Less in E2. rewrite Hin, ltb_irrefl in E2. discriminate.
  - f_equal. symmetry. apply Less_total; auto.
Qed.

Lemma Delete_absent (item : kv) (t : list kv) :
  ~ In (Path item) (map Path t) -> Del item t = t.
Proof.
  induction t as [|x t IH]; simpl; intros H; auto.
  destruct (Less item x) eqn:E1; [|destruct (Less x item) eqn:E2]; auto.
  - f_equal. apply IH. tauto.
  - exfalso. apply H. left. symmetry. apply Less_total; auto.
Qed.

(** [ReplaceOrInsert] always leaves the item in the tree. *)
Lemma ReplaceOrInsert_In (item : kv) (t : list kv) : In item (RoI item t).
Proof.
  induction t as [|x t IH]; simpl; [left; reflexivity|].
  destruct (Less item x); [|destruct (Less x item)]; simpl; auto.
Qed.

Lemma NoDup_map_inj {X Y : Type} (f : X -> Y) (l : list X) (a b : X) :
  NoDup (map f l) -> In a l -> In b l -> f a = f b -> a = b.
Proof.
  induction l as [|x l IH]; simpl; intros Hn Ha Hb E; [contradiction|].
  inversion Hn as [|? ? Hx Hl]; subst.
  destruct Ha as [Ha|Ha], Hb as [Hb|Hb]; subst; auto.
  - exfalso. apply Hx. rewrite E. apply in_map. exact Hb.
  - exfalso. apply Hx. rewrite <- E. apply in_map. exact Ha.
Qed.

(** In an ascending tree the item is the only entry at its path. *)
Lemma ReplaceOrInsert_only (item i : kv) (t : list kv) :
  ascending t -> In i (RoI item t) -> Path i = Path item -> i = item.
Proof.
  intros Ha Hi E.
  apply (NoDup_map_inj (f:=Path) (l:=RoI item t)); auto.
  - apply ascending_NoDup, ascending_ReplaceOrInsert, Ha.
  - apply ReplaceOrInsert_In.
Qed.

(** On a path that is in the tree, [ReplaceOrInsert] swaps the entry at the
    path for the item and touches no other entry. *)
Lemma ReplaceOrInsert_replaces (item : kv) (t : list kv) :
  ascending t -> In (Path item) (map Path t) ->
  RoI item t = map (fun i => if String.eqb (Path i) (Path item) then item else i) t.
Proof.
  induction t as [|x t IH]; simpl; intros H Hin; [contradiction|].
  apply ascending_cons in H. destruct H as [Ht Hx].
  destruct (Less item x) eqn:E1; [|destruct (Less x item) eqn:E2].
  - exfalso. destruct Hin as [Hin|Hin].
    + unfold Less in E1. rewrite Hin, ltb_irrefl in E1. discriminate.
    + apply in_map_iff in Hin. destruct Hin as [y [Hy Hin]].
      rewrite Forall_forall in Hx. specialize (Hx y Hin).
      unfold Less in *. rewrite Hy in Hx.
      rewrite (ltb_asym Hx) in E1. discriminate.
  - assert (Ex : String.eqb (Path x) (Path item) = false).
    { destruct (String.eqb (Path x) (Path item)) eqn:Ex; auto.
      apply String.eqb_eq in Ex. unfold Less in E2.
      rewrite Ex, ltb_irrefl in E2. discriminate. }
    rewrite Ex. f_equal. apply IH; auto. destruct Hin as [Hin|Hin]; auto.
    apply String.eqb_neq in Ex. congruence.
  - pose proof (Less_total E1 E2) as Hp.
    rewrite <- Hp, String.eqb_refl. f_equal.
    rewrite <- (map_id t) at 1. apply map_ext_in. intros y Hy.
    rewrite Forall_forall in Hx. specialize (Hx y Hy).
    destruct (String.eqb (Path y) (Path item)) eqn:Ey; auto.
    apply String.eqb_eq in Ey. unfold Less in Hx.
    rewrite Ey, Hp, ltb_irrefl in Hx. discriminate.
Qed.

(** On a path that is not in the tree, [ReplaceOrInsert] adds one entry. *)
Lemma ReplaceOrInsert_inserts (item : kv) (t : list kv) :
  ~ In (Path item) (map Path t) ->
  List.length (RoI item t) = S (List.length t).
Proof.
  induction t as [|x t IH]; simpl; intros H; auto.
  destruct (Less item x) eqn:E1; [|destruct (Less x item) eqn:E2]; simpl; auto.
  - f_equal. apply IH. tauto.
  - exfalso. apply H. left. symmetry. apply Less_total; auto.
Qed.

(** X2. The store is a map from paths to values kept in ascending order:
    [ReplaceOrInsert] binds the path of the item to the item and [Delete]
    unbinds it, every other path keeps what it held, and the order stays. *)
Theorem store_is_an_ordered_map (item : kv) (t : list kv) (p : string) :
  ascending t ->
  lookup p (RoI item t) =
    (if String.eqb (Path item) p then Some item else lookup p t)
  /\ lookup p (Del item t) =
       (if String.eqb (Path item) p then None else lookup p t)
  /\ ascending (RoI item t) /\ ascending (Del item t)
  /\ NoDup (map Path (RoI item t)) /\ NoDup (map Path (Del item t)).
Proof.
  intros Ha.
  split; [apply lookup_ReplaceOrInsert, Ha|].
  split; [apply lookup_Delete, Ha|].
  split; [apply ascending_ReplaceOrInsert, Ha|].
  split; [apply ascending_Delete, Ha|].
  split; apply ascending_NoDup.
  - apply ascending_ReplaceOrInsert, Ha.
  - apply ascending_Delete, Ha.
Qed.
End Store.

(** ** Running the monad *)

Lemma bind_Ret {schema : Schema} {A B} (m : M A) (k : A -> M B) epc w b epc' w' :
  bind m k epc w = Ret b epc' w' ->
  exists a epc1 w1, m epc w = Ret a epc1 w1 /\ k a epc1 w1 = Ret b epc' w'.
Proof.
  unfold bind. destruct (m epc w) as [a epc1 w1| | | |a epc1 w1]; try discriminate.
  - intros H. exists a, epc1, w1. auto.
  - unfold dying. destruct (k a epc1 w1); discriminate.
Qed.

(** Unfolds the calls of the monad in the goal. *)
Ltac run :=
  repeat (progress (unfold data_ReplaceOrInsert, data_Delete, proto_Unmarshal,
                      klog, spawn, bind, ret, get, modify, world, panic, ctx_Err;
                    cbn beta iota)).

(** Splits a hypothesis [bind m k epc w = Ret ...] into the two runs. *)
Ltac unbind H :=
  let a := fresh "a" in
  let epc1 := fresh "epc" in
  let w1 := fresh "w" in
  let H1 := fresh "Hm" in
  apply bind_Ret in H; destruct H as [a [epc1 [w1 [H1 H]]]].

Tactic Notation "unbinding" hyp(H) "as" ident(a) ident(epc1) ident(w1) ident(H1) :=
  apply bind_Ret in H; destruct H as [a [epc1 [w1 [H1 H]]]].

(** ** Fuel

    The loops of the client are unbounded; the fuel of the embedding only
    cuts a run short. A run that ends within its fuel ends the same way with
    any more fuel. *)

Section Fuel.
Context {schema : Schema}.
Local Open Scope go_scope.

Lemma settles_refl {A} (x : Outcome A) : settles x x.
Proof. right. reflexivity. Qed.

Lemma settles_bind {A B} (m1 m2 : M A) (k1 k2 : A -> M B) epc w :
  settles (m1 epc w) (m2 epc w) ->
  (forall a e w', settles (k1 a e w') (k2 a e w')) ->
  settles (bind m1 k1 epc w) (bind m2 k2 epc w).
Proof.
  unfold settles, bind. intros [H|H] K.
  - left. rewrite H. reflexivity.
  - rewrite H. destruct (m1 epc w) as [a e w'| | | |a e w']; auto.
    destruct (K a e w') as [E|E]; [left|right]; rewrite E; reflexivity.
Qed.

Ltac settle IH :=
  repeat first
    [ apply settles_refl
    | apply IH
    | apply settles_bind; [|intros]
    | match goal with
      | |- settles (match ?x with _ => _ end _ _) _ => destruct x
      | |- settles ((if ?x then _ else _) _ _) _ => destruct x
      | |- settles ((let (_, _) := ?x in _) _ _) _ => destruct x
      end ].

Lemma dial_settles (n : nat) :
  forall m epc w, n <= m -> settles (dial n epc w) (dial m epc w).
Proof.
  induction n as [|n IH]; intros m epc w L; [left; reflexivity|].
  destruct m as [|m]; [lia|]. assert (L' : n <= m) by lia.
  cbn [dial]. settle (fun e w => IH m e w L').
Qed.

Lemma apply_settles (n : nat) :
  forall m epc w, n <= m -> settles (apply n epc w) (apply m epc w).
Proof.
  induction n as [|n IH]; intros m epc w L; [left; reflexivity|].
  destruct m as [|m]; [lia|]. assert (L' : n <= m) by lia.
  cbn [apply]. settle (fun e w => IH m e w L').
Qed.

Lemma postError_settles (n m : nat) epc w :
  n <= m -> settles (postError n epc w) (postError m epc w).
Proof.
  intros L. unfold postError. settle (fun e w => dial_settles e w L).
Qed.

Lemma retry_settles (n : nat) :
  forall m req epc w, n <= m -> settles (retry n req epc w) (retry m req epc w).
Proof.
  induction n as [|n IH]; intros m req epc w L; [left; reflexivity|].
  destruct m as [|m]; [lia|]. assert (L' : n <= m) by lia.
  cbn [retry].
  settle (fun e w => IH m req e w L');
    first [ apply (apply_settles _ _ L') | apply (dial_settles _ _ L') ].
Qed.

Lemma NextCh_settles (n m : nat) req epc w :
  n <= m -> settles (NextCh n req epc w) (NextCh m req epc w).
Proof.
  intros L. unfold NextCh.
  settle (fun e w => retry_settles req e w L); apply (dial_settles _ _ L).
Qed.

(** With more fuel [NextCh] and [Next] end as they ended. *)
Lemma more_fuel_same_end (n m : nat) (req : localnetv1.WatchReq) epc w :
  n <= m ->
  (NextCh n req epc w <> OutOfFuel -> NextCh m req epc w = NextCh n req epc w)
  /\ (Next n req epc w <> OutOfFuel -> Next m req epc w = Next n req epc w).
Proof.
  intros L. split; intros H.
  - destruct (NextCh_settles req epc w L) as [E|E]; [contradiction|exact E].
  - assert (S : settles (Next n req epc w) (Next m req epc w)).
    { unfold Next. apply settles_bind; [apply NextCh_settles, L|].
      intros a e w'. apply settles_refl. }
    destruct S as [E|E]; [contradiction|exact E].
Qed.
End Fuel.

(** ** One operation of the diff *)

Section Applying.
Context {schema : Schema}.
Local Open Scope go_scope.

Lemma set_data_same (epc : EndpointsClient) :
  set_data (data epc) epc = epc.
Proof. destruct epc; reflexivity. Qed.

(** A turn of the [apply] loop that receives [op]: [applyOp] runs in the
    world where [Recv] has returned, and the loop goes on exactly when it
    says [ContinueApply]. *)
Lemma apply_turn (fuel : nat) (op : localnetv1.OpItem) epc w s d rest :
  watch epc = Some s -> recvs w = (d, Some op) :: rest ->
  apply (S fuel) epc w =
    match applyOp op epc (happen (EvRecv s (Some op)) (pass d (set_recvs rest w))) with
    | Ret ContinueApply epc' w' => apply fuel epc' w'
    | Ret BreakApply epc' w' => Ret Synced epc' w'
    | Panic epc' w' => Panic epc' w'
    | Blocked epc' w' => Blocked epc' w'
    | OutOfFuel => OutOfFuel
    | Dying ContinueApply epc' w' => dying (apply fuel epc' w')
    | Dying BreakApply epc' w' => Dying Synced epc' w'
    end.
Proof.
  intros Hw Hr. simpl. unfold bind at 1. unfold Recv. rewrite Hw, Hr.
  unfold bind.
  destruct (applyOp _ _ _) as [[|] ? ?| | | |[|] ? ?]; reflexivity.
Qed.

(** What [applyOp] does to the store is [effect]. *)
Lemma applyOp_effect (op : localnetv1.OpItem) epc w t epc' w' :
  applyOp op epc w = Ret t epc' w' ->
  data epc' = option_map (effect op) (data epc)
  /\ ErrorDelay epc' = ErrorDelay epc /\ conn epc' = conn epc
  /\ watch epc' = watch epc.
Proof.
  unfold applyOp, effect.
  destruct (localnetv1.Op op) as [[set|ref|]|].
  - destruct (localnetv1.Ref_ set) as [ref|]; [|discriminate].
    destruct (empty_for (localnetv1.Ref_Set ref)) as [v|].
    + run.
      destruct (Unmarshal (localnetv1.Bytes set) v) as [m|].
      * destruct (data epc) as [d|] eqn:Hd; [|intros H; discriminate H].
        intros H; inversion H; subst. simpl. auto.
      * intros H; inversion H; subst. destruct (data epc'); auto.
    + unfold ret. intros H; inversion H; subst. destruct (data epc'); auto.
  - run.
    destruct (data epc) as [d|] eqn:Hd; [|intros H; discriminate H].
    intros H; inversion H; subst. simpl. auto.
  - unfold ret. intros H; inversion H; subst. destruct (data epc'); auto.
  - unfold ret. intros H; inversion H; subst. destruct (data epc'); auto.
Qed.

(** C10. An operation whose oneof is none of [Set], [Delete] and [Sync]
    (the field is nil) falls through the switch: [applyOp] returns at once
    with the client and the world as they were, without a panic, and tells
    the loop to go on; the loop then receives the next operation. *)
Theorem unknown_operation_is_skipped (op : localnetv1.OpItem) epc w :
  localnetv1.Op op = None ->
  applyOp op epc w = Ret ContinueApply epc w
  /\ forall fuel s d rest,
       watch epc = Some s -> recvs w = (d, Some op) :: rest ->
       apply (S fuel) epc w =
         apply fuel epc (happen (EvRecv s (Some op)) (pass d (set_recvs rest w))).
Proof.
  intros Hop.
  assert (E : forall w0, applyOp op epc w0 = Ret ContinueApply epc w0).
  { intros w0. unfold applyOp. rewrite Hop. reflexivity. }
  split; [apply E|].
  intros fuel s d rest Hw Hr.
  rewrite (apply_turn fuel Hw Hr), E. reflexivity.
Qed.

(** C6. [Sync] changes neither the client (the store is one of its fields)
    nor the world, it only leaves the loop; and a round that is a [Sync]
    alone over an empty store gives a goroutine that sends nothing and
    closes the channel, so [Next] returns the empty list. *)
Theorem sync_leaves_the_store (op : localnetv1.OpItem) epc w :
  localnetv1.Op op = Some OpItem_Sync ->
  applyOp op epc w = Ret BreakApply epc w
  /\ forall fuel req s d1 ss d2 rest,
       watch epc = Some s -> data epc = Some (btree.New 2) ->
       canceled w = false ->
       sends w = (d1, true) :: ss -> recvs w = (d2, Some op) :: rest ->
       exists w',
         NextCh (2 + fuel) req epc w = Ret (FedBy (Closes []), false) epc w'
         /\ Next (2 + fuel) req epc w = Ret ([], false) epc w'.
Proof.
  intros Hop.
  assert (E : forall w0, applyOp op epc w0 = Ret BreakApply epc w0).
  { intros w0. unfold applyOp. rewrite Hop. reflexivity. }
  split; [apply E|].
  intros fuel req s d1 ss d2 rest Hw Hd Hc Hs Hr.
  eexists.
  assert (N : NextCh (2 + fuel) req epc w = Ret (FedBy (Closes []), false) epc
                (happen (EvRecv s (Some op)) (pass d2 (set_recvs rest
                   (happen (EvSend s req true) (pass d1 (set_sends ss w))))))).
  { unfold NextCh. unfold bind at 1. unfold get. unfold bind at 1. rewrite Hw.
    unfold ret at 1. cbn [plus retry]. unfold bind at 1. unfold ctx_Err.
    rewrite Hc. unfold bind at 1. unfold Send. rewrite Hw, Hs.
    unfold bind at 1.
    rewrite (apply_turn (op:=op) (s:=s) (d:=d2) (rest:=rest) fuel Hw) by exact Hr.
    rewrite E. run. rewrite Hd. reflexivity. }
  split; [exact N|].
  unfold Next. unfold bind at 1. rewrite N. run. rewrite Hd.
  reflexivity.
Qed.

(** C7. A [Set] of a set the client does not know is dropped before
    [proto.Unmarshal] is called: nothing is added to the trace and the
    client is as it was. A [Set] whose payload does not decode is logged and
    dropped: the client is as it was. A [Set] whose payload decodes puts the
    decoded value in the store at the path of the operation: the entry is
    in the store afterwards, and in a store kept ascending the path then
    holds the decoded value and nothing else, every other path holds what
    it held, and the order stays. In the three cases the loop is told to go
    on. *)
Theorem set_is_decoded_then_stored (set : localnetv1.Value) (ref : localnetv1.Ref)
    (op : localnetv1.OpItem) epc w :
  localnetv1.Op op = Some (OpItem_Set set) ->
  localnetv1.Ref_ set = Some ref ->
  (empty_for (localnetv1.Ref_Set ref) = None ->
     applyOp op epc w = Ret ContinueApply epc w)
  /\ (forall v,
        empty_for (localnetv1.Ref_Set ref) = Some v ->
        Unmarshal (localnetv1.Bytes set) v = None ->
        applyOp op epc w =
          Ret ContinueApply epc
              (happen (EvLog "failed to parse value: ")
                 (happen (EvUnmarshal (localnetv1.Bytes set) v false) w)))
  /\ (forall v m t,
        empty_for (localnetv1.Ref_Set ref) = Some v ->
        Unmarshal (localnetv1.Bytes set) v = Some m ->
        data epc = Some t ->
        applyOp op epc w =
          Ret ContinueApply
              (set_data (Some (btree.ReplaceOrInsert Less
                                 {| Path := localnetv1.Path ref; Value := Some m |} t))
                        epc)
              (happen (EvUnmarshal (localnetv1.Bytes set) v true) w)
        /\ exists epc1 w1 t1,
             applyOp op epc w = Ret ContinueApply epc1 w1
             /\ data epc1 = Some t1
             /\ In {| Path := localnetv1.Path ref; Value := Some m |} t1
             /\ (ascending t ->
                 ascending t1
                 /\ lookup (localnetv1.Path ref) t1
                    = Some {| Path := localnetv1.Path ref; Value := Some m |}
                 /\ (forall i, In i t1 -> Path i = localnetv1.Path ref ->
                                Value i = Some m)
                 /\ (forall p, p <> localnetv1.Path ref ->
                                lookup p t1 = lookup p t))).
Proof.
  intros Hop Href.
  split; [|split].
  - unfold applyOp. rewrite Hop, Href. intros ->. reflexivity.
  - unfold applyOp. rewrite Hop, Href. intros v -> Hu. run. rewrite Hu. reflexivity.
  - intros v m t Hv Hu Hd.
    assert (E : applyOp op epc w =
                Ret ContinueApply
                  (set_data (Some (btree.ReplaceOrInsert Less
                                     {| Path := localnetv1.Path ref; Value := Some m |} t))
                            epc)
                  (happen (EvUnmarshal (localnetv1.Bytes set) v true) w)).
    { unfold applyOp. rewrite Hop, Href, Hv. run. rewrite Hu, Hd. reflexivity. }
    split; [exact E|].
    eexists. eexists. eexists. split; [exact E|]. split; [reflexivity|].
    split; [apply ReplaceOrInsert_In|].
    intros Ha. split; [apply ascending_ReplaceOrInsert, Ha|].
    split; [|split].
    + rewrite lookup_ReplaceOrInsert by exact Ha. simpl.
      rewrite String.eqb_refl. reflexivity.
    + intros i Hi Hp.
      rewrite (ReplaceOrInsert_only (item:={| Path := localnetv1.Path ref;
                                              Value := Some m |}) Ha Hi Hp).
      reflexivity.
    + intros p Hp. rewrite lookup_ReplaceOrInsert by exact Ha. simpl.
      destruct (String.eqb (localnetv1.Path ref) p) eqn:Ep; auto.
      apply String.eqb_eq in Ep. congruence.
Qed.

(** C8. A [Set] applied a second time, right after the first, returns the
    same client: the store after two is the store after one. The store stays
    in strictly ascending order, so no path occurs twice; and when the path
    was already in the store, the store keeps the same paths in the same
    places. A [Set] whose payload decodes leaves the decoded value at its
    path and every other path as it was; on a path that was in the store
    the new entry takes the place of the old one, every other entry stays
    where it was and the store has as many entries as before; on a path
    that was not, the store has one entry more. *)
Theorem set_twice_is_set_once (set : localnetv1.Value) (op : localnetv1.OpItem)
    epc w (t : list kv) turn epc1 w1 :
  localnetv1.Op op = Some (OpItem_Set set) ->
  data epc = Some t -> ascending t ->
  applyOp op epc w = Ret turn epc1 w1 ->
  (exists w2, applyOp op epc1 w1 = Ret turn epc1 w2)
  /\ exists t1,
       data epc1 = Some t1 /\ t1 = effect op t
       /\ ascending t1 /\ NoDup (map Path t1)
       /\ (forall ref, localnetv1.Ref_ set = Some ref ->
             In (localnetv1.Path ref) (map Path t) -> map Path t1 = map Path t)
       /\ (forall ref v m,
             localnetv1.Ref_ set = Some ref ->
             empty_for (localnetv1.Ref_Set ref) = Some v ->
             Unmarshal (localnetv1.Bytes set) v = Some m ->
             lookup (localnetv1.Path ref) t1
             = Some {| Path := localnetv1.Path ref; Value := Some m |}
             /\ (forall p, p <> localnetv1.Path ref -> lookup p t1 = lookup p t)
             /\ (In (localnetv1.Path ref) (map Path t) ->
                 t1 = map (fun i => if String.eqb (Path i) (localnetv1.Path ref)
                                    then {| Path := localnetv1.Path ref;
                                            Value := Some m |}
                                    else i) t
                 /\ List.length t1 = List.length t)
             /\ (~ In (localnetv1.Path ref) (map Path t) ->
                 List.length t1 = S (List.length t))).
Proof.
  intros Hop Hd Ht H.
  pose proof (applyOp_effect H) as [He _]. rewrite Hd in He. simpl in He.
  assert (Hasc : ascending (effect op t)).
  { unfold effect. rewrite Hop.
    destruct (localnetv1.Ref_ set) as [ref|]; auto.
    destruct (empty_for _) as [v|]; auto.
    destruct (Unmarshal _ v) as [m|]; auto.
    apply ascending_ReplaceOrInsert; auto. }
  split.
  - revert H. unfold applyOp. rewrite Hop.
    destruct (localnetv1.Ref_ set) as [ref|]; [|discriminate].
    destruct (empty_for (localnetv1.Ref_Set ref)) as [v|].
    + run.
      destruct (Unmarshal (localnetv1.Bytes set) v) as [m|].
      * rewrite Hd. intros H; inversion H; subst. cbn [data set_data].
        eexists. rewrite ReplaceOrInsert_twice.
        unfold set_data. reflexivity.
      * intros H; inversion H; subst. eexists. reflexivity.
    + unfold ret. intros H; inversion H; subst. eexists. reflexivity.
  - exists (effect op t). repeat split; auto.
    + apply ascending_NoDup; auto.
    + intros ref Href Hin. unfold effect. rewrite Hop, Href.
      destruct (empty_for _) as [v|]; auto.
      destruct (Unmarshal _ v) as [m|]; auto.
      apply ReplaceOrInsert_in_place; auto.
    + unfold effect. rewrite Hop, H0, H1, H2.
      rewrite lookup_ReplaceOrInsert by exact Ht. simpl.
      rewrite String.eqb_refl. reflexivity.
    + intros p Hp. unfold effect. rewrite Hop, H0, H1, H2.
      rewrite lookup_ReplaceOrInsert by exact Ht. simpl.
      destruct (String.eqb (localnetv1.Path ref) p) eqn:Ep; auto.
      apply String.eqb_eq in Ep. congruence.
    + unfold effect. rewrite Hop, H0, H1, H2.
      apply (ReplaceOrInsert_replaces
               (item:={| Path := localnetv1.Path ref; Value := Some m |})); auto.
    + unfold effect. rewrite Hop, H0, H1, H2.
      rewrite (ReplaceOrInsert_replaces
                 (item:={| Path := localnetv1.Path ref; Value := Some m |})); auto.
      apply length_map.
    + intros Hin. unfold effect. rewrite Hop, H0, H1, H2.
      apply (ReplaceOrInsert_inserts
               (item:={| Path := localnetv1.Path ref; Value := Some m |})); auto.
Qed.

(** C9. A [Delete] of a path that is not in the store returns the client
    and the world as they were, without a panic, and the loop goes on. *)
Theorem delete_of_absent_path (ref : localnetv1.Ref) (op : localnetv1.OpItem)
    epc w (t : list kv) :
  localnetv1.Op op = Some (OpItem_Delete ref) ->
  data epc = Some t ->
  ~ In (localnetv1.Path ref) (map Path t) ->
  applyOp op epc w = Ret ContinueApply epc w
  /\ btree.Delete Less {| Path := localnetv1.Path ref; Value := None |} t = t.
Proof.
  intros Hop Hd Hin.
  assert (E : btree.Delete Less {| Path := localnetv1.Path ref; Value := None |} t = t).
  { apply Delete_absent. exact Hin. }
  split; [|exact E].
  unfold applyOp. rewrite Hop. run. rewrite Hd. cbn beta iota.
  rewrite E. destruct epc; simpl in *; subst. reflexivity.
Qed.
End Applying.

(** ** Grouping *)

Lemma flat_map_agree {A B : Type} (f g : A -> list B) (l : list A) :
  (forall a, In a l -> f a = g a) -> flat_map f l = flat_map g l.
Proof.
  induction l as [|a l IH]; intros H; [reflexivity|].
  simpl. rewrite (H a (or_introl eq_refl)), IH; auto.
  intros b Hb. apply H. right. exact Hb.
Qed.

Section Grouping.
Context {schema : Schema}.

(** Once [seps] points to an aggregate the traversal cannot panic: it ends
    with the aggregates of the services it met, the first of them completed
    with the endpoints at the head of the list. *)
Lemma Ascend_from_service (l : list kv) (s : ServiceEndpoints)
    (out : list ServiceEndpoints) :
  exists g,
    btree.Ascend l visit {| seps := Some s; results := out |} = btree.Walked g
    /\ flush g =
         out ++ {| Service := Service s; Endpoints := Endpoints s ++ leading l |}
             :: groups l.
Proof.
  revert s out. induction l as [|j l IH]; intros s out.
  - eexists. split; [reflexivity|]. unfold flush. simpl.
    rewrite app_nil_r. destruct s; reflexivity.
  - simpl. unfold visit at 1. destruct (Value j) as [[v|v]|]; cbn [seps results].
    + destruct (IH {| Service := v; Endpoints := [] |}
                   (flush {| seps := Some s; results := out |})) as [g [Hg Hf]].
      exists g. split; [exact Hg|]. rewrite Hf. unfold flush. simpl.
      rewrite app_nil_r, <- app_assoc. destruct s; reflexivity.
    + destruct (IH {| Service := Service s; Endpoints := Endpoints s ++ [v] |} out)
        as [g [Hg Hf]].
      exists g. split; [exact Hg|]. rewrite Hf. simpl.
      rewrite <- app_assoc. reflexivity.
    + apply IH.
Qed.

(** The goroutine panics exactly when an endpoint comes before every
    service, and then before it has sent anything; otherwise it sends
    [groups] and closes. *)
Lemma grouper_groups (t : list kv) :
  grouper t = if orphan_first t then Dies [] else Closes (groups t).
Proof.
  unfold grouper. induction t as [|i t IH]; [reflexivity|].
  simpl. unfold visit at 1. destruct (Value i) as [[v|v]|]; cbn [seps results].
  - destruct (Ascend_from_service t {| Service := v; Endpoints := [] |} [])
      as [g [Hg Hf]].
    unfold flush at 1. simpl. rewrite Hg, Hf. reflexivity.
  - reflexivity.
  - exact IH.
Qed.

Lemma next_service_path_In (l : list kv) (p h : string) :
  next_service_path l p = Some h -> exists x, In x l /\ Path x = h.
Proof.
  unfold next_service_path.
  destruct (filter _ l) as [|x r] eqn:E; [discriminate|].
  intros H; inversion H; subst. exists x. split; auto.
  assert (Hin : In x (x :: r)) by (left; reflexivity).
  rewrite <- E in Hin. apply filter_In in Hin. tauto.
Qed.

Lemma endpoints_between_none_below (l : list kv) (lo h : string) (j : kv) :
  Path j = h -> Forall (fun y => Less j y = true) l ->
  endpoints_between l lo (Some h) = [].
Proof.
  intros Hj Hl. unfold endpoints_between.
  induction l as [|x l IH]; [reflexivity|].
  inversion Hl; subst. simpl. rewrite IH by assumption.
  destruct (Value x) as [[v|v]|]; auto.
  unfold strictly_between. unfold Less in H1. rewrite (ltb_asym H1).
  rewrite andb_false_r. reflexivity.
Qed.

(** In an ascending list, the endpoints strictly between a path below the
    whole list and the next service are the endpoints at its head. *)
Lemma endpoints_between_leading (l : list kv) (i : kv) :
  ascending l -> Forall (fun y => Less i y = true) l ->
  endpoints_between l (Path i) (next_service_path l (Path i)) = leading l.
Proof.
  induction l as [|j l IH]; intros Ha Hi; [reflexivity|].
  apply ascending_cons in Ha. destruct Ha as [Ha Hj].
  inversion Hi; subst. unfold Less in H1.
  unfold endpoints_between, next_service_path in *. simpl.
  destruct (Value j) as [[v|v]|] eqn:Ev.
  - rewrite H1. simpl.
    apply (endpoints_between_none_below (Path i) (eq_refl (Path j)) Hj).
  - rewrite IH by assumption. f_equal.
    unfold strictly_between. rewrite H1. simpl.
    destruct (filter _ l) as [|x r] eqn:E; [reflexivity|].
    assert (Hin : In x (x :: r)) by (left; reflexivity).
    rewrite <- E in Hin. apply filter_In in Hin. destruct Hin as [Hin _].
    rewrite Forall_forall in Hj. specialize (Hj x Hin). unfold Less in Hj.
    rewrite Hj. reflexivity.
  - apply IH; assumption.
Qed.

Lemma spec_aggregates_cons (i : kv) (l : list kv) :
  ascending (i :: l) ->
  spec_aggregates (i :: l) =
    match Value i with
    | Some (Msg_Service s) => [{| Service := s; Endpoints := leading l |}]
    | _ => []
    end ++ spec_aggregates l.
Proof.
  intros Ha. apply ascending_cons in Ha. destruct Ha as [Ha Hi].
  unfold spec_aggregates. cbn [flat_map]. f_equal.
  - destruct (Value i) as [[v|v]|] eqn:Ev; auto.
    f_equal. f_equal.
    rewrite <- (endpoints_between_leading Ha Hi).
    unfold endpoints_between, next_service_path, strictly_between. simpl.
    rewrite Ev, ltb_irrefl. reflexivity.
  - apply flat_map_agree. intros j Hj.
    destruct (Value j) as [[v|v]|]; auto.
    rewrite Forall_forall in Hi. specialize (Hi j Hj). unfold Less in Hi.
    f_equal. f_equal.
    unfold endpoints_between, next_service_path, strictly_between. simpl.
    rewrite (ltb_asym Hi). simpl.
    destruct (Value i) as [[u|u]|]; reflexivity.
Qed.

(** On an ascending store, [groups] is the list of aggregates in the words
    of the spec. *)
Lemma groups_spec (t : list kv) : ascending t -> groups t = spec_aggregates t.
Proof.
  induction t as [|i t IH]; intros Ha; [reflexivity|].
  rewrite (spec_aggregates_cons Ha).
  apply ascending_cons in Ha. destruct Ha as [Ha _].
  simpl. rewrite (IH Ha). destruct (Value i) as [[v|v]|]; reflexivity.
Qed.

(** Grouping, on every store the diff can build: unless an endpoint comes
    before every service, the goroutine sends one aggregate per service, in
    ascending order of the paths of the services, each with the endpoints
    strictly between its service and the next, in ascending order of their
    paths, and closes the channel. *)
Lemma grouper_spec (t : list kv) :
  ascending t -> orphan_first t = false ->
  grouper t = Closes (spec_aggregates t).
Proof.
  intros Ha Ho. rewrite grouper_groups, Ho, (groups_spec Ha). reflexivity.
Qed.
End Grouping.

(** ** A round without transport errors *)

Section Round.
Context {schema : Schema}.
Local Open Scope go_scope.

Lemma applyOp_plain (op : localnetv1.OpItem) epc w (t : list kv) :
  plain op = true -> data epc = Some t ->
  exists w',
    applyOp op epc w = Ret ContinueApply (set_data (Some (effect op t)) epc) w'
    /\ recvs w' = recvs w /\ sends w' = sends w /\ dials w' = dials w
    /\ watches w' = watches w /\ now w' = now w /\ cancelAt w' = cancelAt w.
Proof.
  unfold plain, applyOp, effect. intros Hp Hd.
  assert (Same : set_data (Some t) epc = epc).
  { destruct epc; simpl in *; subst; reflexivity. }
  destruct (localnetv1.Op op) as [[set|ref|]|]; try discriminate.
  - destruct (localnetv1.Ref_ set) as [ref|]; [|discriminate].
    destruct (empty_for (localnetv1.Ref_Set ref)) as [v|].
    + run. destruct (Unmarshal (localnetv1.Bytes set) v) as [m|].
      * rewrite Hd. eexists. split; [reflexivity|]. simpl. tauto.
      * rewrite Same. eexists. split; [reflexivity|]. simpl. tauto.
    + rewrite Same. eexists. split; [reflexivity|]. simpl. tauto.
  - run. rewrite Hd. eexists. split; [reflexivity|]. simpl. tauto.
  - rewrite Same. eexists. split; [reflexivity|]. simpl. tauto.
Qed.

(** The loop takes plain operations one after the other. *)
Lemma apply_plain (rs : list (nat * localnetv1.OpItem)) :
  forall fuel epc w s (t : list kv) tail,
    watch epc = Some s -> data epc = Some t ->
    recvs w = arriving rs ++ tail ->
    Forall (fun r => plain (snd r) = true) rs ->
    exists w',
      apply (List.length rs + fuel) epc w =
        apply fuel (set_data (Some (effects (map snd rs) t)) epc) w'
      /\ recvs w' = tail /\ sends w' = sends w /\ dials w' = dials w
      /\ watches w' = watches w /\ cancelAt w' = cancelAt w.
Proof.
  induction rs as [|[d op] rs IH]; intros fuel epc w s t tail Hw Hd Hr Hp.
  - exists w. simpl in *. split; auto.
    destruct epc; simpl in *; subst; reflexivity.
  - inversion Hp; subst. simpl in H1.
    cbn [List.length plus]. simpl in Hr.
    rewrite (apply_turn (List.length rs + fuel) Hw Hr).
    destruct (applyOp_plain (happen (EvRecv s (Some op))
                               (pass d (set_recvs (arriving rs ++ tail) w)))
                            H1 Hd) as [w1 [Ha [Hr1 [Hs1 [Hd1 [Hw1 [_ Hc1]]]]]]].
    rewrite Ha.
    destruct (IH fuel (set_data (Some (effect op t)) epc) w1 s (effect op t) tail)
      as [w' [Hw' [Ht' [Hs' [Hd' [Hws' Hc']]]]]]; auto.
    exists w'. split; [rewrite Hw'; reflexivity|].
    split; [exact Ht'|].
    split; [rewrite Hs', Hs1; reflexivity|].
    split; [rewrite Hd', Hd1; reflexivity|].
    split; [rewrite Hws', Hw1; reflexivity|].
    rewrite Hc', Hc1. reflexivity.
Qed.

Lemma NextCh_watching (fuel : nat) (req : localnetv1.WatchReq) epc w s :
  watch epc = Some s -> NextCh fuel req epc w = retry fuel req epc w.
Proof. intros Hw. unfold NextCh. run. rewrite Hw. reflexivity. Qed.

(** The start of a round whose send succeeds. *)
Lemma retry_sends (fuel : nat) (req : localnetv1.WatchReq) epc w s d ss :
  watch epc = Some s -> canceled w = false -> sends w = (d, true) :: ss ->
  retry (S fuel) req epc w =
    match apply fuel epc (happen (EvSend s req true) (pass d (set_sends ss w))) with
    | Ret Synced epc' w' => spawn epc' w'
    | Ret RecvFailed epc' w' => (postError fuel ;; retry fuel req) epc' w'
    | Panic epc' w' => Panic epc' w'
    | Blocked epc' w' => Blocked epc' w'
    | OutOfFuel => OutOfFuel
    | Dying Synced epc' w' => dying (spawn epc' w')
    | Dying RecvFailed epc' w' =>
        dying ((postError fuel ;; retry fuel req) epc' w')
    end.
Proof.
  intros Hw Hc Hs. cbn [retry]. unfold bind at 1. unfold ctx_Err. rewrite Hc.
  unfold bind at 1. unfold Send. rewrite Hw, Hs. unfold bind at 1.
  destruct (apply fuel epc _) as [[|] ? ?| | | |[|] ? ?]; reflexivity.
Qed.

(** A round on an open watch, with no transport error and no cancellation
    before its send: the request is sent, the operations up to the [Sync]
    are applied in the order received, and the goroutine groups the store
    they leave. *)
Lemma round_without_errors (rs : list (nat * localnetv1.OpItem)) :
  forall fuel req epc w s (t : list kv) d1 ss dz op rest,
    watch epc = Some s -> data epc = Some t ->
    canceled w = false ->
    sends w = (d1, true) :: ss ->
    recvs w = arriving rs ++ (dz, Some op) :: rest ->
    localnetv1.Op op = Some OpItem_Sync ->
    Forall (fun r => plain (snd r) = true) rs ->
    let t' := effects (map snd rs) t in
    exists w',
      NextCh (2 + List.length rs + fuel) req epc w =
        Ret (FedBy (grouper t'), false) (set_data (Some t') epc) w'
      /\ Next (2 + List.length rs + fuel) req epc w =
           match grouper t' with
           | Closes sent => Ret (sent, false) (set_data (Some t') epc) w'
           | Dies sent => Dying (sent, false) (set_data (Some t') epc) w'
           end.
Proof.
  intros fuel req epc w s t d1 ss dz op rest Hw Hd Hc Hs Hr Hop Hp t'.
  set (w1 := happen (EvSend s req true) (pass d1 (set_sends ss w))).
  destruct (apply_plain (S fuel) (epc:=epc) (w:=w1) (s:=s) (t:=t)
              (tail:=(dz, Some op) :: rest) Hw Hd Hr Hp) as [w2 [Ha [Ht _]]].
  fold t' in Ha.
  assert (Hw2 : watch (set_data (Some t') epc) = Some s) by exact Hw.
  rewrite (apply_turn fuel Hw2 Ht) in Ha.
  unfold applyOp in Ha. rewrite Hop in Ha. unfold ret in Ha.
  eexists.
  assert (N : NextCh (2 + List.length rs + fuel) req epc w =
              Ret (FedBy (grouper t'), false) (set_data (Some t') epc)
                  (happen (EvRecv s (Some op)) (pass dz (set_recvs rest w2)))).
  { rewrite NextCh_watching with (s:=s) by exact Hw.
    replace (2 + List.length rs + fuel) with (S (List.length rs + S fuel)) by lia.
    rewrite retry_sends with (s:=s) (d:=d1) (ss:=ss) by assumption. fold w1.
    rewrite Ha. run. reflexivity. }
  split; [exact N|].
  unfold Next. unfold bind at 1. rewrite N. run. cbn [data set_data].
  unfold range. destruct (grouper t'); reflexivity.
Qed.

(** After an error, with the context not canceled and a server that
    answers, [postError] sleeps once, dials once and leaves an open watch on
    an empty store. *)
Lemma postError_reconnects (fuel : nat) epc w s dd ds dw ws :
  watch epc = Some s -> cancelAt w = None ->
  dials w = (dd, DialOk) :: ds -> watches w = (dw, true) :: ws ->
  exists w',
    postError (S fuel) epc w =
      Ret tt {| ErrorDelay := ErrorDelay epc; conn := Some (serial w);
                watch := Some (serial w); data := Some (btree.New 2) |} w'
    /\ sends w' = sends w /\ recvs w' = recvs w /\ cancelAt w' = None
    /\ now w' = now w + ErrorDelay epc + dd + dw.
Proof.
  intros Hw Hc Hd Hws.
  unfold postError. cbn [dial]. unfold Dial, DialContext, Watch, errorSleep. run.
  rewrite Hw. unfold canceled.
  destruct epc as [delay [c|] ws0 dt]; cbn [conn watch set_conn set_watch ErrorDelay];
    run;
    repeat (progress (cbn [cancelAt dials watches happen pass next_serial
                           set_dials set_watches];
                      rewrite ?Hc, ?Hd, ?Hws; cbn beta iota));
    (eexists; split; [reflexivity|]); simpl; repeat split; auto; lia.
Qed.

(** A round broken once by a failed receive, with a server that answers the
    dial: with fuel enough for the operations, [NextCh] returns, and the
    store and the aggregates are those of the operations received after the
    reconnection, applied to the empty store. *)
Lemma reconnect_round_returns (rs1 rs2 : list (nat * localnetv1.OpItem))
    fuel req epc w s (t : list kv) d1 d2 ss df dd ds dw ws dz sync rest :
  watch epc = Some s -> data epc = Some t -> cancelAt w = None ->
  sends w = (d1, true) :: (d2, true) :: ss ->
  recvs w = arriving rs1 ++ (df, None) :: arriving rs2 ++ (dz, Some sync) :: rest ->
  dials w = (dd, DialOk) :: ds -> watches w = (dw, true) :: ws ->
  localnetv1.Op sync = Some OpItem_Sync ->
  Forall (fun r => plain (snd r) = true) rs1 ->
  Forall (fun r => plain (snd r) = true) rs2 ->
  exists epc' w',
    NextCh (3 + List.length rs1 + List.length rs2 + fuel) req epc w =
      Ret (FedBy (grouper (effects (map snd rs2) (btree.New 2))), false) epc' w'
    /\ data epc' = Some (effects (map snd rs2) (btree.New 2)).
Proof.
  intros Hw Hd Hc Hs Hr Hdl Hws Hsync Hp1 Hp2.
  assert (Hnc : forall w0 : World, cancelAt w0 = None -> canceled w0 = false).
  { intros w0 E. unfold canceled. rewrite E. reflexivity. }
  rewrite NextCh_watching with (s:=s) by exact Hw.
  replace (3 + List.length rs1 + List.length rs2 + fuel)
    with (S (List.length rs1 + S (S (List.length rs2 + fuel)))) by lia.
  rewrite retry_sends with (s:=s) (d:=d1) (ss:=(d2, true) :: ss); auto.
  set (w1 := happen (EvSend s req true) (pass d1 (set_sends ((d2, true) :: ss) w))).
  destruct (apply_plain (S (S (List.length rs2 + fuel)))
              (epc:=epc) (w:=w1) (s:=s) (t:=t)
              (tail:=(df, None) :: arriving rs2 ++ (dz, Some sync) :: rest)
              Hw Hd Hr Hp1) as [w2 [Ha [Hr2 [Hs2 [Hd2 [Hws2 Hc2]]]]]].
  rewrite Ha. clear Ha.
  set (epc2 := set_data (Some (effects (map snd rs1) t)) epc).
  assert (Hw2 : watch epc2 = Some s) by exact Hw.
  replace (List.length rs1 + S (S (List.length rs2 + fuel)))
    with (S (S (List.length rs2 + (List.length rs1 + fuel)))) by lia.
  cbn [apply]. unfold bind at 1. unfold Recv. rewrite Hw2, Hr2.
  unfold bind at 1. unfold klog, world. unfold bind at 1. unfold ret.
  set (w3 := happen (EvLog "watch recv failed: ")
               (happen (EvRecv s None)
                  (pass df (set_recvs (arriving rs2 ++ (dz, Some sync) :: rest) w2)))).
  assert (Hc3 : cancelAt w3 = None).
  { unfold w3. simpl. rewrite Hc2. exact Hc. }
  assert (Hd3 : dials w3 = (dd, DialOk) :: ds).
  { unfold w3. simpl. rewrite Hd2. exact Hdl. }
  assert (Hws3 : watches w3 = (dw, true) :: ws).
  { unfold w3. simpl. rewrite Hws2. exact Hws. }
  destruct (postError_reconnects (S (List.length rs2 + (List.length rs1 + fuel)))
              Hw2 Hc3 Hd3 Hws3) as [w4 [Hpe [Hs4 [Hr4 [Hc4 _]]]]].
  rewrite Hpe. clear Hpe.
  set (epc4 := {| ErrorDelay := ErrorDelay epc2; conn := Some (serial w3);
                  watch := Some (serial w3); data := Some (btree.New 2) |}).
  assert (Hs4' : sends w4 = (d2, true) :: ss).
  { rewrite Hs4. unfold w3. simpl. rewrite Hs2. reflexivity. }
  assert (Hr4' : recvs w4 = arriving rs2 ++ (dz, Some sync) :: rest).
  { rewrite Hr4. reflexivity. }
  destruct (round_without_errors (rs:=rs2) (List.length rs1 + fuel) req
              (epc:=epc4) (w:=w4) (s:=serial w3) (t:=btree.New 2)
              eq_refl eq_refl (Hnc _ Hc4) Hs4' Hr4' Hsync Hp2) as [w5 [HN _]].
  rewrite NextCh_watching with (s:=serial w3) in HN by reflexivity.
  cbn [plus] in HN. rewrite HN.
  eexists. eexists. split; reflexivity.
Qed.
End Round.

(** ** Rounds and their aggregates *)

Section Aggregates.
Context {schema : Schema}.

Lemma ascending_effect (op : localnetv1.OpItem) (t : list kv) :
  ascending t -> ascending (effect op t).
Proof.
  intros Ha. unfold effect.
  destruct (localnetv1.Op op) as [[set|ref|]|]; auto.
  - destruct (localnetv1.Ref_ set) as [ref|]; auto.
    destruct (empty_for _) as [v|]; auto.
    destruct (Unmarshal _ v) as [m|]; auto.
    apply ascending_ReplaceOrInsert; auto.
  - apply ascending_Delete; auto.
Qed.

Lemma ascending_effects (ops : list localnetv1.OpItem) (t : list kv) :
  ascending t -> ascending (effects ops t).
Proof.
  revert t. induction ops as [|op ops IH]; intros t Ha; [exact Ha|].
  apply IH, ascending_effect, Ha.
Qed.


(** X1. Grouping, for a whole round without errors. From an ascending store,
    the operations received up to the [Sync] leave an ascending store, and
    unless an endpoint comes before every service in it, [Next] returns the
    aggregates in the words of the spec: one for each service of the store,
    in ascending order of their paths, each with the endpoints whose paths
    lie strictly between the path of its service and the path of the next
    service, in ascending order. *)
Theorem round_aggregates (rs : list (nat * localnetv1.OpItem))
    fuel req epc w s (t : list kv) d1 ss dz op rest :
  watch epc = Some s -> data epc = Some t -> ascending t ->
  canceled w = false ->
  sends w = (d1, true) :: ss ->
  recvs w = arriving rs ++ (dz, Some op) :: rest ->
  localnetv1.Op op = Some OpItem_Sync ->
  Forall (fun r => plain (snd r) = true) rs ->
  orphan_first (effects (map snd rs) t) = false ->
  exists epc' w',
    Next (2 + List.length rs + fuel) req epc w =
      Ret (spec_aggregates (effects (map snd rs) t), false) epc' w'
    /\ data epc' = Some (effects (map snd rs) t)
    /\ ascending (effects (map snd rs) t).
Proof.
  intros Hw Hd Ha Hc Hs Hr Hop Hp Ho.
  destruct (round_without_errors fuel req Hw Hd Hc Hs Hr Hop Hp) as [w' [_ HN]].
  pose proof (ascending_effects (map snd rs) Ha) as Ha'.
  rewrite (grouper_spec Ha' Ho) in HN.
  eexists. exists w'. split; [exact HN|]. split; [reflexivity|exact Ha'].
Qed.

(** C1. An endpoint before every service: the goroutine appends to
    [seps.Endpoints] while [seps] is nil and panics before it has sent
    anything. The round [Set(Endpoint, p, E1)], [Sync] from an empty store
    ends so: [NextCh] returns a channel whose goroutine dies, and [Next],
    which waits on it, is in a process that the panic takes down: it
    returns the empty list, uncanceled, if the process lasts until the loop
    has seen the channel closed by the deferred call. *)
Theorem orphan_endpoint_panics (set : localnetv1.Value) (ref : localnetv1.Ref)
    (e : localnetv1.Endpoint) (op sync : localnetv1.OpItem)
    fuel req epc w s d1 ss d2 d3 rest :
  localnetv1.Op op = Some (OpItem_Set set) ->
  localnetv1.Ref_ set = Some ref ->
  localnetv1.Ref_Set ref = Set_EndpointsSet ->
  localnetv1.Unmarshal_Endpoint (localnetv1.Bytes set) = Some e ->
  localnetv1.Op sync = Some OpItem_Sync ->
  watch epc = Some s -> data epc = Some (btree.New 2) ->
  canceled w = false ->
  sends w = (d1, true) :: ss ->
  recvs w = (d2, Some op) :: (d3, Some sync) :: rest ->
  exists epc' w',
    data epc' = Some [{| Path := localnetv1.Path ref; Value := Some (Msg_Endpoint e) |}]
    /\ NextCh (3 + fuel) req epc w = Ret (FedBy (Dies []), false) epc' w'
    /\ Next (3 + fuel) req epc w = Dying ([], false) epc' w'.
Proof.
  intros Hop Href Hk Hu Hsync Hw Hd Hc Hs Hr.
  assert (Hp : Forall (fun r : nat * localnetv1.OpItem => plain (snd r) = true)
                 [(d2, op)]).
  { constructor; [|constructor]. unfold plain. simpl. rewrite Hop, Href. reflexivity. }
  destruct (round_without_errors (rs:=[(d2, op)]) fuel req Hw Hd Hc Hs Hr Hsync Hp)
    as [w' [HN HX]].
  assert (Ht : effects (map snd [(d2, op)]) (btree.New 2) =
               [{| Path := localnetv1.Path ref; Value := Some (Msg_Endpoint e) |}]).
  { unfold effects, effect. simpl. rewrite Hop, Href, Hk. simpl. rewrite Hu.
    reflexivity. }
  rewrite Ht in HN, HX. simpl in HN, HX.
  eexists. exists w'. split; [|split; [exact HN|exact HX]]. reflexivity.
Qed.

(** C2. A round whose store holds a service after an endpoint with a
    smaller path: the service survives, the spec gives it an aggregate, and
    the goroutine dies before it sends any; the process goes down, and
    [Next] returns the empty list if the process lasts until it does. *)
Theorem service_after_orphan_is_lost (set1 set2 : localnetv1.Value)
    (ref1 ref2 : localnetv1.Ref) (e : localnetv1.Endpoint) (v : localnetv1.Service)
    (op1 op2 sync : localnetv1.OpItem)
    fuel req epc w s d0 ss d1 d2 d3 rest :
  localnetv1.Op op1 = Some (OpItem_Set set1) ->
  localnetv1.Ref_ set1 = Some ref1 ->
  localnetv1.Ref_Set ref1 = Set_EndpointsSet ->
  localnetv1.Unmarshal_Endpoint (localnetv1.Bytes set1) = Some e ->
  localnetv1.Op op2 = Some (OpItem_Set set2) ->
  localnetv1.Ref_ set2 = Some ref2 ->
  localnetv1.Ref_Set ref2 = Set_ServicesSet ->
  localnetv1.Unmarshal_Service (localnetv1.Bytes set2) = Some v ->
  String.ltb (localnetv1.Path ref1) (localnetv1.Path ref2) = true ->
  localnetv1.Op sync = Some OpItem_Sync ->
  watch epc = Some s -> data epc = Some (btree.New 2) ->
  canceled w = false ->
  sends w = (d0, true) :: ss ->
  recvs w = (d1, Some op1) :: (d2, Some op2) :: (d3, Some sync) :: rest ->
  exists t epc' w',
    data epc' = Some t
    /\ spec_aggregates t = [{| Service := v; Endpoints := [] |}]
    /\ NextCh (4 + fuel) req epc w = Ret (FedBy (Dies []), false) epc' w'
    /\ Next (4 + fuel) req epc w = Dying ([], false) epc' w'.
Proof.
  intros Hop1 Href1 Hk1 Hu1 Hop2 Href2 Hk2 Hu2 Hlt Hsync Hw Hd Hc Hs Hr.
  assert (Hp : Forall (fun r : nat * localnetv1.OpItem => plain (snd r) = true)
                 [(d1, op1); (d2, op2)]).
  { repeat constructor; unfold plain; simpl.
    - rewrite Hop1, Href1. reflexivity.
    - rewrite Hop2, Href2. reflexivity. }
  destruct (round_without_errors (rs:=[(d1, op1); (d2, op2)]) fuel req
              Hw Hd Hc Hs Hr Hsync Hp) as [w' [HN HX]].
  assert (Ht : effects (map snd [(d1, op1); (d2, op2)]) (btree.New 2) =
               [{| Path := localnetv1.Path ref1; Value := Some (Msg_Endpoint e) |};
                {| Path := localnetv1.Path ref2; Value := Some (Msg_Service v) |}]).
  { unfold effects, effect. simpl.
    rewrite Hop1, Href1, Hk1, Hop2, Href2, Hk2. simpl. rewrite Hu1, Hu2. simpl.
    unfold Less. simpl. rewrite (ltb_asym Hlt), Hlt. reflexivity. }
  rewrite Ht in HN, HX. simpl in HN, HX.
  eexists. eexists. exists w'.
  split; [|split; [|split; [exact HN|exact HX]]]; [reflexivity|].
  unfold spec_aggregates, endpoints_between, next_service_path, strictly_between.
  simpl. rewrite (ltb_asym Hlt), ltb_irrefl. reflexivity.
Qed.
End Aggregates.

(** ** The channel *)

Section Channel.
Variable A : Type.
Variable capacity : nat.

Local Notation "'Sys'" := (chan.Sys A).
Local Notation "'step'" := (@chan.step A capacity).
Local Notation "'steps'" := (@chan.steps A capacity).

Local Notation "'carried'" := (@chan.carried A).
Local Notation "'orderly'" := (@chan.orderly A).

Lemma step_carried (l : list A) (s s' : Sys) :
  step s s' -> carried l s -> carried l s'.
Proof.
  unfold chan.carried. intros H; inversion H; subst; simpl; intros E; auto;
    rewrite <- E, <- !app_assoc; reflexivity.
Qed.

Lemma step_orderly (s s' : Sys) : step s s' -> orderly s -> orderly s'.
Proof.
  unfold chan.orderly. intros H; inversion H; subst; simpl;
    intros [O1 [O2 O3]]; repeat split; intros; try discriminate; auto;
    try (intuition congruence).
Qed.

Lemma steps_keep (P : Sys -> Prop) :
  (forall s s', step s s' -> P s -> P s') ->
  forall s s', steps s s' -> P s -> P s'.
Proof.
  intros HP s s' H. induction H as [|s s1 s2 H1 _ IH]; auto.
  intros Hs. apply IH. eapply HP; eauto.
Qed.

Lemma start_carried (l : list A) (e : chan.Ending) : carried l (chan.start l e).
Proof. unfold chan.carried. reflexivity. Qed.

Lemma start_orderly (l : list A) (e : chan.Ending) :
  e <> chan.Crashing -> orderly (chan.start l e).
Proof.
  intros He. unfold chan.orderly. simpl.
  split; [discriminate|]. split; [|discriminate].
  intros [E|E]; congruence.
Qed.

(** A [range] loop that has returned has received all that was sent, in
    the order it was sent: when the goroutine closes the channel, and also
    when it panics and the loop returns before the process is down. *)
Lemma range_receives_all (l : list A) (e : chan.Ending) (s : Sys) :
  e <> chan.Crashing ->
  steps (chan.start l e) s ->
  chan.returned s = true -> chan.items s = l.
Proof.
  intros He H Hr.
  pose proof (steps_keep (P:=carried l) (step_carried (l:=l)) H (start_carried l _)) as Hc.
  pose proof (steps_keep step_orderly H (start_orderly l He)) as [H1 [_ H3]].
  destruct (H3 Hr) as [Hb Hcl]. destruct (H1 Hcl) as [Hp _].
  unfold chan.carried in Hc. rewrite Hb, Hp, !app_nil_r in Hc. exact Hc.
Qed.

(** No run gets stuck before the loop has returned or the process is gone:
    the loop and the goroutine never wait for each other for ever. *)
Lemma channel_progress (l : list A) (e : chan.Ending) (s : Sys) :
  0 < capacity ->
  e <> chan.Crashing ->
  steps (chan.start l e) s ->
  chan.returned s = false -> chan.crashed s = false ->
  exists s', step s s'.
Proof.
  intros Hcap He H Hr Hc.
  pose proof (steps_keep step_orderly H (start_orderly l He)) as [_ [H2 _]].
  destruct s as [p en b c i r cr]. simpl in *. subst r cr.
  destruct b as [|x b].
  - destruct p as [|y p].
    + destruct en as [[| |]|].
      * eexists. apply chan.step_close.
      * eexists. apply chan.step_panic.
      * destruct (H2 (or_intror eq_refl)) as [-> _].
        eexists. apply chan.step_crash.
      * destruct (H2 (or_introl eq_refl)) as [-> _]. eexists. apply chan.step_end.
    + eexists. apply chan.step_send. simpl. exact Hcap.
  - eexists. apply chan.step_recv.
Qed.

(** Every step uses up some of the work left: every run is finite. *)
Lemma step_left (s s' : Sys) : step s s' -> chan.left s' < chan.left s.
Proof.
  intros H; inversion H; subst; unfold chan.left; simpl;
    rewrite ?length_app; simpl; try lia.
  all: destruct e as [[| |]|]; try destruct r; lia.
Qed.

Lemma close_never_crashes (l : list A) (s : Sys) :
  steps (chan.start l chan.ThenClose) s -> chan.crashed s = false.
Proof.
  intros H.
  assert (K : chan.crashed s = false
              /\ (chan.ending s = Some chan.ThenClose \/ chan.ending s = None)).
  { refine (steps_keep (P:=fun s => chan.crashed s = false
                                    /\ (chan.ending s = Some chan.ThenClose
                                        \/ chan.ending s = None)) _ H _).
    - clear. intros s s' H; inversion H; subst; simpl; intros [E1 [E2|E2]];
        split; auto; congruence.
    - simpl. auto. }
  exact (proj1 K).
Qed.

(** X3. The hand-over through the channel, when the goroutine closes it. At any
    point of any run, either the [range] loop has returned, and then with
    all that the goroutine had to send, in order; or a step can be taken, and
    every step uses up some of the work left. So the loop and the goroutine
    never wait for each other for ever, also when the buffer is full, and
    every run ends with the loop holding the whole list. *)
Theorem channel_hands_over_everything (l : list A) (s : Sys) :
  0 < capacity ->
  steps (chan.start l chan.ThenClose) s ->
  (chan.returned s = true -> chan.items s = l)
  /\ (chan.returned s = false -> exists s', step s s')
  /\ (forall s', step s s' -> chan.left s' < chan.left s)
  /\ List.length (chan.buffer s) <= capacity.
Proof.
  intros Hcap H.
  split; [apply (range_receives_all (e:=chan.ThenClose)); [discriminate|exact H]|].
  split.
  { intros Hr. apply (channel_progress (l:=l) (e:=chan.ThenClose)); auto;
      [discriminate|apply (close_never_crashes H)]. }
  split; [intros s'; apply step_left|].
  refine (steps_keep (P:=fun s => List.length (chan.buffer s) <= capacity) _ H _).
  - clear. intros s s' H; inversion H; subst; simpl; intros E;
      rewrite ?length_app; simpl in *; lia.
  - simpl. lia.
Qed.
End Channel.

(** ** Cancellation *)

Section Cancellation.
Context {schema : Schema}.
Local Open Scope go_scope.

(** How [retry] returns: canceled with the channel closed, or not canceled
    with the goroutine started on the store as it is then. *)
Lemma retry_result (fuel : nat) :
  forall req epc w ch c epc' w',
    retry fuel req epc w = Ret (ch, c) epc' w' ->
    (c = true /\ ch = ClosedEmpty /\ canceled w' = true)
    \/ (c = false
        /\ ch = FedBy match data epc' with
                      | Some t => grouper t
                      | None => Dies []
                      end).
Proof.
  induction fuel as [|fuel IH]; intros req epc w ch c epc' w' H; [discriminate|].
  cbn [retry] in H. unbind H. unfold ctx_Err in Hm. inversion Hm; subst; clear Hm.
  destruct (canceled w0) eqn:Hc.
  - inversion H; subst. left. auto.
  - unbind H. destruct a.
    + unbind H. destruct a.
      * unfold spawn in H. run. inversion H; subst. right. auto.
      * unbind H. eapply IH; eauto.
    + unbind H. eapply IH; eauto.
Qed.

Lemma NextCh_result (fuel : nat) req epc w ch c epc' w' :
  NextCh fuel req epc w = Ret (ch, c) epc' w' ->
  (c = true /\ ch = ClosedEmpty /\ canceled w' = true)
  \/ (c = false
      /\ ch = FedBy match data epc' with
                    | Some t => grouper t
                    | None => Dies []
                    end).
Proof.
  unfold NextCh. intros H. unbind H. unbind H. eapply retry_result; eauto.
Qed.

Lemma retry_canceled (fuel : nat) req epc w :
  canceled w = true -> retry (S fuel) req epc w = Ret (ClosedEmpty, true) epc w.
Proof. intros Hc. cbn [retry]. run. rewrite Hc. reflexivity. Qed.

Lemma dial_canceled (fuel : nat) epc w :
  canceled w = true -> dial (S fuel) epc w = Ret true epc w.
Proof. intros Hc. cbn [dial]. unfold Dial. run. rewrite Hc. reflexivity. Qed.

(** C4. A context that is canceled when [NextCh] is entered, or when a
    round starts at the label [retry], gives the closed channel and
    [canceled = true] with the client and the world untouched: nothing is
    sent. Whenever [NextCh] returns [canceled = true] the channel is the
    closed one and [Next] returns the empty list with [canceled = true].
    When [NextCh] returns [canceled = false], [Next] returns, in order, all
    that the goroutine sends before it closes the channel; when the
    goroutine panics, the deferred close lets the loop of [Next] return what
    was sent until then if the process lasts that long. *)
Theorem canceled_before_the_send (fuel : nat) (req : localnetv1.WatchReq) epc w :
  (canceled w = true ->
     retry (S fuel) req epc w = Ret (ClosedEmpty, true) epc w
     /\ NextCh (S fuel) req epc w = Ret (ClosedEmpty, true) epc w
     /\ Next (S fuel) req epc w = Ret ([], true) epc w)
  /\ (forall ch epc' w',
        NextCh fuel req epc w = Ret (ch, true) epc' w' ->
        ch = ClosedEmpty /\ canceled w' = true
        /\ Next fuel req epc w = Ret ([], true) epc' w')
  /\ (forall ch epc' w',
        NextCh fuel req epc w = Ret (ch, false) epc' w' ->
        exists g,
          ch = FedBy g
          /\ Next fuel req epc w =
               match g, data epc' with
               | Closes sent, _ => Ret (sent, false) epc' w'
               | Dies sent, Some _ => Dying (sent, false) epc' w'
               | Dies _, None => Panic epc' w'
               end
          /\ forall s sent,
               g = Closes sent \/ g = Dies sent ->
               chan.steps 100 (on_channel g) s -> chan.returned s = true ->
               chan.items s = sent).
Proof.
  split; [|split].
  - intros Hc.
    assert (N : NextCh (S fuel) req epc w = Ret (ClosedEmpty, true) epc w).
    { unfold NextCh. unfold bind at 1. unfold get. unfold bind at 1.
      destruct (watch epc).
      - unfold ret at 1. apply retry_canceled, Hc.
      - unfold bind at 1. rewrite dial_canceled by exact Hc.
        unfold ret at 1. apply retry_canceled, Hc. }
    split; [apply retry_canceled, Hc|]. split; [exact N|].
    unfold Next. unfold bind at 1. rewrite N. reflexivity.
  - intros ch epc' w' H.
    destruct (NextCh_result H) as [[_ [Hch Hc]]|[Hc _]]; [|discriminate].
    split; [exact Hch|]. split; [exact Hc|].
    unfold Next. unfold bind at 1. rewrite H. reflexivity.
  - intros ch epc' w' H.
    destruct (NextCh_result H) as [[Hc _]|[_ Hch]]; [discriminate|].
    subst ch. eexists. split; [reflexivity|]. split.
    + unfold Next. unfold bind at 1. rewrite H. run.
      destruct (data epc') as [t|]; [|reflexivity].
      unfold range. destruct (grouper t); reflexivity.
    + intros s sent [Hg|Hg] Hs Hr; rewrite Hg in Hs; simpl in Hs;
        refine (range_receives_all _ Hs Hr); discriminate.
Qed.
End Cancellation.

(** ** The backoff *)

Section Backoff.
Context {schema : Schema}.
Local Open Scope go_scope.

(** As time passes a canceled context stays canceled. *)
Lemma canceled_later (w w' : World) :
  cancelAt w' = cancelAt w -> now w <= now w' ->
  canceled w = true -> canceled w' = true.
Proof.
  unfold canceled. intros -> Hn. destruct (cancelAt w) as [c|]; [|discriminate].
  rewrite !Nat.leb_le. lia.
Qed.

(** C5, as the code has it. Cancellation is checked at the start of each
    connection attempt and by [postError] before its sleep: with the context
    canceled, [dial] returns [true] at once and [postError] returns with the
    watch and the connection closed, without a sleep, a dial, or any time
    passing. The sleep itself is not interruptible: it lasts [ErrorDelay]
    whenever the cancellation comes, and a cancellation that comes during the
    sleep after a failed attempt is seen by the check that follows the sleep,
    [ErrorDelay] after the failure. *)
Theorem backoff_checks_then_sleeps_through (fuel : nat) epc w :
  (canceled w = true -> dial (S fuel) epc w = Ret true epc w)
  /\ (canceled w = true ->
        exists new w',
          postError fuel epc w = Ret tt (set_conn None (set_watch None epc)) w'
          /\ trace w' = new ++ trace w /\ existsb is_sleep new = false
          /\ now w' = now w /\ dials w' = dials w)
  /\ (forall epc' w',
        errorSleep epc w = Ret tt epc' w' ->
        epc' = epc /\ now w' = now w + ErrorDelay epc
        /\ trace w' = EvSleep (now w) (ErrorDelay epc) :: trace w)
  /\ (forall d rest,
        dials w = (d, DialFailed) :: rest ->
        canceled (pass d w) = false ->
        canceled (pass (d + ErrorDelay epc) w) = true ->
        exists w',
          dial (2 + fuel) epc w = Ret true epc w'
          /\ now w' = now w + d + ErrorDelay epc
          /\ In (EvSleep (now w + d) (ErrorDelay epc)) (trace w'))
  /\ (forall d rest d' rest',
        dials w = (d, DialOk) :: rest ->
        watches w = (d', false) :: rest' ->
        canceled (pass (d + d') w) = false ->
        canceled (pass (d + d' + ErrorDelay epc) w) = true ->
        exists w',
          dial (2 + fuel) epc w =
            Ret true (set_watch None (set_conn (Some (serial w)) epc)) w'
          /\ now w' = now w + d + d' + ErrorDelay epc
          /\ In (EvSleep (now w + d + d') (ErrorDelay epc)) (trace w')).
Proof.
  assert (Before : forall k, canceled (pass k w) = false -> canceled w = false).
  { intros k Hk. destruct (canceled w) eqn:E; auto.
    rewrite <- Hk. symmetry. apply (canceled_later (w:=w)); simpl; auto. lia. }
  split; [|split; [|split; [|split]]].
  - intros Hc. cbn [dial]. unfold Dial. run. rewrite Hc. reflexivity.
  - intros Hc. unfold postError. run.
    destruct epc as [delay [c|] [s|] dt]; cbn [watch conn set_watch set_conn];
      run; unfold canceled in *; cbn [cancelAt now happen] in *; rewrite Hc;
      eexists; eexists; (split; [reflexivity|]); cbn [trace happen now dials];
      (split; [|split; [|split; reflexivity]]);
      try (instantiate (1 := [_; _]); reflexivity);
      try (instantiate (1 := [_]); reflexivity);
      try (instantiate (1 := []); reflexivity); reflexivity.
  - intros epc' w' H. unfold errorSleep in H. inversion H; subst.
    simpl. auto.
  - intros d rest Hd Hs Hc'. pose proof (Before _ Hs) as Hc.
    cbn [plus dial]. unfold Dial, DialContext, errorSleep. run. rewrite Hc.
    cbn [dials happen]. rewrite Hd. cbn beta iota.
    match goal with
    | |- context [canceled ?w1] => assert (Hl : canceled w1 = true)
    end.
    { revert Hc'. unfold canceled. simpl. rewrite Nat.add_assoc. auto. }
    rewrite Hl.
    eexists. split; [reflexivity|]. simpl. split; [lia|]. left. reflexivity.
  - intros d rest d' rest' Hd Hw Hs Hc'. pose proof (Before _ Hs) as Hc.
    cbn [plus dial]. unfold Dial, DialContext, Watch, errorSleep. run. rewrite Hc.
    cbn [dials happen]. rewrite Hd. cbn beta iota.
    cbn [watches happen next_serial pass set_dials]. rewrite Hw. cbn beta iota.
    match goal with
    | |- context [canceled ?w1] => assert (Hl : canceled w1 = true)
    end.
    { revert Hc'. unfold canceled. simpl. rewrite !Nat.add_assoc. auto. }
    rewrite Hl.
    eexists. split; [reflexivity|]. simpl. split; [lia|]. left. reflexivity.
Qed.
End Backoff.

(** ** Traces *)

Section Traces.
Context {schema : Schema}.

Lemma extends_refl (w : World) : extends w w [].
Proof. unfold extends. simpl. auto. Qed.

Lemma extends_trans (w w1 w2 : World) (n1 n2 : list Event) :
  extends w w1 n1 -> extends w1 w2 n2 -> extends w w2 (n2 ++ n1).
Proof.
  unfold extends. intros [T1 [C1 N1]] [T2 [C2 N2]].
  rewrite T2, T1, C2, C1, app_assoc. repeat split; auto. lia.
Qed.

Lemma extends_canceled (w w' : World) (new : list Event) :
  extends w w' new -> canceled w = true -> canceled w' = true.
Proof. intros [_ [C N]]. apply canceled_later; auto. Qed.

Lemma replay_app (d : option (list kv)) (n1 n2 : list Event) :
  replay d (n2 ++ n1) = replay (replay d n1) n2.
Proof.
  induction n2 as [|e n2 IH]; [reflexivity|].
  destruct e; simpl; auto. destruct op; simpl; auto. rewrite IH. reflexivity.
Qed.

Lemma effects_last (ops : list localnetv1.OpItem) (op : localnetv1.OpItem)
    (t : list kv) :
  effects (ops ++ [op]) t = effect op (effects ops t).
Proof. unfold effects. rewrite fold_left_app. reflexivity. Qed.

(** On one connection the store is the store at its start with the
    operations received since applied in order. *)
Lemma replay_one_connection (t : list kv) (tr : list Event) :
  existsb is_new tr = false ->
  replay (Some t) tr = Some (effects (received tr) t).
Proof.
  induction tr as [|e tr IH]; [reflexivity|].
  destruct e; simpl; try discriminate; auto.
  destruct op; simpl; auto.
  intros H. rewrite (IH H), effects_last. reflexivity.
Qed.

(** What came before the last new store does not count. *)
Lemma replay_since_new (d : option (list kv)) (post pre : list Event) :
  existsb is_new post = false ->
  replay d (post ++ EvNew :: pre) =
    Some (effects (received post) (btree.New 2)).
Proof.
  intros H. rewrite replay_app. simpl. apply replay_one_connection, H.
Qed.

Lemma paired_app_both (a : list Event) :
  (forall b, paired a -> paired b -> paired (a ++ b))
  /\ (forall e b, paired (e :: a) -> paired b -> paired (e :: a ++ b)).
Proof.
  induction a as [|x a [IH1 IH2]].
  - split; [auto|]. intros e b He Hb.
    destruct e as [| c [|] | | | | | | | |]; simpl in *; try contradiction; auto.
  - split; [intros b; apply IH2|].
    intros e b He Hb.
    destruct e as [| c [|] | | | | | | | |]; simpl in He |- *;
      try (apply IH2; assumption); try contradiction.
    destruct x as [| c [|] | | | | | | | |]; simpl in He |- *; try contradiction.
    apply IH1; assumption.
Qed.

Lemma paired_app (a b : list Event) : paired a -> paired b -> paired (a ++ b).
Proof. apply paired_app_both. Qed.

Lemma paired_plain (tr : list Event) :
  existsb is_new tr = false -> existsb is_connection tr = false -> paired tr.
Proof.
  induction tr as [|e tr IH]; [simpl; auto|].
  destruct e as [| c [|] | | | | | | | |]; simpl; intros H1 H2;
    try discriminate; auto.
Qed.

Lemma sends_only_app (req : localnetv1.WatchReq) (a b : list Event) :
  sends_only req a -> sends_only req b -> sends_only req (a ++ b).
Proof.
  unfold sends_only. intros Ha Hb s r ok Hin.
  apply in_app_or in Hin. destruct Hin; eauto.
Qed.

Lemma sends_only_none (req : localnetv1.WatchReq) (tr : list Event) :
  existsb is_send tr = false -> sends_only req tr.
Proof.
  unfold sends_only. intros H s r ok Hin.
  assert (E : existsb is_send tr = true).
  { apply existsb_exists. eexists. split; [exact Hin|reflexivity]. }
  congruence.
Qed.
End Traces.

(** ** What each call adds to the trace *)

Section Calls.
Context {schema : Schema}.
Local Open Scope go_scope.

Lemma aside_facts (tr : list Event) :
  forallb aside tr = true ->
  existsb is_send tr = false /\ existsb is_recv tr = false
  /\ existsb is_new tr = false /\ existsb is_connection tr = false.
Proof.
  induction tr as [|e tr IH]; [simpl; auto|].
  simpl. intros H. apply andb_true_iff in H. destruct H as [He Ht].
  destruct (IH Ht) as [H1 [H2 [H3 H4]]].
  rewrite H1, H2, H3, H4.
  destruct e as [| c [|] | | | | | | | |]; simpl in *; try discriminate; auto.
Qed.

Lemma no_recv_facts (tr : list Event) :
  existsb is_recv tr = false ->
  existsb is_failure tr = existsb (fun e => is_failure e && is_send e) tr
  /\ received tr = []
  /\ forall d, existsb is_new tr = false -> replay d tr = d.
Proof.
  induction tr as [|e tr IH]; [simpl; auto|].
  simpl. intros H. apply orb_false_iff in H. destruct H as [He Ht].
  destruct (IH Ht) as [H1 [H2 H3]]. rewrite H1.
  destruct e; simpl in *; try discriminate; auto.
  - repeat split; auto. discriminate.
  - repeat split; auto. rewrite andb_true_r. reflexivity.
Qed.

Lemma no_send_no_recv (tr : list Event) :
  existsb is_send tr = false -> existsb is_recv tr = false ->
  existsb is_failure tr = false.
Proof.
  induction tr as [|e tr IH]; [simpl; auto|].
  simpl. intros H1 H2.
  apply orb_false_iff in H1. apply orb_false_iff in H2.
  destruct H1 as [E1 T1], H2 as [E2 T2]. rewrite (IH T1 T2).
  destruct e; simpl in *; try discriminate; auto.
Qed.

Lemma replay_aside (d : option (list kv)) (tr : list Event) :
  forallb aside tr = true -> replay d tr = d.
Proof.
  intros H. destruct (aside_facts H) as [_ [H2 [H3 _]]].
  destruct (no_recv_facts H2) as [_ [_ H4]]. auto.
Qed.

Lemma applyOp_trace (op : localnetv1.OpItem) epc w t epc' w' :
  applyOp op epc w = Ret t epc' w' ->
  exists new, extends w w' new /\ forallb aside new = true.
Proof.
  unfold applyOp.
  destruct (localnetv1.Op op) as [[set|ref|]|].
  - destruct (localnetv1.Ref_ set) as [ref|]; [|intros H; discriminate H].
    destruct (empty_for (localnetv1.Ref_Set ref)) as [v|].
    + run. destruct (Unmarshal (localnetv1.Bytes set) v) as [m|].
      * destruct (data epc) as [d|]; [|intros H; discriminate H].
        intros H; inversion H; subst.
        exists [EvUnmarshal (localnetv1.Bytes set) v true].
        unfold extends. simpl. auto.
      * intros H; inversion H; subst.
        exists [EvLog "failed to parse value: ";
                EvUnmarshal (localnetv1.Bytes set) v false].
        unfold extends. simpl. auto.
    + run. intros H; inversion H; subst. exists []. split; [apply extends_refl|auto].
  - run. destruct (data epc) as [d|]; [|intros H; discriminate H].
    intros H; inversion H; subst. exists []. split; [apply extends_refl|auto].
  - run. intros H; inversion H; subst. exists []. split; [apply extends_refl|auto].
  - run. intros H; inversion H; subst. exists []. split; [apply extends_refl|auto].
Qed.

Lemma Recv_Ret (r : option localnetv1.OpItem) epc w epc' w' :
  Recv epc w = Ret r epc' w' ->
  exists s, watch epc = Some s /\ epc' = epc
            /\ extends w w' [EvRecv s r].
Proof.
  unfold Recv. destruct (watch epc) as [s|]; [|intros H; discriminate H].
  destruct (recvs w) as [|[d r'] rest]; [intros H; discriminate H|].
  intros H; inversion H; subst. exists s. unfold extends. simpl.
  repeat split; auto. lia.
Qed.

Lemma Send_Ret (req : localnetv1.WatchReq) (ok : bool) epc w epc' w' :
  Send req epc w = Ret ok epc' w' ->
  exists s, watch epc = Some s /\ epc' = epc
            /\ extends w w' [EvSend s req ok].
Proof.
  unfold Send. destruct (watch epc) as [s|]; [|intros H; discriminate H].
  destruct (sends w) as [|[d r'] rest]; [intros H; discriminate H|].
  intros H; inversion H; subst. exists s. unfold extends. simpl.
  repeat split; auto. lia.
Qed.

(** The [apply] loop: it receives, touches neither the connection nor the
    request, leaves the store as the operations received make it, and ends
    on a [Sync] without a failure or on a failed [Recv]. *)
Lemma apply_trace (fuel : nat) :
  forall epc w a epc' w',
    apply fuel epc w = Ret a epc' w' ->
    exists new,
      extends w w' new
      /\ existsb is_send new = false
      /\ existsb is_new new = false /\ existsb is_connection new = false
      /\ data epc' = replay (data epc) new
      /\ watch epc' = watch epc
      /\ existsb is_failure new = match a with Synced => false | RecvFailed => true end
      /\ (a = Synced -> new <> []).
Proof.
  induction fuel as [|fuel IH]; intros epc w a epc' w' H; [discriminate|].
  cbn [apply] in H. unbinding H as r epc1 w1 Hm.
  destruct (Recv_Ret Hm) as [s [Hw [-> Hx]]]. clear Hm.
  destruct r as [op|].
  - unbinding H as t epc2 w2 Hm.
    destruct (applyOp_trace Hm) as [na [Hxa Hna]].
    destruct (applyOp_effect Hm) as [Hd [_ [_ Hww]]].
    destruct (aside_facts Hna) as [A1 [A2 [A3 A4]]].
    pose proof (extends_trans Hx Hxa) as Hx1.
    assert (Hd1 : data epc2 = replay (data epc) (na ++ [EvRecv s (Some op)])).
    { rewrite replay_app, (replay_aside _ Hna). exact Hd. }
    assert (Hf1 : existsb is_failure (na ++ [EvRecv s (Some op)]) = false).
    { rewrite existsb_app. simpl.
      destruct (no_recv_facts A2) as [Hf _]. rewrite Hf.
      rewrite orb_false_r.
      clear - A1. induction na as [|e na IHn]; [reflexivity|].
      simpl in *. apply orb_false_iff in A1. destruct A1 as [E T].
      rewrite E, andb_false_r. simpl. auto. }
    destruct t.
    + destruct (IH _ _ _ _ _ H) as [n2 [Hx2 [S2 [N2 [C2 [D2 [W2 [F2 G2]]]]]]]].
      exists (n2 ++ na ++ [EvRecv s (Some op)]).
      split; [eapply extends_trans; eauto|].
      split; [rewrite !existsb_app, S2, A1; reflexivity|].
      split; [rewrite !existsb_app, N2, A3; reflexivity|].
      split; [rewrite !existsb_app, C2, A4; reflexivity|].
      split; [rewrite replay_app, <- Hd1; exact D2|].
      split; [congruence|].
      split; [rewrite existsb_app, F2, Hf1; destruct a; reflexivity|].
      intros _ E. apply app_eq_nil in E. destruct E as [_ E].
      apply app_eq_nil in E. destruct E as [_ E]. discriminate.
    + unfold ret in H. inversion H; subst.
      exists (na ++ [EvRecv s (Some op)]).
      split; [exact Hx1|].
      split; [rewrite !existsb_app, A1; reflexivity|].
      split; [rewrite !existsb_app, A3; reflexivity|].
      split; [rewrite !existsb_app, A4; reflexivity|].
      split; [exact Hd1|].
      split; [congruence|].
      split; [exact Hf1|].
      intros _ E. apply app_eq_nil in E. destruct E as [_ E]. discriminate.
  - run. inversion H; subst.
    exists [EvLog "watch recv failed: "; EvRecv s None].
    split.
    + destruct Hx as [T [C N]]. unfold extends. simpl. rewrite T. auto.
    + simpl. repeat split; auto. discriminate.
Qed.

(** [dial]: it neither sends nor receives; it makes a new store exactly
    when a watch starts, and then returns [false] at once; it returns
    [true] with no watch when there was none. *)
Lemma dial_trace (fuel : nat) :
  forall epc w b epc' w',
    dial fuel epc w = Ret b epc' w' ->
    exists new,
      extends w w' new
      /\ existsb is_send new = false /\ existsb is_recv new = false
      /\ paired new
      /\ data epc' = replay (data epc) new
      /\ (b = false ->
            exists c pre, new = EvNew :: EvWatch c true :: pre
                          /\ watch epc' = Some c)
      /\ (b = true -> watch epc = None -> watch epc' = None).
Proof.
  induction fuel as [|fuel IH]; intros epc w b epc' w' H; [discriminate|].
  cbn [dial] in H. unfold Dial, DialContext, Watch, errorSleep in H.
  unfold klog, bind, ret, get, modify, world, ctx_Err in H.
  destruct (canceled w).
  { inversion H; subst. exists []. split; [apply extends_refl|].
    simpl. repeat split; auto. discriminate. }
  cbn [dials happen] in H.
  destruct (dials w) as [|[d [| |]] rest]; [discriminate| | |].
  - cbn [watches happen next_serial pass set_dials] in H.
    destruct (watches w) as [|[d' [|]] rest']; [discriminate| |].
    + inversion H; subst.
      exists [EvNew; EvWatch (serial w) true; EvDialContext DialOk; EvLog "connecting to "].
      split; [unfold extends; simpl; repeat split; auto; lia|].
      simpl. repeat split; auto; try discriminate.
      intros _. eexists. eexists. split; reflexivity.
    + apply IH in H. destruct H as [n2 [Hx [S2 [R2 [P2 [D2 [F2 T2]]]]]]].
      exists (n2 ++ [EvSleep (now w + d + d') (ErrorDelay epc);
                     EvLog "failed to start watch: "; EvClose (serial w);
                     EvWatch (serial w) false; EvDialContext DialOk; EvLog "connecting to "]).
      split.
      { eapply extends_trans; [|exact Hx].
        unfold extends. simpl. repeat split; auto. lia. }
      split; [rewrite existsb_app, S2; reflexivity|].
      split; [rewrite existsb_app, R2; reflexivity|].
      split; [apply paired_app; [exact P2|simpl; auto]|].
      split; [rewrite replay_app; exact D2|].
      split.
      * intros Hb. destruct (F2 Hb) as [c [pre [-> Hw]]].
        eexists. eexists. split; [|exact Hw]. simpl. reflexivity.
      * intros Hb _. apply T2; auto.
  - inversion H; subst. exists [EvDialContext DialCanceled; EvLog "connecting to "].
    split; [unfold extends; simpl; repeat split; auto; lia|].
    simpl. repeat split; auto. discriminate.
  - apply IH in H. destruct H as [n2 [Hx [S2 [R2 [P2 [D2 [F2 T2]]]]]]].
    exists (n2 ++ [EvSleep (now w + d) (ErrorDelay epc);
                   EvLog "failed to connect: "; EvDialContext DialFailed; EvLog "connecting to "]).
    split.
    { eapply extends_trans; [|exact Hx].
      unfold extends. simpl. repeat split; auto. lia. }
    split; [rewrite existsb_app, S2; reflexivity|].
    split; [rewrite existsb_app, R2; reflexivity|].
    split; [apply paired_app; [exact P2|simpl; auto]|].
    split; [rewrite replay_app; exact D2|].
    split.
    * intros Hb. destruct (F2 Hb) as [c [pre [-> Hw]]].
      eexists. eexists. split; [|exact Hw]. simpl. reflexivity.
    * intros Hb Hn. apply T2; auto.
Qed.

(** [postError]: it closes what is open, and then either the context is
    canceled, or [dial] has given up with no watch, or [dial] has started a
    watch on a new store. *)
Lemma postError_trace (fuel : nat) epc w epc' w' :
  postError fuel epc w = Ret tt epc' w' ->
  exists new,
    extends w w' new
    /\ existsb is_send new = false /\ existsb is_recv new = false
    /\ paired new
    /\ data epc' = replay (data epc) new
    /\ (canceled w' = true \/ watch epc' = None
        \/ exists c pre, new = EvNew :: EvWatch c true :: pre
                         /\ watch epc' = Some c).
Proof.
  unfold postError. unfold bind at 1. unfold get. intros H.
  unbinding H as u1 epc1 w1 Hm.
  assert (H1 : exists n1, extends w w1 n1 /\ forallb aside n1 = true
                          /\ watch epc1 = None /\ data epc1 = data epc).
  { destruct (watch epc) as [s|] eqn:Hw.
    - revert Hm. run. intros Hm; inversion Hm; subst.
      exists [EvCloseSend s]. unfold extends. simpl. auto.
    - unfold ret in Hm. inversion Hm; subst. exists [].
      split; [apply extends_refl|]. auto. }
  clear Hm. destruct H1 as [n1 [Hx1 [A1 [Hw1 Hd1]]]].
  unbinding H as u2 epc2 w2 Hm.
  assert (H2 : exists n2, extends w1 w2 n2 /\ forallb aside n2 = true
                          /\ watch epc2 = None /\ data epc2 = data epc).
  { destruct (conn epc) as [c|] eqn:Hc.
    - revert Hm. run. intros Hm; inversion Hm; subst.
      exists [EvClose c]. unfold extends. simpl. auto.
    - unfold ret in Hm. inversion Hm; subst. exists [].
      split; [apply extends_refl|]. auto. }
  clear Hm. destruct H2 as [n2 [Hx2 [A2 [Hw2 Hd2]]]].
  pose proof (extends_trans Hx1 Hx2) as Hx12.
  assert (A12 : forallb aside (n2 ++ n1) = true).
  { rewrite forallb_app, A1, A2. reflexivity. }
  destruct (aside_facts A12) as [B1 [B2 [B3 B4]]].
  unfold bind at 1 in H. unfold ctx_Err in H.
  destruct (canceled w2) eqn:Hc.
  - unfold ret in H. inversion H; subst.
    exists (n2 ++ n1). split; [exact Hx12|].
    split; [exact B1|]. split; [exact B2|].
    split; [apply paired_plain; assumption|].
    split; [rewrite (replay_aside _ A12); exact Hd2|].
    left. exact Hc.
  - unfold bind at 1 in H. unfold errorSleep in H.
    unbinding H as b epc5 w5 Hm. unfold ret in H. inversion H; subst; clear H.
    destruct (dial_trace Hm) as [n3 [Hx3 [S3 [R3 [P3 [D3 [F3 T3]]]]]]].
    exists (n3 ++ EvSleep (now w2) (ErrorDelay epc2) :: n2 ++ n1).
    split.
    { eapply extends_trans; [|exact Hx3].
      destruct Hx12 as [T [C N]]. unfold extends. simpl. rewrite T.
      repeat split; auto. lia. }
    split; [rewrite existsb_app, S3; simpl; exact B1|].
    split; [rewrite existsb_app, R3; simpl; exact B2|].
    split.
    { apply paired_app; [exact P3|]. simpl. apply paired_plain; assumption. }
    split.
    { rewrite replay_app. simpl. rewrite (replay_aside _ A12), <- Hd2. exact D3. }
    destruct b.
    + right. left. apply T3; auto.
    + right. right. destruct (F3 eq_refl) as [c [pre [-> Hw]]].
      eexists. eexists. split; [|exact Hw]. simpl. reflexivity.
Qed.

(** A round that returns without cancellation: either nothing failed, or
    the trace ends with the events of one working connection, begun by a
    new store after the last failure, on which the request was sent again. *)
Lemma retry_trace (fuel : nat) :
  forall req epc w ch epc' w',
    retry fuel req epc w = Ret (ch, false) epc' w' ->
    exists new,
      extends w w' new
      /\ sends_only req new /\ paired new
      /\ data epc' = replay (data epc) new
      /\ ((clean new /\ exists s, In (EvSend s req true) new)
          \/ (exists post pre,
                new = post ++ EvNew :: pre /\ clean post
                /\ existsb is_failure pre = true
                /\ exists s, In (EvSend s req true) post)).
Proof.
  induction fuel as [|fuel IH]; intros req epc w ch epc' w' H; [discriminate|].
  assert (Fail : forall epc_a w_a A,
             extends w w_a A -> data epc_a = replay (data epc) A ->
             existsb is_failure A = true -> sends_only req A ->
             existsb is_new A = false -> existsb is_connection A = false ->
             (postError fuel ;; retry fuel req) epc_a w_a = Ret (ch, false) epc' w' ->
             exists new,
               extends w w' new
               /\ sends_only req new /\ paired new
               /\ data epc' = replay (data epc) new
               /\ ((clean new /\ exists s, In (EvSend s req true) new)
                   \/ (exists post pre,
                         new = post ++ EvNew :: pre /\ clean post
                         /\ existsb is_failure pre = true
                         /\ exists s, In (EvSend s req true) post))).
  { intros epc_a w_a A Hxa Hda Hfa Hsa Hna Hca HF.
    unbinding HF as u epc3 w3 Hp. destruct u.
    destruct (postError_trace Hp) as [np [Hxp [Sp [Rp [Pp [Dp Cases]]]]]].
    destruct Cases as [Hc3|[Hw3|[c [prep [Enp Hw3]]]]].
    - destruct fuel; [discriminate|].
      rewrite (retry_canceled _ _ _ Hc3) in HF. inversion HF.
    - destruct fuel; [discriminate|].
      cbn [retry] in HF. unfold bind, ctx_Err, Send in HF.
      destruct (canceled w3); [inversion HF|].
      rewrite Hw3 in HF. discriminate.
    - destruct (IH _ _ _ _ _ _ HF) as [n2 [Hx2 [S2 [P2 [D2 Dis]]]]].
      exists (n2 ++ np ++ A).
      split; [eapply extends_trans; [eapply extends_trans; eauto|exact Hx2]|].
      split.
      { apply sends_only_app; [exact S2|].
        apply sends_only_app; [apply sends_only_none; exact Sp|exact Hsa]. }
      split.
      { apply paired_app; [exact P2|].
        apply paired_app; [exact Pp|apply paired_plain; assumption]. }
      split.
      { rewrite !replay_app, <- Hda, <- Dp. exact D2. }
      right. destruct Dis as [[[Hf2 Hn2] Hin]|[post [pre [E2 [Hcl [Hfp Hin]]]]]].
      + exists n2, (EvWatch c true :: prep ++ A).
        split; [rewrite Enp; reflexivity|].
        split; [split; assumption|].
        split; [|exact Hin].
        simpl. rewrite existsb_app, Hfa. apply orb_true_r.
      + exists post, (pre ++ np ++ A).
        split; [rewrite E2, <- app_assoc; reflexivity|].
        split; [exact Hcl|].
        split; [|exact Hin].
        rewrite existsb_app, Hfp. reflexivity. }
  cbn [retry] in H. unfold bind at 1 in H. unfold ctx_Err in H.
  destruct (canceled w) eqn:Hc; [inversion H|].
  unbinding H as ok epc1 w1 Hm.
  destruct (Send_Ret Hm) as [s [Hw [-> Hx]]]. clear Hm.
  destruct ok.
  - unbinding H as a epc2 w2 Hm.
    destruct (apply_trace Hm) as [na [Hxa [Sa [Na [Ca [Da [Wa [Fa _]]]]]]]].
    pose proof (extends_trans Hx Hxa) as Hx2.
    assert (Hd2 : data epc2 = replay (data epc) (na ++ [EvSend s req true])).
    { rewrite replay_app. exact Da. }
    assert (Hs2 : sends_only req (na ++ [EvSend s req true])).
    { apply sends_only_app; [apply sends_only_none; exact Sa|].
      intros s' r ok [E|[]]. inversion E; reflexivity. }
    destruct a.
    + unfold spawn, bind, get, ret in H. inversion H; subst.
      exists (na ++ [EvSend s req true]).
      split; [exact Hx2|]. split; [exact Hs2|].
      split; [apply paired_plain; rewrite existsb_app; simpl;
              [rewrite Na|rewrite Ca]; reflexivity|].
      split; [exact Hd2|].
      left. split.
      * split; rewrite existsb_app; simpl; [rewrite Fa|rewrite Na]; reflexivity.
      * exists s. apply in_or_app. right. left. reflexivity.
    + apply (Fail epc2 w2 (na ++ [EvSend s req true])); auto.
      * rewrite existsb_app, Fa. reflexivity.
      * rewrite existsb_app, Na. reflexivity.
      * rewrite existsb_app, Ca. reflexivity.
  - apply (Fail epc w1 [EvSend s req false]); auto.
    intros s' r ok [E|[]]. inversion E; reflexivity.
Qed.
End Calls.

(** ** The end of the process

    Only the [range] loop of [Next] meets a goroutine that panics: no other
    call ends with the process going down under it. *)

Section Alive.
Context {schema : Schema}.
Local Open Scope go_scope.

Lemma bind_Dying {A B} (m : M A) (k : A -> M B) epc w b epc' w' :
  bind m k epc w = Dying b epc' w' ->
  (exists a epc1 w1, m epc w = Ret a epc1 w1 /\ k a epc1 w1 = Dying b epc' w')
  \/ (exists a epc1 w1, m epc w = Dying a epc1 w1).
Proof.
  unfold bind. destruct (m epc w) as [a e1 w1| | | |a e1 w1]; try discriminate.
  - intros H. left. exists a, e1, w1. auto.
  - intros _. right. exists a, e1, w1. reflexivity.
Qed.

Lemma applyOp_alive (op : localnetv1.OpItem) epc w t epc' w' :
  applyOp op epc w <> Dying t epc' w'.
Proof.
  unfold applyOp.
  destruct (localnetv1.Op op) as [[set|ref|]|]; try discriminate.
  - destruct (localnetv1.Ref_ set) as [ref|]; [|discriminate].
    destruct (empty_for (localnetv1.Ref_Set ref)) as [v|]; [|discriminate].
    run. destruct (Unmarshal (localnetv1.Bytes set) v) as [m|]; [|discriminate].
    destruct (data epc); discriminate.
  - run. destruct (data epc); discriminate.
Qed.

Lemma Recv_alive epc w r epc' w' : Recv epc w <> Dying r epc' w'.
Proof.
  unfold Recv. destruct (watch epc); [|discriminate].
  destruct (recvs w) as [|[d x] rest]; discriminate.
Qed.

Lemma Send_alive req epc w r epc' w' : Send req epc w <> Dying r epc' w'.
Proof.
  unfold Send. destruct (watch epc); [|discriminate].
  destruct (sends w) as [|[d x] rest]; discriminate.
Qed.

Lemma apply_alive (fuel : nat) :
  forall epc w a epc' w', apply fuel epc w <> Dying a epc' w'.
Proof.
  induction fuel as [|fuel IH]; intros epc w a epc' w' H; [discriminate|].
  cbn [apply] in H.
  apply bind_Dying in H. destruct H as [[r [e1 [w1 [_ H]]]]|[r [e1 [w1 H]]]];
    [|exact (Recv_alive H)].
  destruct r as [op|]; [|revert H; run; discriminate].
  apply bind_Dying in H. destruct H as [[t [e2 [w2 [_ H]]]]|[t [e2 [w2 H]]]];
    [|exact (applyOp_alive H)].
  destruct t; [exact (IH _ _ _ _ _ H)|discriminate H].
Qed.

Lemma dial_alive (fuel : nat) :
  forall epc w b epc' w', dial fuel epc w <> Dying b epc' w'.
Proof.
  induction fuel as [|fuel IH]; intros epc w b epc' w' H; [discriminate|].
  cbn [dial] in H. unfold Dial, DialContext, Watch, errorSleep in H.
  unfold klog, bind, ret, get, modify, world, ctx_Err in H.
  destruct (canceled w); [discriminate H|].
  cbn [dials happen] in H.
  destruct (dials w) as [|[d [| |]] rest]; try discriminate H.
  - cbn [watches happen next_serial pass set_dials] in H.
    destruct (watches w) as [|[d' [|]] rest']; try discriminate H.
    exact (IH _ _ _ _ _ H).
  - exact (IH _ _ _ _ _ H).
Qed.

Lemma postError_alive (fuel : nat) epc w u epc' w' :
  postError fuel epc w <> Dying u epc' w'.
Proof.
  unfold postError. unfold bind at 1. unfold get. intros H.
  apply bind_Dying in H. destruct H as [[u1 [e1 [w1 [_ H]]]]|[u1 [e1 [w1 H]]]];
    [|destruct (watch epc); revert H; run; discriminate].
  apply bind_Dying in H. destruct H as [[u2 [e2 [w2 [_ H]]]]|[u2 [e2 [w2 H]]]];
    [|destruct (conn epc); revert H; run; discriminate].
  unfold bind at 1 in H. unfold ctx_Err in H.
  destruct (canceled w2); [discriminate H|].
  unfold bind at 1 in H. unfold errorSleep in H.
  apply bind_Dying in H. destruct H as [[b [e3 [w3 [_ H]]]]|[b [e3 [w3 H]]]];
    [discriminate H|exact (dial_alive H)].
Qed.

Lemma retry_alive (fuel : nat) :
  forall req epc w r epc' w', retry fuel req epc w <> Dying r epc' w'.
Proof.
  induction fuel as [|fuel IH]; intros req epc w r epc' w' H; [discriminate|].
  cbn [retry] in H. unfold bind at 1 in H. unfold ctx_Err in H.
  destruct (canceled w); [discriminate H|].
  assert (Again : forall e0 w0,
             (postError fuel ;; retry fuel req) e0 w0 <> Dying r epc' w').
  { intros e0 w0 G.
    apply bind_Dying in G. destruct G as [[u [e1 [w1 [_ G]]]]|[u [e1 [w1 G]]]];
      [exact (IH _ _ _ _ _ _ G)|exact (postError_alive G)]. }
  apply bind_Dying in H. destruct H as [[ok [e1 [w1 [_ H]]]]|[ok [e1 [w1 H]]]];
    [|exact (Send_alive H)].
  destruct ok; [|exact (Again _ _ H)].
  apply bind_Dying in H. destruct H as [[a [e2 [w2 [_ H]]]]|[a [e2 [w2 H]]]];
    [|exact (apply_alive H)].
  destruct a; [revert H; run; discriminate|exact (Again _ _ H)].
Qed.

Lemma NextCh_alive (fuel : nat) req epc w r epc' w' :
  NextCh fuel req epc w <> Dying r epc' w'.
Proof.
  unfold NextCh. unfold bind at 1. unfold get. intros H.
  apply bind_Dying in H. destruct H as [[u [e1 [w1 [_ H]]]]|[u [e1 [w1 H]]]].
  - exact (retry_alive H).
  - destruct (watch epc); [discriminate H|].
    apply bind_Dying in H. destruct H as [[b [e2 [w2 [_ H]]]]|[b [e2 [w2 H]]]];
      [discriminate H|exact (dial_alive H)].
Qed.

(** When [Next] returns under a process that is going down, [NextCh] has
    returned without cancellation, with the client and the world that
    [Next] leaves, and the goroutine has panicked. *)
Lemma Next_dying (fuel : nat) req epc w r epc' w' :
  Next fuel req epc w = Dying r epc' w' ->
  exists sent,
    NextCh fuel req epc w = Ret (FedBy (Dies sent), false) epc' w'
    /\ r = (sent, false) /\ data epc' <> None.
Proof.
  unfold Next. intros H.
  apply bind_Dying in H. destruct H as [[rc [e1 [w1 [Hm H]]]]|[rc [e1 [w1 H]]]];
    [|exfalso; exact (NextCh_alive H)].
  destruct rc as [ch c]. destruct c; [discriminate H|].
  unfold bind at 1 in H. unfold get in H.
  destruct (data e1) as [t|] eqn:Ed; [|discriminate H].
  destruct ch as [|[sent|sent]]; try discriminate H.
  unfold bind, range, dying, ret in H. inversion H; subst.
  exists sent. rewrite Ed. repeat split; auto. discriminate.
Qed.

End Alive.

(** ** What every call keeps *)

Section Keeping.
Context {schema : Schema}.
Local Open Scope go_scope.

Lemma applyOp_keeps (op : localnetv1.OpItem) epc w t epc' w' :
  applyOp op epc w = Ret t epc' w' -> well_kept epc -> well_kept epc'.
Proof.
  intros H. destruct (applyOp_effect H) as [Hd [_ [_ Hw]]].
  unfold well_kept. rewrite Hd, Hw.
  destruct (data epc) as [d|]; simpl; auto. apply ascending_effect.
Qed.

Lemma apply_keeps (fuel : nat) :
  forall epc w a epc' w',
    apply fuel epc w = Ret a epc' w' -> well_kept epc -> well_kept epc'.
Proof.
  induction fuel as [|fuel IH]; intros epc w a epc' w' H; [discriminate|].
  cbn [apply] in H. unbinding H as r epc1 w1 Hm.
  destruct (Recv_Ret Hm) as [s [_ [-> _]]]. clear Hm.
  destruct r as [op|].
  - unbinding H as t epc2 w2 Hm. intros K.
    pose proof (applyOp_keeps Hm K) as K2.
    destruct t.
    + eapply IH; eauto.
    + unfold ret in H. inversion H; subst. exact K2.
  - revert H. run. intros H; inversion H; subst. auto.
Qed.

Lemma dial_keeps (fuel : nat) :
  forall epc w b epc' w',
    dial fuel epc w = Ret b epc' w' -> well_kept epc ->
    well_kept epc' /\ (b = false -> data epc' = Some (btree.New 2)).
Proof.
  induction fuel as [|fuel IH]; intros epc w b epc' w' H K; [discriminate|].
  cbn [dial] in H. unfold Dial, DialContext, Watch, errorSleep in H.
  unfold klog, bind, ret, get, modify, world, ctx_Err in H.
  destruct (canceled w).
  { inversion H; subst. split; [exact K|discriminate]. }
  cbn [dials happen] in H.
  destruct (dials w) as [|[d [| |]] rest]; [discriminate| | |].
  - cbn [watches happen next_serial pass set_dials] in H.
    destruct (watches w) as [|[d' [|]] rest']; [discriminate| |].
    + inversion H; subst. split; [|reflexivity].
      unfold well_kept. simpl. constructor.
    + apply IH in H; [exact H|].
      revert K. unfold well_kept. simpl. destruct (data epc); auto.
  - inversion H; subst. split; [exact K|discriminate].
  - apply IH in H; [exact H|exact K].
Qed.

Lemma postError_keeps (fuel : nat) epc w epc' w' :
  postError fuel epc w = Ret tt epc' w' -> well_kept epc -> well_kept epc'.
Proof.
  unfold postError. unfold bind at 1. unfold get. intros H K.
  unbinding H as u1 epc1 w1 Hm.
  assert (K1 : well_kept epc1).
  { destruct (watch epc) as [s|] eqn:Hw.
    - revert Hm. run. intros Hm; inversion Hm; subst.
      revert K. unfold well_kept. simpl. destruct (data epc); auto.
    - unfold ret in Hm. inversion Hm; subst. exact K. }
  clear Hm. unbinding H as u2 epc2 w2 Hm.
  assert (K2 : well_kept epc2).
  { destruct (conn epc) as [c|] eqn:Hc.
    - revert Hm. run. intros Hm; inversion Hm; subst.
      revert K1. unfold well_kept. simpl. auto.
    - unfold ret in Hm. inversion Hm; subst. exact K1. }
  clear Hm. unfold bind at 1 in H. unfold ctx_Err in H.
  destruct (canceled w2).
  - unfold ret in H. inversion H; subst. exact K2.
  - unfold bind at 1 in H. unfold errorSleep in H.
    unbinding H as b epc5 w5 Hm. unfold ret in H. inversion H; subst.
    exact (proj1 (dial_keeps Hm K2)).
Qed.

Lemma retry_keeps (fuel : nat) :
  forall req epc w r epc' w',
    retry fuel req epc w = Ret r epc' w' -> well_kept epc -> well_kept epc'.
Proof.
  induction fuel as [|fuel IH]; intros req epc w r epc' w' H K; [discriminate|].
  cbn [retry] in H. unfold bind at 1 in H. unfold ctx_Err in H.
  destruct (canceled w).
  { unfold ret in H. inversion H; subst. exact K. }
  unbinding H as ok epc1 w1 Hm.
  destruct (Send_Ret Hm) as [s [_ [-> _]]]. clear Hm.
  destruct ok.
  - unbinding H as a epc2 w2 Hm.
    pose proof (apply_keeps Hm K) as K2.
    destruct a.
    + revert H. run. intros H; inversion H; subst. exact K2.
    + unbinding H as u epc3 w3 Hp. destruct u.
      eapply IH; [exact H|]. eapply postError_keeps; eauto.
  - unbinding H as u epc3 w3 Hp. destruct u.
    eapply IH; [exact H|]. eapply postError_keeps; eauto.
Qed.

(** X4. What holds of the client between calls holds after every call of
    [NextCh] and of [Next] that returns, canceled or not: the store, once
    made, is in strictly ascending order of paths, and there is no watch
    without a store. It holds of a client that has never connected, and
    also when [Next] returns with the process going down under it. *)
Theorem calls_keep_the_store_ascending (fuel : nat) (req : localnetv1.WatchReq)
    epc w :
  well_kept epc ->
  (forall r epc' w', NextCh fuel req epc w = Ret r epc' w' -> well_kept epc')
  /\ (forall r epc' w', Next fuel req epc w = Ret r epc' w' -> well_kept epc')
  /\ (forall delay,
        well_kept {| ErrorDelay := delay; conn := None; watch := None;
                     data := None |})
  /\ (forall r epc' w', Next fuel req epc w = Dying r epc' w' -> well_kept epc').
Proof.
  intros K.
  assert (N : forall r epc' w',
             NextCh fuel req epc w = Ret r epc' w' -> well_kept epc').
  { intros r epc' w' H. unfold NextCh in H. unfold bind at 1 in H. unfold get in H.
    unbinding H as u epc1 w1 Hm. destruct u.
    eapply retry_keeps; [exact H|].
    destruct (watch epc) as [s0|].
    - unfold ret in Hm. inversion Hm; subst. exact K.
    - unbinding Hm as b epc2 w2 Hdial. unfold ret in Hm. inversion Hm; subst.
      exact (proj1 (dial_keeps Hdial K)). }
  split; [exact N|].
  split; [|split; [intros delay; reflexivity|]];
    [|intros r epc' w' H; destruct (Next_dying H) as [sent [H' _]];
      exact (N _ _ _ H')].
  intros r epc' w' H. unfold Next in H.
  unbinding H as rc epc1 w1 Hm. destruct rc as [ch c].
  pose proof (N _ _ _ Hm) as K1.
  destruct c.
  - unfold ret in H. inversion H; subst. exact K1.
  - unfold bind at 1 in H. unfold get in H.
    destruct (data epc1); [|discriminate H].
    unbinding H as items epc2 w2 Hr. unfold ret in H. inversion H; subst.
    destruct ch as [|[sent|sent]]; simpl in Hr; try discriminate Hr;
      unfold ret in Hr; inversion Hr; subst; exact K1.
Qed.
End Keeping.

(** ** Reconnection *)

Section Reconnect.
Context {schema : Schema}.
Local Open Scope go_scope.

Lemma paired_counts_both (a : list Event) :
  (paired a ->
   List.length (filter is_new a) = List.length (filter is_connection a))
  /\ (forall e, paired (e :: a) ->
        List.length (filter is_new (e :: a)) =
          List.length (filter is_connection (e :: a))).
Proof.
  induction a as [|x a [IH1 IH2]].
  - split; [auto|]. intros e He.
    destruct e as [| c [|] | | | | | | | |]; simpl in *; try contradiction; auto.
  - split; [apply IH2|].
    intros e He.
    destruct e as [| c [|] | | | | | | | |]; simpl in He;
      try contradiction; try (exact (IH2 _ He)).
    destruct x as [| c [|] | | | | | | | |]; simpl in He; try contradiction.
    simpl. f_equal. apply IH1. exact He.
Qed.

(** Stores made and watches started are as many. *)
Lemma paired_counts (tr : list Event) :
  paired tr ->
  List.length (filter is_new tr) = List.length (filter is_connection tr).
Proof. apply paired_counts_both. Qed.

(** A plain operation leaves no send, no receive, no failure and no new
    store in the trace. *)
Lemma applyOp_plain_trace (op : localnetv1.OpItem) epc w (t : list kv) :
  plain op = true -> data epc = Some t ->
  exists w' new,
    applyOp op epc w = Ret ContinueApply (set_data (Some (effect op t)) epc) w'
    /\ recvs w' = recvs w /\ sends w' = sends w /\ dials w' = dials w
    /\ watches w' = watches w /\ now w' = now w /\ cancelAt w' = cancelAt w
    /\ serial w' = serial w
    /\ trace w' = new ++ trace w
    /\ forallb aside new = true.
Proof.
  unfold plain, applyOp, effect. intros Hp Hd.
  assert (Same : set_data (Some t) epc = epc).
  { destruct epc; simpl in *; subst; reflexivity. }
  destruct (localnetv1.Op op) as [[set|ref|]|]; try discriminate.
  - destruct (localnetv1.Ref_ set) as [ref|]; [|discriminate].
    destruct (empty_for (localnetv1.Ref_Set ref)) as [v|].
    + run. destruct (Unmarshal (localnetv1.Bytes set) v) as [m|].
      * rewrite Hd. eexists. exists [EvUnmarshal (localnetv1.Bytes set) v true].
        split; [reflexivity|]. simpl. tauto.
      * rewrite Same. eexists.
        exists [EvLog "failed to parse value: ";
                EvUnmarshal (localnetv1.Bytes set) v false].
        split; [reflexivity|]. simpl. tauto.
    + rewrite Same. eexists. exists []. split; [reflexivity|]. simpl. tauto.
  - run. rewrite Hd. eexists. exists []. split; [reflexivity|]. simpl. tauto.
  - rewrite Same. eexists. exists []. split; [reflexivity|]. simpl. tauto.
Qed.

Lemma received_app (n1 n2 : list Event) :
  received (n2 ++ n1) = received n1 ++ received n2.
Proof.
  induction n2 as [|e n2 IH]; simpl; [rewrite app_nil_r; reflexivity|].
  destruct e; auto. destruct op; auto. rewrite IH, app_assoc. reflexivity.
Qed.

(** The loop takes plain operations one after the other, in the time they
    take to arrive; the trace gets their receives and nothing of the
    connection. *)
Lemma apply_plain_traced (rs : list (nat * localnetv1.OpItem)) :
  forall fuel epc w s (t : list kv) tail,
    watch epc = Some s -> data epc = Some t ->
    recvs w = arriving rs ++ tail ->
    Forall (fun r => plain (snd r) = true) rs ->
    exists w' new,
      apply (List.length rs + fuel) epc w =
        apply fuel (set_data (Some (effects (map snd rs) t)) epc) w'
      /\ recvs w' = tail /\ sends w' = sends w /\ dials w' = dials w
      /\ watches w' = watches w /\ cancelAt w' = cancelAt w
      /\ serial w' = serial w
      /\ now w' = now w + total rs
      /\ trace w' = new ++ trace w
      /\ clean new /\ existsb is_send new = false
      /\ existsb is_connection new = false
      /\ received new = map snd rs.
Proof.
  induction rs as [|[d op] rs IH]; intros fuel epc w s t tail Hw Hd Hr Hp.
  - exists w, []. simpl in *. split.
    { destruct epc; simpl in *; subst; reflexivity. }
    unfold clean. simpl. repeat split; auto.
  - inversion Hp; subst. simpl in H1.
    cbn [List.length plus]. simpl in Hr.
    rewrite (apply_turn (List.length rs + fuel) Hw Hr).
    set (w0 := happen (EvRecv s (Some op)) (pass d (set_recvs (arriving rs ++ tail) w))).
    destruct (applyOp_plain_trace w0 H1 Hd)
      as [w1 [na [Ha [Hr1 [Hs1 [Hd1 [Hw1 [Hn1 [Hc1 [Hx1 [Ta Aa]]]]]]]]]]].
    rewrite Ha.
    destruct (IH fuel (set_data (Some (effect op t)) epc) w1 s (effect op t) tail)
      as [w' [n2 [Hw' [Ht' [Hs' [Hd' [Hws' [Hc' [Hx' [Hn' [T2 [[F2 N2] [S2 [C2 R2]]]]]]]]]]]]]];
      auto.
    destruct (aside_facts Aa) as [A1 [A2 [A3 A4]]].
    destruct (no_recv_facts A2) as [A5 [A6 _]].
    assert (A7 : existsb is_failure na = false).
    { rewrite A5. clear - A1. induction na as [|e na IHn]; [reflexivity|].
      simpl in *. apply orb_false_iff in A1. destruct A1 as [E1 E2].
      rewrite (IHn E2), E1, andb_false_r. reflexivity. }
    exists w', (n2 ++ na ++ [EvRecv s (Some op)]).
    split; [rewrite Hw'; reflexivity|].
    split; [exact Ht'|].
    split; [rewrite Hs', Hs1; reflexivity|].
    split; [rewrite Hd', Hd1; reflexivity|].
    split; [rewrite Hws', Hw1; reflexivity|].
    split; [rewrite Hc', Hc1; reflexivity|].
    split; [rewrite Hx', Hx1; reflexivity|].
    split; [rewrite Hn', Hn1; simpl; lia|].
    split; [rewrite T2, Ta; unfold w0; simpl; rewrite <- !app_assoc; reflexivity|].
    unfold clean. rewrite !existsb_app, F2, N2, S2, C2, A7, A3, A1, A4. simpl.
    repeat split; auto.
    rewrite !received_app, R2, A6. simpl. reflexivity.
Qed.

(** A round without errors, with the world it leaves: the request is sent
    first, then come the receives of the operations, the [Sync] last. *)
Lemma round_traced (rs : list (nat * localnetv1.OpItem)) :
  forall fuel req epc w s (t : list kv) d1 ss dz op rest,
    watch epc = Some s -> data epc = Some t ->
    canceled w = false ->
    sends w = (d1, true) :: ss ->
    recvs w = arriving rs ++ (dz, Some op) :: rest ->
    localnetv1.Op op = Some OpItem_Sync ->
    Forall (fun r => plain (snd r) = true) rs ->
    let t' := effects (map snd rs) t in
    exists w' mid,
      NextCh (2 + List.length rs + fuel) req epc w =
        Ret (FedBy (grouper t'), false) (set_data (Some t') epc) w'
      /\ sends w' = ss /\ recvs w' = rest /\ dials w' = dials w
      /\ watches w' = watches w /\ cancelAt w' = cancelAt w
      /\ serial w' = serial w
      /\ now w' = now w + d1 + total rs + dz
      /\ trace w' = EvRecv s (Some op) :: mid ++ EvSend s req true :: trace w
      /\ clean mid /\ existsb is_send mid = false
      /\ existsb is_connection mid = false
      /\ received mid = map snd rs.
Proof.
  intros fuel req epc w s t d1 ss dz op rest Hw Hd Hc Hs Hr Hop Hp t'.
  set (w1 := happen (EvSend s req true) (pass d1 (set_sends ss w))).
  destruct (apply_plain_traced (S fuel) (epc:=epc) (w:=w1) (s:=s) (t:=t)
              (tail:=(dz, Some op) :: rest) Hw Hd Hr Hp)
    as [w2 [mid [Ha [Ht [Hs2 [Hd2 [Hw2' [Hc2 [Hx2 [Hn2 [T2 [Cl [S2 [C2 R2]]]]]]]]]]]]]].
  fold t' in Ha.
  assert (Hw2 : watch (set_data (Some t') epc) = Some s) by exact Hw.
  rewrite (apply_turn fuel Hw2 Ht) in Ha.
  unfold applyOp in Ha. rewrite Hop in Ha. unfold ret in Ha.
  exists (happen (EvRecv s (Some op)) (pass dz (set_recvs rest w2))), mid.
  split.
  { rewrite NextCh_watching with (s:=s) by exact Hw.
    replace (2 + List.length rs + fuel) with (S (List.length rs + S fuel)) by lia.
    rewrite retry_sends with (s:=s) (d:=d1) (ss:=ss) by assumption. fold w1.
    rewrite Ha. run. reflexivity. }
  simpl. rewrite Hs2, Hd2, Hw2', Hc2, Hn2, Hx2, T2. unfold w1. simpl.
  repeat split; auto; try lia; apply Cl.
Qed.

(** After an error on an open connection, with the context not canceled
    and a server that answers: [postError] closes the stream and the
    connection, sleeps [ErrorDelay] once, dials once, starts a watch and
    makes a new store, in this order. *)
Lemma postError_redials (fuel : nat) epc w s c dd ds dw ws :
  watch epc = Some s -> conn epc = Some c -> cancelAt w = None ->
  dials w = (dd, DialOk) :: ds -> watches w = (dw, true) :: ws ->
  exists w',
    postError (S fuel) epc w =
      Ret tt {| ErrorDelay := ErrorDelay epc; conn := Some (serial w);
                watch := Some (serial w); data := Some (btree.New 2) |} w'
    /\ sends w' = sends w /\ recvs w' = recvs w /\ cancelAt w' = None
    /\ dials w' = ds /\ watches w' = ws
    /\ serial w' = S (serial w)
    /\ now w' = now w + ErrorDelay epc + dd + dw
    /\ trace w' =
         EvNew :: EvWatch (serial w) true :: EvDialContext DialOk
           :: EvLog "connecting to "
           :: EvSleep (now w) (ErrorDelay epc)
           :: EvClose c :: EvCloseSend s :: trace w.
Proof.
  intros Hw Hcn Hc Hd Hws.
  unfold postError. cbn [dial]. unfold Dial, DialContext, Watch, errorSleep. run.
  rewrite Hw, Hcn. unfold canceled.
  destruct epc as [delay cn ws0 dt]; cbn [conn watch set_conn set_watch ErrorDelay];
    run;
    repeat (progress (cbn [cancelAt dials watches happen pass next_serial
                           set_dials set_watches];
                      rewrite ?Hc, ?Hd, ?Hws; cbn beta iota));
    (eexists; split; [reflexivity|]); simpl; repeat split; auto; lia.
Qed.

(** The start of a round whose send fails. *)
Lemma retry_send_fails (fuel : nat) (req : localnetv1.WatchReq) epc w s d ss :
  watch epc = Some s -> canceled w = false -> sends w = (d, false) :: ss ->
  retry (S fuel) req epc w =
    (postError fuel ;; retry fuel req) epc
      (happen (EvSend s req false) (pass d (set_sends ss w))).
Proof.
  intros Hw Hc Hs. cbn [retry]. unfold bind at 1. unfold ctx_Err. rewrite Hc.
  unfold bind at 1. unfold Send. rewrite Hw, Hs. reflexivity.
Qed.

(** A round whose send fails, with a server that answers the dial: the
    stream and the connection are closed, the client sleeps [ErrorDelay]
    from the time of the failure, dials, starts a watch on the new
    connection, makes a new store and sends the request again; then it
    receives up to the [Sync]. [NextCh] returns the aggregates of the
    operations received on the new stream, applied to the empty store. *)
Lemma resend_round_returns (rs : list (nat * localnetv1.OpItem))
    fuel req epc w s c (t : list kv) d1 d2 ss dd ds dw ws dz sync rest :
  watch epc = Some s -> conn epc = Some c -> data epc = Some t ->
  cancelAt w = None ->
  sends w = (d1, false) :: (d2, true) :: ss ->
  recvs w = arriving rs ++ (dz, Some sync) :: rest ->
  dials w = (dd, DialOk) :: ds -> watches w = (dw, true) :: ws ->
  localnetv1.Op sync = Some OpItem_Sync ->
  Forall (fun r => plain (snd r) = true) rs ->
  exists w' mid,
    NextCh (3 + List.length rs + fuel) req epc w =
      Ret (FedBy (grouper (effects (map snd rs) (btree.New 2))), false)
          {| ErrorDelay := ErrorDelay epc; conn := Some (serial w);
             watch := Some (serial w);
             data := Some (effects (map snd rs) (btree.New 2)) |} w'
    /\ trace w' =
         EvRecv (serial w) (Some sync) :: mid
           ++ EvSend (serial w) req true
           :: EvNew :: EvWatch (serial w) true :: EvDialContext DialOk
           :: EvLog "connecting to "
           :: EvSleep (now w + d1) (ErrorDelay epc)
           :: EvClose c :: EvCloseSend s
           :: EvSend s req false :: trace w
    /\ clean mid /\ existsb is_send mid = false
    /\ existsb is_connection mid = false
    /\ received mid = map snd rs
    /\ now w' = now w + d1 + ErrorDelay epc + dd + dw + d2 + total rs + dz
    /\ sends w' = ss /\ recvs w' = rest /\ dials w' = ds /\ watches w' = ws
    /\ serial w' = S (serial w).
Proof.
  intros Hw Hcn Hd Hc Hs Hr Hdl Hws Hsync Hp.
  assert (Hnc : canceled w = false).
  { unfold canceled. rewrite Hc. reflexivity. }
  rewrite NextCh_watching with (s:=s) by exact Hw.
  replace (3 + List.length rs + fuel) with (S (S (S (List.length rs + fuel)))) by lia.
  rewrite retry_send_fails with (s:=s) (d:=d1) (ss:=(d2, true) :: ss); auto.
  set (w1 := happen (EvSend s req false) (pass d1 (set_sends ((d2, true) :: ss) w))).
  assert (Hc1 : cancelAt w1 = None) by exact Hc.
  assert (Hd1 : dials w1 = (dd, DialOk) :: ds) by exact Hdl.
  assert (Hws1 : watches w1 = (dw, true) :: ws) by exact Hws.
  destruct (postError_redials (S (List.length rs + fuel)) Hw Hcn Hc1 Hd1 Hws1)
    as [w2 [Hpe [Hs2 [Hr2 [Hc2 [Hd2 [Hws2 [Hx2 [Hn2 T2]]]]]]]]].
  unfold bind at 1. rewrite Hpe. clear Hpe.
  set (epc2 := {| ErrorDelay := ErrorDelay epc; conn := Some (serial w1);
                  watch := Some (serial w1); data := Some (btree.New 2) |}).
  assert (Hs2' : sends w2 = (d2, true) :: ss) by (rewrite Hs2; reflexivity).
  assert (Hr2' : recvs w2 = arriving rs ++ (dz, Some sync) :: rest).
  { rewrite Hr2. exact Hr. }
  assert (Hnc2 : canceled w2 = false).
  { unfold canceled. rewrite Hc2. reflexivity. }
  destruct (round_traced (rs:=rs) fuel req (epc:=epc2) (w:=w2) (s:=serial w1)
              (t:=btree.New 2) eq_refl eq_refl Hnc2 Hs2' Hr2' Hsync Hp)
    as [w3 [mid [HN [Hs3 [Hr3 [Hd3 [Hws3 [Hc3 [Hx3 [Hn3 [T3 [Cl [S3 [C3 R3]]]]]]]]]]]]]].
  rewrite NextCh_watching with (s:=serial w1) in HN by reflexivity.
  cbn [plus] in HN. rewrite HN.
  exists w3, mid. split; [reflexivity|].
  split; [rewrite T3, T2; reflexivity|].
  split; [exact Cl|]. split; [exact S3|]. split; [exact C3|]. split; [exact R3|].
  split; [rewrite Hn3, Hn2; unfold w1; simpl; lia|].
  split; [exact Hs3|]. split; [exact Hr3|].
  split; [rewrite Hd3; exact Hd2|]. split; [rewrite Hws3; exact Hws2|].
  rewrite Hx3. exact Hx2.
Qed.

(** The same after a failed receive: the operations received before the
    failure are applied and then dropped with the store, the failure is
    logged, and the round starts again on a new connection. *)
Lemma rereceive_round_returns (rs1 rs2 : list (nat * localnetv1.OpItem))
    fuel req epc w s c (t : list kv) d1 d2 ss df dd ds dw ws dz sync rest :
  watch epc = Some s -> conn epc = Some c -> data epc = Some t ->
  cancelAt w = None ->
  sends w = (d1, true) :: (d2, true) :: ss ->
  recvs w = arriving rs1 ++ (df, None) :: arriving rs2 ++ (dz, Some sync) :: rest ->
  dials w = (dd, DialOk) :: ds -> watches w = (dw, true) :: ws ->
  localnetv1.Op sync = Some OpItem_Sync ->
  Forall (fun r => plain (snd r) = true) rs1 ->
  Forall (fun r => plain (snd r) = true) rs2 ->
  exists w' mid1 mid2,
    NextCh (3 + List.length rs1 + List.length rs2 + fuel) req epc w =
      Ret (FedBy (grouper (effects (map snd rs2) (btree.New 2))), false)
          {| ErrorDelay := ErrorDelay epc; conn := Some (serial w);
             watch := Some (serial w);
             data := Some (effects (map snd rs2) (btree.New 2)) |} w'
    /\ trace w' =
         EvRecv (serial w) (Some sync) :: mid2
           ++ EvSend (serial w) req true
           :: EvNew :: EvWatch (serial w) true :: EvDialContext DialOk
           :: EvLog "connecting to "
           :: EvSleep (now w + d1 + total rs1 + df) (ErrorDelay epc)
           :: EvClose c :: EvCloseSend s
           :: EvLog "watch recv failed: " :: EvRecv s None :: mid1
           ++ EvSend s req true :: trace w
    /\ clean mid1 /\ existsb is_send mid1 = false
    /\ existsb is_connection mid1 = false /\ received mid1 = map snd rs1
    /\ clean mid2 /\ existsb is_send mid2 = false
    /\ existsb is_connection mid2 = false /\ received mid2 = map snd rs2
    /\ now w' = now w + d1 + total rs1 + df + ErrorDelay epc + dd + dw + d2
                + total rs2 + dz
    /\ sends w' = ss /\ recvs w' = rest /\ dials w' = ds /\ watches w' = ws
    /\ serial w' = S (serial w).
Proof.
  intros Hw Hcn Hd Hc Hs Hr Hdl Hws Hsync Hp1 Hp2.
  assert (Hnc : canceled w = false).
  { unfold canceled. rewrite Hc. reflexivity. }
  rewrite NextCh_watching with (s:=s) by exact Hw.
  replace (3 + List.length rs1 + List.length rs2 + fuel)
    with (S (List.length rs1 + S (S (List.length rs2 + fuel)))) by lia.
  rewrite retry_sends with (s:=s) (d:=d1) (ss:=(d2, true) :: ss); auto.
  set (w1 := happen (EvSend s req true) (pass d1 (set_sends ((d2, true) :: ss) w))).
  destruct (apply_plain_traced (S (S (List.length rs2 + fuel)))
              (epc:=epc) (w:=w1) (s:=s) (t:=t)
              (tail:=(df, None) :: arriving rs2 ++ (dz, Some sync) :: rest)
              Hw Hd Hr Hp1)
    as [w2 [mid1 [Ha [Hr2 [Hs2 [Hd2 [Hws2 [Hc2 [Hx2 [Hn2 [T2 [Cl1 [S1 [C1 R1]]]]]]]]]]]]]].
  rewrite Ha. clear Ha.
  set (epc2 := set_data (Some (effects (map snd rs1) t)) epc).
  assert (Hw2 : watch epc2 = Some s) by exact Hw.
  assert (Hcn2 : conn epc2 = Some c) by exact Hcn.
  replace (List.length rs1 + S (S (List.length rs2 + fuel)))
    with (S (S (List.length rs2 + (List.length rs1 + fuel)))) by lia.
  cbn [apply]. unfold bind at 1. unfold Recv. rewrite Hw2, Hr2.
  unfold bind at 1. unfold klog, world. unfold bind at 1. unfold ret.
  set (w3 := happen (EvLog "watch recv failed: ")
               (happen (EvRecv s None)
                  (pass df (set_recvs (arriving rs2 ++ (dz, Some sync) :: rest) w2)))).
  assert (Hc3 : cancelAt w3 = None).
  { unfold w3. simpl. rewrite Hc2. exact Hc. }
  assert (Hd3 : dials w3 = (dd, DialOk) :: ds).
  { unfold w3. simpl. rewrite Hd2. exact Hdl. }
  assert (Hws3 : watches w3 = (dw, true) :: ws).
  { unfold w3. simpl. rewrite Hws2. exact Hws. }
  destruct (postError_redials (S (List.length rs2 + (List.length rs1 + fuel)))
              Hw2 Hcn2 Hc3 Hd3 Hws3)
    as [w4 [Hpe [Hs4 [Hr4 [Hc4 [Hd4 [Hws4 [Hx4 [Hn4 T4]]]]]]]]].
  rewrite Hpe. clear Hpe.
  set (epc4 := {| ErrorDelay := ErrorDelay epc2; conn := Some (serial w3);
                  watch := Some (serial w3); data := Some (btree.New 2) |}).
  assert (Hs4' : sends w4 = (d2, true) :: ss).
  { rewrite Hs4. unfold w3. simpl. rewrite Hs2. reflexivity. }
  assert (Hr4' : recvs w4 = arriving rs2 ++ (dz, Some sync) :: rest).
  { rewrite Hr4. reflexivity. }
  assert (Hnc4 : canceled w4 = false).
  { unfold canceled. rewrite Hc4. reflexivity. }
  destruct (round_traced (rs:=rs2) (List.length rs1 + fuel) req
              (epc:=epc4) (w:=w4) (s:=serial w3)
              (t:=btree.New 2) eq_refl eq_refl Hnc4 Hs4' Hr4' Hsync Hp2)
    as [w5 [mid2 [HN [Hs5 [Hr5 [Hd5 [Hws5 [Hc5 [Hx5 [Hn5 [T5 [Cl2 [S2 [C2 R2]]]]]]]]]]]]]].
  rewrite NextCh_watching with (s:=serial w3) in HN by reflexivity.
  cbn [plus] in HN. rewrite HN.
  assert (Hx3 : serial w3 = serial w).
  { unfold w3. simpl. rewrite Hx2. reflexivity. }
  assert (Hn3 : now w3 = now w + d1 + total rs1 + df).
  { unfold w3. simpl. rewrite Hn2. unfold w1. simpl. lia. }
  exists w5, mid1, mid2. split.
  { unfold epc4. rewrite Hx3. reflexivity. }
  split.
  { rewrite T5, T4, Hx3, Hn3. unfold w3. simpl. rewrite T2. unfold w1. simpl.
    repeat (f_equal; try (rewrite <- !app_assoc; simpl)). }
  split; [exact Cl1|]. split; [exact S1|]. split; [exact C1|]. split; [exact R1|].
  split; [exact Cl2|]. split; [exact S2|]. split; [exact C2|]. split; [exact R2|].
  split; [rewrite Hn5, Hn4, Hn3; simpl; lia|].
  split; [exact Hs5|]. split; [exact Hr5|].
  split; [rewrite Hd5; exact Hd4|]. split; [rewrite Hws5; exact Hws4|].
  rewrite Hx5, Hx4, Hx3. reflexivity.
Qed.

(** C3. A call of [NextCh] that returns without cancellation. The store at
    the return is the store at the call replayed over the events of the
    call, where each new store starts from empty; a new store is made
    exactly when a watch starts, once per watch; every request sent is the
    request of the call. When a send or a receive failed during the call,
    the trace of the call ends with the events of one working connection:
    they come after a new store that follows the last failure, the request
    was sent again among them, and the store and the aggregates of the
    goroutine are those of the operations received among them alone,
    applied in order to the empty store.

    Such calls do return: when a receive fails after some operations and
    the server then answers the dial, [NextCh] returns, given fuel for the
    operations, with the store and the aggregates of the operations
    received after the reconnection.

    When the send fails and the server then answers the dial, [NextCh]
    returns as well, and the trace of the call is, from the failed send on:
    the stream is closed, the connection is closed, the client sleeps
    [ErrorDelay] from the time of the failure, dials, starts a watch on the
    new connection, makes a new store, sends the request again on the new
    stream and receives up to the [Sync]; the client returned holds the new
    connection and the store of the operations received on it. The same
    holds after a failed receive, with the failure logged first and the
    operations received before it gone with the old store. *)
Theorem reconnect_restarts_the_round :
  (forall (fuel : nat) (req : localnetv1.WatchReq) epc w ch epc' w',
      NextCh fuel req epc w = Ret (ch, false) epc' w' ->
      exists new,
        trace w' = new ++ trace w
        /\ sends_only req new
        /\ paired new
        /\ List.length (filter is_new new) = List.length (filter is_connection new)
        /\ data epc' = replay (data epc) new
        /\ (existsb is_failure new = true ->
            exists post pre,
              new = post ++ EvNew :: pre
              /\ clean post
              /\ existsb is_failure pre = true
              /\ (exists s, In (EvSend s req true) post)
              /\ data epc' = Some (effects (received post) (btree.New 2))
              /\ ch = FedBy (grouper (effects (received post) (btree.New 2)))))
  /\ (forall (rs1 rs2 : list (nat * localnetv1.OpItem)) fuel req epc w s
             (t : list kv) d1 d2 ss df dd ds dw ws dz sync rest,
        watch epc = Some s -> data epc = Some t -> cancelAt w = None ->
        sends w = (d1, true) :: (d2, true) :: ss ->
        recvs w = arriving rs1 ++ (df, None)
                    :: arriving rs2 ++ (dz, Some sync) :: rest ->
        dials w = (dd, DialOk) :: ds -> watches w = (dw, true) :: ws ->
        localnetv1.Op sync = Some OpItem_Sync ->
        Forall (fun r => plain (snd r) = true) rs1 ->
        Forall (fun r => plain (snd r) = true) rs2 ->
        exists epc' w',
          NextCh (3 + List.length rs1 + List.length rs2 + fuel) req epc w =
            Ret (FedBy (grouper (effects (map snd rs2) (btree.New 2))), false)
                epc' w'
          /\ data epc' = Some (effects (map snd rs2) (btree.New 2)))
  /\ (forall (rs : list (nat * localnetv1.OpItem)) fuel req epc w s c
             (t : list kv) d1 d2 ss dd ds dw ws dz sync rest,
        watch epc = Some s -> conn epc = Some c -> data epc = Some t ->
        cancelAt w = None ->
        sends w = (d1, false) :: (d2, true) :: ss ->
        recvs w = arriving rs ++ (dz, Some sync) :: rest ->
        dials w = (dd, DialOk) :: ds -> watches w = (dw, true) :: ws ->
        localnetv1.Op sync = Some OpItem_Sync ->
        Forall (fun r => plain (snd r) = true) rs ->
        exists w' mid,
          NextCh (3 + List.length rs + fuel) req epc w =
            Ret (FedBy (grouper (effects (map snd rs) (btree.New 2))), false)
                {| ErrorDelay := ErrorDelay epc; conn := Some (serial w);
                   watch := Some (serial w);
                   data := Some (effects (map snd rs) (btree.New 2)) |} w'
          /\ trace w' =
               EvRecv (serial w) (Some sync) :: mid
                 ++ EvSend (serial w) req true
                 :: EvNew :: EvWatch (serial w) true :: EvDialContext DialOk
                 :: EvLog "connecting to "
                 :: EvSleep (now w + d1) (ErrorDelay epc)
                 :: EvClose c :: EvCloseSend s
                 :: EvSend s req false :: trace w
          /\ clean mid /\ existsb is_send mid = false
          /\ existsb is_connection mid = false
          /\ received mid = map snd rs
          /\ now w' = now w + d1 + ErrorDelay epc + dd + dw + d2 + total rs + dz
          /\ sends w' = ss /\ recvs w' = rest /\ dials w' = ds
          /\ watches w' = ws /\ serial w' = S (serial w))
  /\ (forall (rs1 rs2 : list (nat * localnetv1.OpItem)) fuel req epc w s c
             (t : list kv) d1 d2 ss df dd ds dw ws dz sync rest,
        watch epc = Some s -> conn epc = Some c -> data epc = Some t ->
        cancelAt w = None ->
        sends w = (d1, true) :: (d2, true) :: ss ->
        recvs w = arriving rs1 ++ (df, None)
                    :: arriving rs2 ++ (dz, Some sync) :: rest ->
        dials w = (dd, DialOk) :: ds -> watches w = (dw, true) :: ws ->
        localnetv1.Op sync = Some OpItem_Sync ->
        Forall (fun r => plain (snd r) = true) rs1 ->
        Forall (fun r => plain (snd r) = true) rs2 ->
        exists w' mid1 mid2,
          NextCh (3 + List.length rs1 + List.length rs2 + fuel) req epc w =
            Ret (FedBy (grouper (effects (map snd rs2) (btree.New 2))), false)
                {| ErrorDelay := ErrorDelay epc; conn := Some (serial w);
                   watch := Some (serial w);
                   data := Some (effects (map snd rs2) (btree.New 2)) |} w'
          /\ trace w' =
               EvRecv (serial w) (Some sync) :: mid2
                 ++ EvSend (serial w) req true
                 :: EvNew :: EvWatch (serial w) true :: EvDialContext DialOk
                 :: EvLog "connecting to "
                 :: EvSleep (now w + d1 + total rs1 + df) (ErrorDelay epc)
                 :: EvClose c :: EvCloseSend s
                 :: EvLog "watch recv failed: " :: EvRecv s None :: mid1
                 ++ EvSend s req true :: trace w
          /\ clean mid1 /\ existsb is_send mid1 = false
          /\ existsb is_connection mid1 = false /\ received mid1 = map snd rs1
          /\ clean mid2 /\ existsb is_send mid2 = false
          /\ existsb is_connection mid2 = false /\ received mid2 = map snd rs2
          /\ now w' = now w + d1 + total rs1 + df + ErrorDelay epc + dd + dw + d2
                      + total rs2 + dz
          /\ sends w' = ss /\ recvs w' = rest /\ dials w' = ds
          /\ watches w' = ws /\ serial w' = S (serial w)).
Proof.
  split; [|split; [intros; eapply reconnect_round_returns; eassumption|
                   split; [intros; eapply resend_round_returns; eassumption|
                           intros; eapply rereceive_round_returns; eassumption]]].
  intros fuel req epc w ch epc' w' H. pose proof (NextCh_result H) as Hres.
  destruct Hres as [[Hc _]|[_ Hch]]; [discriminate|].
  assert (Core : exists new,
             extends w w' new /\ sends_only req new /\ paired new
             /\ data epc' = replay (data epc) new
             /\ (existsb is_failure new = true ->
                 exists post pre,
                   new = post ++ EvNew :: pre /\ clean post
                   /\ existsb is_failure pre = true
                   /\ exists s, In (EvSend s req true) post)).
  { unfold NextCh in H. unfold bind at 1 in H. unfold get in H.
    unbinding H as u epc1 w1 Hm. destruct u.
    destruct (watch epc) as [s0|] eqn:Hw.
    - unfold ret in Hm. inversion Hm; subst; clear Hm.
      destruct (retry_trace H) as [n [Hx [Hs [Hp [Hd Dis]]]]].
      exists n. repeat (split; [assumption|]).
      intros Hf. destruct Dis as [[[Hcl _] _]|Dec]; [congruence|exact Dec].
    - unbinding Hm as b epc2 w2 Hdial. unfold ret in Hm. inversion Hm; subst; clear Hm.
      destruct (dial_trace Hdial) as [nd [Hxd [Sd [Rd [Pd [Dd _]]]]]].
      destruct (retry_trace H) as [n [Hx [Hs [Hp [Hd Dis]]]]].
      exists (n ++ nd).
      split; [eapply extends_trans; eauto|].
      split; [apply sends_only_app; [exact Hs|apply sends_only_none; exact Sd]|].
      split; [apply paired_app; assumption|].
      split; [rewrite replay_app, <- Dd; exact Hd|].
      intros Hf. destruct Dis as [[[Hcl _] _]|[post [pre [E [Hcl [Hfp Hin]]]]]].
      + rewrite existsb_app, Hcl, (no_send_no_recv Sd Rd) in Hf. discriminate.
      + exists post, (pre ++ nd).
        split; [rewrite E, <- app_assoc; reflexivity|].
        split; [exact Hcl|]. split; [|exact Hin].
        rewrite existsb_app, Hfp. reflexivity. }
  destruct Core as [new [[Ht _] [Hs [Hp [Hd Hf]]]]].
  exists new. split; [exact Ht|]. split; [exact Hs|]. split; [exact Hp|].
  split; [apply paired_counts; exact Hp|]. split; [exact Hd|].
  intros Hfail. destruct (Hf Hfail) as [post [pre [E [Hcl [Hfp Hin]]]]].
  exists post, pre.
  assert (Hd' : data epc' = Some (effects (received post) (btree.New 2))).
  { rewrite Hd, E. apply replay_since_new. apply Hcl. }
  repeat (split; [assumption|]).
  rewrite Hch, Hd'. reflexivity.
Qed.
End Reconnect.

Lemma taken_refl {A : Type} (l : list A) : taken l l.
Proof. exists []. reflexivity. Qed.

Lemma taken_trans {A : Type} (a b c : list A) : taken a b -> taken b c -> taken a c.
Proof. intros [u ->] [v ->]. exists (u ++ v). rewrite app_assoc. reflexivity. Qed.

Lemma taken_one {A : Type} (x : A) (l : list A) : taken (x :: l) l.
Proof. exists [x]. reflexivity. Qed.


Ltac joined :=
  repeat first [rewrite <- app_assoc | rewrite <- app_comm_cons]; reflexivity.

Ltac count := unfold attempts, naps in *; simpl in *; lia.

Ltac followed :=
  unfold follows; simpl;
  repeat match goal with
         | H : dials _ = _ :: _ |- _ => rewrite H
         | H : watches _ = _ :: _ |- _ => rewrite H
         | H : sends _ = _ :: _ |- _ => rewrite H
         | H : recvs _ = _ :: _ |- _ => rewrite H
         end;
  repeat split; try apply taken_refl; try apply taken_one; try reflexivity; try lia.

Section Conducting.
Context {schema : Schema}.
Local Open Scope go_scope.

Lemma wire_trace_app (delay : nat) (n2 n1 : list Event) (s : Wire) :
  wire_trace delay (n2 ++ n1) s =
    match wire_trace delay n1 s with
    | Some s1 => wire_trace delay n2 s1
    | None => None
    end.
Proof.
  induction n2 as [|e n2 IH]; simpl.
  - destruct (wire_trace delay n1 s); reflexivity.
  - rewrite IH. destruct (wire_trace delay n1 s); reflexivity.
Qed.

Lemma attempts_app (a b : list Event) : attempts (a ++ b) = attempts a + attempts b.
Proof. unfold attempts. rewrite filter_app, length_app. reflexivity. Qed.

Lemma naps_app (a b : list Event) : naps (a ++ b) = naps a + naps b.
Proof. unfold naps. rewrite filter_app, length_app. reflexivity. Qed.

Lemma follows_refl (w : World) : follows w w.
Proof. repeat split; try apply taken_refl; auto. Qed.

Lemma follows_trans (w w1 w2 : World) : follows w w1 -> follows w1 w2 -> follows w w2.
Proof.
  intros [A [B [C [D [E F]]]]] [A' [B' [C' [D' [E' F']]]]].
  repeat split; try (eapply taken_trans; eauto); [congruence|lia].
Qed.


Lemma aside_wire (delay : nat) (c : ClientConn) (tr : list Event) :
  forallb (fun e => match e with EvUnmarshal _ _ _ | EvLog _ => true | _ => false end) tr = true ->
  wire_trace delay tr (Streaming c) = Some (Streaming c)
  /\ attempts tr = 0 /\ naps tr = 0.
Proof.
  induction tr as [|e tr IH]; simpl; [auto|].
  intros H. apply andb_true_iff in H. destruct H as [He Ht].
  destruct (IH Ht) as [-> [A N]].
  destruct e; try discriminate; simpl; auto.
Qed.

(** One operation: the events are a decoding and a log line at most, and
    the transport is asked nothing. *)
Lemma applyOp_run (op : localnetv1.OpItem) epc w t epc' w' :
  applyOp op epc w = Ret t epc' w' ->
  exists new,
    trace w' = new ++ trace w /\ now w' = now w
    /\ forallb (fun e => match e with EvUnmarshal _ _ _ | EvLog _ => true | _ => false end) new = true
    /\ follows w w'.
Proof.
  unfold applyOp.
  destruct (localnetv1.Op op) as [[set|ref|]|].
  - destruct (localnetv1.Ref_ set) as [ref|]; [|intros H; discriminate H].
    destruct (empty_for (localnetv1.Ref_Set ref)) as [v|].
    + run. destruct (Unmarshal (localnetv1.Bytes set) v) as [m|].
      * destruct (data epc) as [d|]; [|intros H; discriminate H].
        intros H; inversion H; subst.
        exists [EvUnmarshal (localnetv1.Bytes set) v true].
        simpl. repeat split; auto; followed.
      * intros H; inversion H; subst.
        exists [EvLog "failed to parse value: ";
                EvUnmarshal (localnetv1.Bytes set) v false].
        simpl. repeat split; auto; followed.
    + run. intros H; inversion H; subst. exists [].
      simpl. repeat split; auto; followed.
  - run. destruct (data epc) as [d|]; [|intros H; discriminate H].
    intros H; inversion H; subst. exists [].
    simpl. repeat split; auto; followed.
  - run. intros H; inversion H; subst. exists [].
    simpl. repeat split; auto; followed.
  - run. intros H; inversion H; subst. exists [].
    simpl. repeat split; auto; followed.
Qed.

(** The [apply] loop stays on the watch it is given. *)
Lemma apply_run (fuel : nat) :
  forall epc w a epc' w' s,
    apply fuel epc w = Ret a epc' w' ->
    watch epc = Some s ->
    exists new,
      trace w' = new ++ trace w /\ now w <= now w'
      /\ wire_trace (ErrorDelay epc) new (Streaming s) = Some (Streaming s)
      /\ attempts new = 0 /\ naps new = 0
      /\ follows w w'
      /\ ErrorDelay epc' = ErrorDelay epc /\ conn epc' = conn epc
      /\ watch epc' = watch epc.
Proof.
  induction fuel as [|fuel IH]; intros epc w a epc' w' s H Hs; [discriminate|].
  cbn [apply] in H. unbinding H as r epc1 w1 Hm.
  unfold Recv in Hm. rewrite Hs in Hm.
  destruct (recvs w) as [|[d r'] rest] eqn:Hr; [discriminate Hm|].
  inversion Hm; subst r' epc1 w1; clear Hm.
  assert (F1 : follows w (happen (EvRecv s r) (pass d (set_recvs rest w)))).
  { followed. }
  destruct r as [op|].
  - unbinding H as t epc2 w2 Hm.
    destruct (applyOp_run Hm) as [na [Ta [Na [Aa Fa]]]].
    destruct (applyOp_effect Hm) as [_ [He [Hc Hw]]].
    destruct (aside_wire (ErrorDelay epc) s Aa) as [Wa [Ca Sa]].
    destruct t.
    + rewrite <- Hw in Hs.
      destruct (IH _ _ _ _ _ _ H Hs) as [n2 [T2 [N2 [W2 [C2 [S2 [F2 [E2 [K2 V2]]]]]]]]].
      exists (n2 ++ na ++ [EvRecv s (Some op)]).
      split; [rewrite T2, Ta; simpl; rewrite <- !app_assoc; reflexivity|].
      split; [rewrite Na in N2; simpl in N2; lia|].
      split.
      { rewrite !wire_trace_app. simpl. rewrite Nat.eqb_refl, Wa.
        rewrite He in W2. exact W2. }
      split; [rewrite !attempts_app, C2, Ca; reflexivity|].
      split; [rewrite !naps_app, S2, Sa; reflexivity|].
      split; [eapply follows_trans; [exact F1|eapply follows_trans; eauto]|].
      repeat split; congruence.
    + unfold ret in H. inversion H; subst.
      exists (na ++ [EvRecv s (Some op)]).
      split; [rewrite Ta; simpl; rewrite <- !app_assoc; reflexivity|].
      split; [rewrite Na; simpl; lia|].
      split; [rewrite !wire_trace_app; simpl; rewrite Nat.eqb_refl; exact Wa|].
      split; [rewrite !attempts_app, Ca; reflexivity|].
      split; [rewrite !naps_app, Sa; reflexivity|].
      split; [eapply follows_trans; eauto|].
      repeat split; congruence.
  - revert H. run. intros H; inversion H; subst.
    exists [EvLog "watch recv failed: "; EvRecv s None].
    simpl. rewrite Nat.eqb_refl.
    repeat split; auto; try lia; followed.
Qed.

(** [dial]: from [Ready], each failure is followed by a sleep of
    [ErrorDelay] before the next attempt; it ends on a watch that has
    started, or canceled. *)
Lemma dial_run (fuel : nat) :
  forall epc w b epc' w',
    dial fuel epc w = Ret b epc' w' ->
    exists new,
      trace w' = new ++ trace w
      /\ now w + ErrorDelay epc * naps new <= now w'
      /\ attempts new <= naps new + 1
      /\ follows w w'
      /\ ErrorDelay epc' = ErrorDelay epc
      /\ (exists st,
            wire_trace (ErrorDelay epc) new Ready = Some st
            /\ (b = false ->
                  exists c, st = Streaming c /\ watch epc' = Some c
                            /\ conn epc' = Some c)
            /\ (b = true -> st = Ready \/ st = Tired))
      /\ (b = true -> watch epc = None -> watch epc' = None)
      /\ (b = true ->
          forall t0, t0 <= now w ->
            Forall (fun a => unforged (cancelAt w) t0 a = true) (dials w) ->
            canceled w' = true).
Proof.
  induction fuel as [|fuel IH]; intros epc w b epc' w' H; [discriminate|].
  cbn [dial] in H. unfold Dial, DialContext, Watch, errorSleep in H.
  unfold klog, bind, ret, get, modify, world, ctx_Err in H.
  destruct (canceled w) eqn:Hc.
  { inversion H; subst. exists []. simpl.
    split; [reflexivity|]. split; [count|]. split; [count|].
    split; [apply follows_refl|]. split; [reflexivity|].
    split; [exists Ready; repeat split; auto; discriminate|].
    auto. }
  cbn [dials happen] in H.
  destruct (dials w) as [|[d [| |]] rest] eqn:Hd; [discriminate| | |].
  - cbn [watches happen next_serial pass set_dials] in H.
    destruct (watches w) as [|[d' [|]] rest'] eqn:Hw; [discriminate| |].
    + inversion H; subst.
      exists [EvNew; EvWatch (serial w) true; EvDialContext DialOk; EvLog "connecting to "].
      simpl. split; [reflexivity|]. split; [count|]. split; [count|].
      split.
      { followed. }
      split; [reflexivity|].
      split.
      { exists (Streaming (serial w)). split; [reflexivity|].
        split; [|discriminate]. intros _. exists (serial w). auto. }
      split; discriminate.
    + apply IH in H.
      destruct H as [n2 [T2 [N2 [C2 [F2 [E2 [[st [W2 [B2 B2']]] [V2 U2]]]]]]]].
      cbn [ErrorDelay set_conn set_watch now pass happen] in *.
      exists (n2 ++ [EvSleep (now w + d + d') (ErrorDelay epc);
                     EvLog "failed to start watch: "; EvClose (serial w);
                     EvWatch (serial w) false; EvDialContext DialOk; EvLog "connecting to "]).
      split; [rewrite T2; simpl; rewrite <- app_assoc; reflexivity|].
      split; [rewrite naps_app; count|].
      split; [rewrite attempts_app, naps_app; count|].
      split.
      { eapply follows_trans; [|exact F2].
        followed. }
      split; [exact E2|].
      split.
      { exists st. split; [|split; assumption].
        rewrite wire_trace_app. simpl. rewrite !Nat.eqb_refl. exact W2. }
      split; [intros Hb _; apply V2; auto|].
      intros Hb t0 Ht Hf. apply (U2 Hb t0); [simpl; lia|].
      simpl. inversion Hf; assumption.
  - inversion H; subst.
    exists [EvDialContext DialCanceled; EvLog "connecting to "].
    simpl. split; [reflexivity|]. split; [count|]. split; [count|].
    split.
    { followed. }
    split; [reflexivity|].
    split; [exists Tired; repeat split; auto; discriminate|].
    split; [auto|].
    intros _ t0 Ht Hf. inversion Hf as [|x l Hx]; subst.
    unfold unforged in Hx. unfold canceled. simpl in *.
    destruct (cancelAt w) as [c|]; [|discriminate Hx].
    apply Nat.leb_le in Hx. apply Nat.leb_le. lia.
  - apply IH in H.
    destruct H as [n2 [T2 [N2 [C2 [F2 [E2 [[st [W2 [B2 B2']]] [V2 U2]]]]]]]].
    cbn [ErrorDelay set_conn set_watch now pass happen] in *.
    exists (n2 ++ [EvSleep (now w + d) (ErrorDelay epc);
                   EvLog "failed to connect: "; EvDialContext DialFailed; EvLog "connecting to "]).
    split; [rewrite T2; simpl; rewrite <- app_assoc; reflexivity|].
    split; [rewrite naps_app; count|].
    split; [rewrite attempts_app, naps_app; count|].
    split.
    { eapply follows_trans; [|exact F2].
      followed. }
    split; [exact E2|].
    split.
    { exists st. split; [|split; assumption].
      rewrite wire_trace_app. simpl. rewrite !Nat.eqb_refl. exact W2. }
    split; [intros Hb Hn; apply V2; auto|].
    intros Hb t0 Ht Hf. apply (U2 Hb t0); [simpl; lia|].
    simpl. inversion Hf; assumption.
Qed.

(** [postError]: the watch is half-closed and its connection closed, in
    this order; then the context is canceled, or a sleep comes before the
    dial. *)
Lemma postError_run (fuel : nat) epc w epc' w' :
  postError fuel epc w = Ret tt epc' w' ->
  exists new,
    trace w' = new ++ trace w
    /\ now w + ErrorDelay epc * naps new <= now w'
    /\ attempts new <= naps new
    /\ follows w w'
    /\ ErrorDelay epc' = ErrorDelay epc
    /\ linked epc'
    /\ (forall s, watch epc = Some s -> conn epc = Some s ->
          exists st, wire_trace (ErrorDelay epc) new (Streaming s) = Some st
                     /\ settled st epc')
    /\ (watch epc' = None ->
        forall t0, t0 <= now w ->
          Forall (fun a => unforged (cancelAt w) t0 a = true) (dials w) ->
          canceled w' = true).
Proof.
  unfold postError. unfold bind at 1. unfold get. intros H.
  unbinding H as u1 epc1 w1 Hm.
  assert (H1 : exists n1,
             trace w1 = n1 ++ trace w /\ now w1 = now w /\ cancelAt w1 = cancelAt w
             /\ dials w1 = dials w /\ follows w w1
             /\ watch epc1 = None /\ conn epc1 = conn epc
             /\ ErrorDelay epc1 = ErrorDelay epc
             /\ attempts n1 = 0 /\ naps n1 = 0
             /\ forall s, watch epc = Some s ->
                  wire_trace (ErrorDelay epc) n1 (Streaming s) = Some (Closing s)).
  { destruct (watch epc) as [s|] eqn:Hw.
    - revert Hm. run. intros Hm; inversion Hm; subst.
      exists [EvCloseSend s]. simpl.
      repeat split; auto; try followed.
      intros s' E. inversion E; subst. rewrite Nat.eqb_refl. reflexivity.
    - unfold ret in Hm. inversion Hm; subst. exists []. simpl.
      repeat split; auto; try followed; discriminate. }
  clear Hm. destruct H1 as [n1 [T1 [N1 [C1 [D1 [F1 [V1 [K1 [E1 [A1 [S1 W1]]]]]]]]]]].
  unbinding H as u2 epc2 w2 Hm.
  assert (H2 : exists n2,
             trace w2 = n2 ++ trace w1 /\ now w2 = now w1 /\ cancelAt w2 = cancelAt w1
             /\ dials w2 = dials w1 /\ follows w1 w2
             /\ watch epc2 = None /\ conn epc2 = None
             /\ ErrorDelay epc2 = ErrorDelay epc
             /\ attempts n2 = 0 /\ naps n2 = 0
             /\ forall s, conn epc = Some s ->
                  wire_trace (ErrorDelay epc) n2 (Closing s) = Some Tired).
  { destruct (conn epc) as [c|] eqn:Hc.
    - revert Hm. run. intros Hm; inversion Hm; subst.
      exists [EvClose c]. simpl.
      repeat split; auto; try followed.
      intros s' E. inversion E; subst. rewrite Nat.eqb_refl. reflexivity.
    - unfold ret in Hm. inversion Hm; subst. exists []. simpl.
      repeat split; auto; try followed; try congruence; discriminate. }
  clear Hm.
  destruct H2 as [n2 [T2 [N2 [C2 [D2 [F2 [V2 [K2 [E2 [A2 [S2 W2]]]]]]]]]]].
  pose proof (follows_trans F1 F2) as F12.
  unfold bind at 1 in H. unfold ctx_Err in H.
  destruct (canceled w2) eqn:Hc.
  - unfold ret in H. inversion H; subst.
    exists (n2 ++ n1).
    split; [rewrite T2, T1, app_assoc; reflexivity|].
    split; [rewrite naps_app, S1, S2; lia|].
    split; [rewrite attempts_app, A1, A2; lia|].
    split; [exact F12|]. split; [exact E2|].
    split; [intros s E; congruence|].
    split.
    { intros s Hw Hk. exists Tired. rewrite wire_trace_app, (W1 _ Hw), (W2 _ Hk).
      split; [reflexivity|]. unfold settled. rewrite V2. auto. }
    auto.
  - unfold bind at 1 in H. unfold errorSleep in H.
    unbinding H as b epc5 w5 Hm. unfold ret in H. inversion H; subst; clear H.
    destruct (dial_run Hm) as [n3 [T3 [N3 [C3 [F3 [E3 [[st [W3 [B3 B3']]] [V3 U3]]]]]]]].
    cbn [trace now pass happen dials] in *.
    exists (n3 ++ EvSleep (now w2) (ErrorDelay epc2) :: n2 ++ n1).
    split; [rewrite T3, T2, T1; joined|].
    split.
    { rewrite naps_app. change (naps (EvSleep (now w2) (ErrorDelay epc2) :: n2 ++ n1))
        with (S (naps (n2 ++ n1))). rewrite naps_app, S1, S2. rewrite E2 in *. lia. }
    split.
    { rewrite attempts_app, naps_app.
      change (naps (EvSleep (now w2) (ErrorDelay epc2) :: n2 ++ n1))
        with (S (naps (n2 ++ n1))).
      change (attempts (EvSleep (now w2) (ErrorDelay epc2) :: n2 ++ n1))
        with (attempts (n2 ++ n1)).
      rewrite naps_app, attempts_app, S1, S2, A1, A2. lia. }
    split.
    { eapply follows_trans; [exact F12|].
      eapply follows_trans; [|exact F3]. followed. }
    split; [congruence|].
    split.
    { intros s E. destruct b.
      - rewrite (V3 eq_refl V2) in E. discriminate.
      - destruct (B3 eq_refl) as [c [_ [Hw Hk]]]. congruence. }
    split.
    { intros s Hw Hk. exists st. split.
      - rewrite wire_trace_app. simpl.
        rewrite wire_trace_app, (W1 _ Hw), (W2 _ Hk), E2, Nat.eqb_refl.
        rewrite E2 in W3. exact W3.
      - unfold settled. destruct b.
        + rewrite (V3 eq_refl V2). auto.
        + destruct (B3 eq_refl) as [c [-> [Hw' _]]]. rewrite Hw'. reflexivity. }
    intros Hn t0 Ht Hf. destruct b.
    + apply (U3 eq_refl t0); [lia|].
      cbn [cancelAt pass happen]. rewrite C2, C1, D2, D1. exact Hf.
    + destruct (B3 eq_refl) as [c [_ [Hw' _]]]. congruence.
Qed.

Lemma settled_wire_of (epc : EndpointsClient) : settled (wire_of epc) epc.
Proof. unfold settled, wire_of. destruct (watch epc); auto. Qed.

(** A round, from the label [retry] on. *)
Lemma retry_run (fuel : nat) :
  forall req epc w r epc' w',
    retry fuel req epc w = Ret r epc' w' ->
    exists new,
      trace w' = new ++ trace w
      /\ now w + ErrorDelay epc * naps new <= now w'
      /\ attempts new <= naps new
      /\ follows w w'
      /\ ErrorDelay epc' = ErrorDelay epc
      /\ (linked epc -> linked epc')
      /\ (forall st0, linked epc -> settled st0 epc ->
            exists st, wire_trace (ErrorDelay epc) new st0 = Some st
                       /\ settled st epc')
      /\ (snd r = false -> exists s, watch epc' = Some s).
Proof.
  induction fuel as [|fuel IH]; intros req epc w r epc' w' H; [discriminate|].
  assert (Fail : forall epc_a w_a A s,
             trace w_a = A ++ trace w -> now w <= now w_a ->
             attempts A = 0 -> naps A = 0 -> follows w w_a ->
             ErrorDelay epc_a = ErrorDelay epc ->
             watch epc = Some s -> watch epc_a = Some s -> conn epc_a = conn epc ->
             wire_trace (ErrorDelay epc) A (Streaming s) = Some (Streaming s) ->
             (postError fuel ;; retry fuel req) epc_a w_a = Ret r epc' w' ->
             exists new,
               trace w' = new ++ trace w
               /\ now w + ErrorDelay epc * naps new <= now w'
               /\ attempts new <= naps new
               /\ follows w w'
               /\ ErrorDelay epc' = ErrorDelay epc
               /\ (linked epc -> linked epc')
               /\ (forall st0, linked epc -> settled st0 epc ->
                     exists st, wire_trace (ErrorDelay epc) new st0 = Some st
                                /\ settled st epc')
               /\ (snd r = false -> exists s, watch epc' = Some s)).
  { intros epc_a w_a A s Ta Na Aa Sa Fa Ea Hs Hsa Hka Wa HF.
    unbinding HF as u epc3 w3 Hp. destruct u.
    destruct (postError_run Hp) as [np [Tp [Np [Cp [Fp [Ep [Lp [Wp _]]]]]]]].
    destruct (IH _ _ _ _ _ _ HF) as [n2 [T2 [N2 [C2 [F2 [E2 [L2 [W2 R2]]]]]]]].
    exists (n2 ++ np ++ A).
    split; [rewrite T2, Tp, Ta; joined|].
    split; [rewrite !naps_app, Sa; rewrite Ep, Ea in *; lia|].
    split; [rewrite !attempts_app, !naps_app, Aa, Sa; lia|].
    split; [eapply follows_trans; [exact Fa|eapply follows_trans; eauto]|].
    split; [congruence|].
    split; [intros _; apply L2; exact Lp|].
    split; [|exact R2].
    intros st0 Hl Hst.
    unfold settled in Hst. rewrite Hs in Hst. subst st0.
    destruct (Wp s Hsa) as [st1 [W1 St1]]; [rewrite Hka; apply Hl; exact Hs|].
    destruct (W2 st1 Lp St1) as [st [W St]].
    exists st. split; [|exact St].
    rewrite !wire_trace_app, Wa. rewrite Ea in W1. rewrite W1.
    rewrite Ep, Ea in W. exact W. }
  cbn [retry] in H. unfold bind at 1 in H. unfold ctx_Err in H.
  destruct (canceled w) eqn:Hc.
  { unfold ret in H. inversion H; subst. exists []. simpl.
    split; [reflexivity|]. split; [count|]. split; [count|].
    split; [apply follows_refl|]. split; [reflexivity|].
    split; [auto|]. split; [|discriminate].
    intros st0 _ Hst. exists st0. auto. }
  unbinding H as ok epc1 w1 Hm.
  unfold Send in Hm. destruct (watch epc) as [s|] eqn:Hs; [|discriminate Hm].
  destruct (sends w) as [|[d ok'] rest] eqn:Hss; [discriminate Hm|].
  inversion Hm; subst ok' epc1 w1; clear Hm.
  assert (F1 : follows w (happen (EvSend s req ok) (pass d (set_sends rest w)))).
  { followed. }
  destruct ok.
  - unbinding H as a epc2 w2 Hm.
    destruct (apply_run Hm Hs) as [na [Ta [Na [Wa [Ca [Sa [Fa [Ea [Ka Va]]]]]]]]].
    cbn [trace now pass happen set_sends] in *.
    assert (W1 : wire_trace (ErrorDelay epc) (na ++ [EvSend s req true]) (Streaming s)
                 = Some (Streaming s)).
    { rewrite wire_trace_app. simpl. rewrite Nat.eqb_refl. exact Wa. }
    destruct a.
    + revert H. run. intros H; inversion H; subst.
      exists (na ++ [EvSend s req true]).
      split; [rewrite Ta; joined|].
      split; [rewrite naps_app, Sa; count|].
      split; [rewrite attempts_app, naps_app, Ca; count|].
      split; [eapply follows_trans; eauto|].
      split; [exact Ea|].
      split; [intros Hl s' E; rewrite Ka; apply Hl; congruence|].
      split; [|intros _; exists s; congruence].
      intros st0 Hl Hst. unfold settled in Hst. rewrite Hs in Hst. subst st0.
      exists (Streaming s). split; [exact W1|].
      unfold settled. rewrite Va, Hs. reflexivity.
    + apply (Fail epc2 w2 (na ++ [EvSend s req true]) s); auto.
      * rewrite Ta. joined.
      * lia.
      * rewrite attempts_app, Ca. reflexivity.
      * rewrite naps_app, Sa. reflexivity.
      * eapply follows_trans; eauto.
      * congruence.
  - apply (Fail epc (happen (EvSend s req false) (pass d (set_sends rest w)))
             [EvSend s req false] s); auto.
    + simpl. lia.
    + simpl. rewrite Nat.eqb_refl. reflexivity.
Qed.

(** A whole call of [NextCh]. *)
Lemma NextCh_run (fuel : nat) req epc w r epc' w' :
  NextCh fuel req epc w = Ret r epc' w' ->
  exists new,
    trace w' = new ++ trace w
    /\ now w + ErrorDelay epc * naps new <= now w'
    /\ attempts new <= naps new + 1
    /\ follows w w'
    /\ ErrorDelay epc' = ErrorDelay epc
    /\ (linked epc -> linked epc')
    /\ (linked epc ->
          exists st, wire_trace (ErrorDelay epc) new (wire_of epc) = Some st
                     /\ settled st epc')
    /\ (snd r = false -> exists s, watch epc' = Some s)
    /\ (watch epc <> None -> attempts new <= naps new).
Proof.
  intros H. unfold NextCh in H. unfold bind at 1 in H. unfold get in H.
  unbinding H as u epc1 w1 Hm. destruct u.
  destruct (retry_run H) as [n2 [T2 [N2 [C2 [F2 [E2 [L2 [W2 R2]]]]]]]].
  destruct (watch epc) as [s0|] eqn:Hs.
  - unfold ret in Hm. inversion Hm; subst.
    exists n2. split; [exact T2|]. split; [exact N2|]. split; [lia|].
    split; [exact F2|]. split; [exact E2|]. split; [exact L2|].
    split; [|split; [exact R2|intros _; exact C2]].
    intros Hl. apply W2; [exact Hl|].
    unfold wire_of, settled. rewrite Hs. reflexivity.
  - unbinding Hm as b epc2 w2 Hdial. unfold ret in Hm. inversion Hm; subst.
    destruct (dial_run Hdial) as [n1 [T1 [N1 [C1 [F1 [E1 [[st1 [W1 [B1 B1']]] [V1 _]]]]]]]].
    assert (L1 : linked epc1).
    { intros s E. destruct b.
      - rewrite (V1 eq_refl Hs) in E. discriminate.
      - destruct (B1 eq_refl) as [c [_ [Hw Hk]]]. congruence. }
    assert (S1 : settled st1 epc1).
    { unfold settled. destruct b.
      - rewrite (V1 eq_refl Hs). auto.
      - destruct (B1 eq_refl) as [c [-> [Hw _]]]. rewrite Hw. reflexivity. }
    exists (n2 ++ n1).
    split; [rewrite T2, T1; joined|].
    split; [rewrite naps_app; rewrite E1 in *; lia|].
    split; [rewrite attempts_app, naps_app; lia|].
    split; [eapply follows_trans; eauto|].
    split; [congruence|].
    split; [intros _; apply L2; exact L1|].
    split; [|split; [exact R2|intros N; contradiction N; reflexivity]].
    intros _. destruct (W2 st1 L1 S1) as [st [W St]].
    exists st. split; [|exact St].
    unfold wire_of. rewrite Hs, wire_trace_app, W1. rewrite E1 in W. exact W.
Qed.

End Conducting.

(** ** Run-time panics *)

Section Safety.
Context {schema : Schema}.
Local Open Scope go_scope.









End Safety.

(** ** The conduct of a call *)

Section Conducted.
Context {schema : Schema}.
Local Open Scope go_scope.

Lemma wire_balance (delay : nat) (tr : list Event) :
  forall s s', wire_trace delay tr s = Some s' ->
               opened tr + open s = closes tr + open s'.
Proof.
  induction tr as [|e tr IH]; intros s s' H; simpl in H.
  - inversion H; subst. reflexivity.
  - destruct (wire_trace delay tr s) as [s1|] eqn:E; [|discriminate].
    specialize (IH _ _ E). unfold opened, closes in *.
    destruct e as [r|c ok| |c q ok|c op|c|c|t d|b v ok|msg];
      destruct s1; simpl in H; try discriminate;
      try (destruct (Nat.eqb _ _); try discriminate);
      try (destruct r); try (destruct ok);
      inversion H; subst; simpl in *; lia.
Qed.


Lemma Next_after_NextCh (fuel : nat) req epc w r epc' w' :
  Next fuel req epc w = Ret r epc' w' ->
  exists ch c, NextCh fuel req epc w = Ret (ch, c) epc' w' /\ snd r = c.
Proof.
  unfold Next. intros H. unbinding H as rc epc1 w1 Hm. destruct rc as [ch c].
  exists ch, c. destruct c.
  - unfold ret in H. inversion H; subst. auto.
  - unfold bind at 1 in H. unfold get in H.
    destruct (data epc1); [|discriminate H].
    unbinding H as items epc2 w2 Hr. unfold ret in H. inversion H; subst.
    destruct ch as [|[sent|sent]]; simpl in Hr; try discriminate Hr;
      unfold ret in Hr; inversion Hr; subst; auto.
Qed.

(** X5. Every call of [NextCh] and of [Next] that returns has used the
    transport in order, from where the client stood to where it stands: a
    dial only while no connection is open, a watch only on the connection
    just dialed, a send or a receive only on the watch that is open, the
    half-close of a watch followed by the close of its connection, the close
    of a connection whose watch did not start, a sleep only while nothing is
    open; so the connections closed are the connections made, but for the
    one in use at the start or at the end. The same holds when [Next]
    returns with the process going down under it. *)
Theorem transport_is_used_in_order (fuel : nat) (req : localnetv1.WatchReq) epc w :
  linked epc ->
  (forall r epc' w',
      NextCh fuel req epc w = Ret r epc' w' ->
      exists new st,
        trace w' = new ++ trace w
        /\ wire_trace (ErrorDelay epc) new (wire_of epc) = Some st
        /\ settled st epc' /\ linked epc'
        /\ opened new + open (wire_of epc) = closes new + open st)
  /\ (forall r epc' w',
        Next fuel req epc w = Ret r epc' w' ->
        exists new st,
          trace w' = new ++ trace w
          /\ wire_trace (ErrorDelay epc) new (wire_of epc) = Some st
          /\ settled st epc' /\ linked epc'
          /\ opened new + open (wire_of epc) = closes new + open st)
  /\ (forall r epc' w',
        Next fuel req epc w = Dying r epc' w' ->
        exists new st,
          trace w' = new ++ trace w
          /\ wire_trace (ErrorDelay epc) new (wire_of epc) = Some st
          /\ settled st epc' /\ linked epc'
          /\ opened new + open (wire_of epc) = closes new + open st).
Proof.
  intros Hl.
  assert (N : forall r epc' w',
             NextCh fuel req epc w = Ret r epc' w' ->
             exists new st,
               trace w' = new ++ trace w
               /\ wire_trace (ErrorDelay epc) new (wire_of epc) = Some st
               /\ settled st epc' /\ linked epc'
               /\ opened new + open (wire_of epc) = closes new + open st).
  { intros r epc' w' H.
    destruct (NextCh_run H) as [new [T [_ [_ [_ [_ [L [W _]]]]]]]].
    destruct (W Hl) as [st [Hw Hs]].
    exists new, st. repeat split; auto.
    eapply wire_balance; eauto. }
  split; [exact N|]. split.
  - intros r epc' w' H. destruct (Next_after_NextCh H) as [ch [c [H' _]]].
    eapply N; eauto.
  - intros r epc' w' H. destruct (Next_dying H) as [sent [H' _]].
    eapply N; eauto.
Qed.

(** X6. Connection attempts are spaced by the error delay: in a call of
    [NextCh] that returns there is at most one call of [grpc.DialContext]
    more than there are sleeps, and none more when the call began on an
    open watch; the sleeps, [ErrorDelay] each, add up in the time the call
    takes, so [k] attempts take [k - 1] times [ErrorDelay] at least. The
    delay itself is left as it was. *)
Theorem reconnects_are_spaced (fuel : nat) (req : localnetv1.WatchReq) epc w
    r epc' w' :
  NextCh fuel req epc w = Ret r epc' w' ->
  exists new,
    trace w' = new ++ trace w
    /\ attempts new <= naps new + 1
    /\ (watch epc <> None -> attempts new <= naps new)
    /\ now w + ErrorDelay epc * naps new <= now w'
    /\ now w + ErrorDelay epc * (attempts new - 1) <= now w'
    /\ ErrorDelay epc' = ErrorDelay epc.
Proof.
  intros H.
  destruct (NextCh_run H) as [new [T [N [C [_ [E [_ [_ [_ A]]]]]]]]].
  exists new. repeat split; auto.
  assert (L : ErrorDelay epc * (attempts new - 1) <= ErrorDelay epc * naps new).
  { apply Nat.mul_le_mono_l. lia. }
  lia.
Qed.


End Conducted.

(** ** The store after a round *)

Section LastWord.
Context {schema : Schema}.

Lemma lookup_effect (p : string) (op : localnetv1.OpItem) (t : list kv) :
  ascending t ->
  lookup p (effect op t) =
    match says p op with
    | Some v => v
    | None => lookup p t
    end.
Proof.
  intros Ha. unfold effect, says.
  destruct (localnetv1.Op op) as [[set|ref|]|]; auto.
  - destruct (localnetv1.Ref_ set) as [ref|]; auto.
    destruct (empty_for (localnetv1.Ref_Set ref)) as [v|]; auto.
    destruct (Unmarshal (localnetv1.Bytes set) v) as [m|]; auto.
    rewrite lookup_ReplaceOrInsert by exact Ha. simpl.
    destruct (String.eqb (localnetv1.Path ref) p); reflexivity.
  - rewrite lookup_Delete by exact Ha. simpl.
    destruct (String.eqb (localnetv1.Path ref) p); reflexivity.
Qed.

Lemma lookup_effects (p : string) (ops : list localnetv1.OpItem) :
  forall t, ascending t ->
    lookup p (effects ops t) =
      match last_word p ops with
      | Some v => v
      | None => lookup p t
      end.
Proof.
  induction ops as [|op ops IH]; intros t Ha; [reflexivity|].
  change (effects (op :: ops) t) with (effects ops (effect op t)).
  rewrite IH by (apply ascending_effect; exact Ha).
  simpl. destruct (last_word p ops); [reflexivity|].
  apply lookup_effect. exact Ha.
Qed.

Lemma lookup_head (x : kv) (t : list kv) : lookup (Path x) (x :: t) = Some x.
Proof. unfold lookup. simpl. rewrite String.eqb_refl. reflexivity. Qed.

Lemma lookup_In (p : string) (t : list kv) (x : kv) :
  lookup p t = Some x -> In x t /\ Path x = p.
Proof.
  unfold lookup. intros H. apply find_some in H.
  destruct H as [Hi He]. apply String.eqb_eq in He. auto.
Qed.

(** An ascending store is what [lookup] finds in it. *)
Lemma ascending_by_lookup (t1 : list kv) :
  forall t2, ascending t1 -> ascending t2 ->
    (forall p, lookup p t1 = lookup p t2) -> t1 = t2.
Proof.
  induction t1 as [|x t1 IH]; intros t2 A1 A2 H.
  - destruct t2 as [|y t2]; [reflexivity|].
    specialize (H (Path y)). rewrite lookup_head in H. discriminate H.
  - destruct t2 as [|y t2].
    { specialize (H (Path x)). rewrite lookup_head in H. discriminate H. }
    apply ascending_cons in A1. destruct A1 as [A1 F1].
    apply ascending_cons in A2. destruct A2 as [A2 F2].
    assert (Hx : In x (y :: t2)).
    { pose proof (H (Path x)) as E. rewrite lookup_head in E.
      symmetry in E. apply lookup_In in E. tauto. }
    assert (Hy : In y (x :: t1)).
    { pose proof (H (Path y)) as E. rewrite lookup_head in E.
      apply lookup_In in E. tauto. }
    assert (E : x = y).
    { destruct Hx as [Hx|Hx]; [auto|]. destruct Hy as [Hy|Hy]; [auto|].
      rewrite Forall_forall in F1, F2.
      pose proof (F1 _ Hy) as L1. pose proof (F2 _ Hx) as L2.
      unfold Less in L1, L2. rewrite (ltb_asym L1) in L2. discriminate L2. }
    subst y. f_equal. apply IH; auto.
    intros p. specialize (H p). unfold lookup in *. simpl in H.
    destruct (String.eqb (Path x) p) eqn:Ep; [|exact H].
    apply String.eqb_eq in Ep. subst p.
    fold (lookup (Path x) t1). fold (lookup (Path x) t2).
    rewrite (lookup_above (x:=x) F1), (lookup_above (x:=x) F2); auto.
Qed.

(** X8. The store after a sequence of operations holds, at each path, what
    the last operation on that path says: the entry of the last [Set] that
    decodes, nothing after a [Delete], and what it held before when no
    operation names the path. So two sequences of operations whose last
    words agree at every path leave the same store, whatever the order of
    the operations and whatever came before the last word. *)
Theorem store_holds_the_last_word (ops : list localnetv1.OpItem) (t : list kv) :
  ascending t ->
  (forall p,
      lookup p (effects ops t) =
        match last_word p ops with
        | Some v => v
        | None => lookup p t
        end)
  /\ (forall ops',
        (forall p, last_word p ops' = last_word p ops) ->
        effects ops' t = effects ops t).
Proof.
  intros Ha. split.
  - intros p. apply lookup_effects. exact Ha.
  - intros ops' H. apply ascending_by_lookup.
    + apply ascending_effects. exact Ha.
    + apply ascending_effects. exact Ha.
    + intros p. rewrite !lookup_effects by exact Ha. rewrite H. reflexivity.
Qed.

End LastWord.

(** ** The aggregates, entry by entry *)

Section Partition.
Context {schema : Schema}.

Lemma values_groups (l : list kv) :
  map Msg_Endpoint (leading l) ++ flat_map members (groups l) = values l.
Proof.
  induction l as [|j l IH]; [reflexivity|].
  change (values (j :: l))
    with (match Value j with Some m => [m] | None => [] end ++ values l).
  cbn [leading groups].
  destruct (Value j) as [[s|e]|].
  - cbn [flat_map map app]. unfold members at 1. cbn [Service Endpoints app].
    rewrite <- IH. reflexivity.
  - cbn [map app]. rewrite IH. reflexivity.
  - exact IH.
Qed.

Lemma orphan_first_leading (l : list kv) :
  orphan_first l = false -> leading l = [].
Proof.
  induction l as [|j l IH]; simpl; [reflexivity|].
  destruct (Value j) as [[s|e]|]; auto. discriminate.
Qed.

Lemma orphan_first_values (l : list kv) :
  orphan_first l = true -> exists e rest, values l = Msg_Endpoint e :: rest.
Proof.
  induction l as [|j l IH]; simpl; [discriminate|].
  unfold values in *. simpl.
  destruct (Value j) as [[s|e]|]; simpl; [discriminate| |exact IH].
  intros _. eauto.
Qed.

Lemma groups_length (l : list kv) : List.length (groups l) <= List.length l.
Proof.
  induction l as [|j l IH]; simpl; [lia|].
  destruct (Value j) as [[s|e]|]; simpl; lia.
Qed.

(** X9. The goroutine of [NextCh] sends the store entry by entry: the
    services and endpoints of the aggregates it sends, read one aggregate
    after the other, are the values of the store in the order of the store,
    none lost, repeated or moved, and there are no more aggregates than the
    store has entries, the capacity [Next] makes its list with. When it
    panics it has sent nothing, and the first value of the store is an
    endpoint. *)
Theorem grouping_is_a_partition (t : list kv) :
  match grouper t with
  | Closes sent =>
      flat_map members sent = values t
      /\ List.length sent <= btree.Len t
  | Dies sent =>
      sent = [] /\ exists e rest, values t = Msg_Endpoint e :: rest
  end.
Proof.
  rewrite grouper_groups. destruct (orphan_first t) eqn:E.
  - split; [reflexivity|]. apply orphan_first_values. exact E.
  - split; [|apply groups_length].
    rewrite <- (values_groups t), (orphan_first_leading E). reflexivity.
Qed.

End Partition.

(** ** Rounds one after the other *)

Section Rounds.
Context {schema : Schema}.
Local Open Scope go_scope.

Lemma total_app {A : Type} (a b : list (nat * A)) : total (a ++ b) = total a + total b.
Proof. induction a as [|x a IH]; simpl; [reflexivity|]. rewrite IH. lia. Qed.

(** The loop takes plain operations one after the other, in the time they
    take to arrive. *)
Lemma apply_plain_timed (rs : list (nat * localnetv1.OpItem)) :
  forall fuel epc w s (t : list kv) tail,
    watch epc = Some s -> data epc = Some t ->
    recvs w = arriving rs ++ tail ->
    Forall (fun r => plain (snd r) = true) rs ->
    exists w',
      apply (List.length rs + fuel) epc w =
        apply fuel (set_data (Some (effects (map snd rs) t)) epc) w'
      /\ recvs w' = tail /\ sends w' = sends w /\ dials w' = dials w
      /\ watches w' = watches w /\ cancelAt w' = cancelAt w
      /\ now w' = now w + total rs
      /\ exists new, trace w' = new ++ trace w /\ attempts new = 0 /\ naps new = 0
                     /\ closes new = 0.
Proof.
  induction rs as [|[d op] rs IH]; intros fuel epc w s t tail Hw Hd Hr Hp.
  - exists w. simpl in *. split.
    { destruct epc; simpl in *; subst; reflexivity. }
    repeat split; auto. exists []. auto.
  - inversion Hp; subst. simpl in H1.
    cbn [List.length plus]. simpl in Hr.
    rewrite (apply_turn (List.length rs + fuel) Hw Hr).
    set (w0 := happen (EvRecv s (Some op)) (pass d (set_recvs (arriving rs ++ tail) w))).
    destruct (applyOp_plain w0 H1 Hd) as [w1 [Ha [Hr1 [Hs1 [Hd1 [Hw1 [Hn1 Hc1]]]]]]].
    destruct (applyOp_run Ha) as [na [Ta [_ [Aa _]]]].
    rewrite Ha.
    destruct (IH fuel (set_data (Some (effect op t)) epc) w1 s (effect op t) tail)
      as [w' [Hw' [Ht' [Hs' [Hd' [Hws' [Hc' [Hn' [n2 [T2 [A2 [S2 C2]]]]]]]]]]]]; auto.
    exists w'. split; [rewrite Hw'; reflexivity|].
    split; [exact Ht'|].
    split; [rewrite Hs', Hs1; reflexivity|].
    split; [rewrite Hd', Hd1; reflexivity|].
    split; [rewrite Hws', Hw1; reflexivity|].
    split; [rewrite Hc', Hc1; reflexivity|].
    split; [rewrite Hn', Hn1; simpl; lia|].
    exists (n2 ++ na ++ [EvRecv s (Some op)]).
    split; [rewrite T2, Ta; unfold w0; simpl; joined|].
    assert (Q : attempts na = 0 /\ naps na = 0 /\ closes na = 0).
    { clear - Aa. induction na as [|e na IHn]; [auto|].
      simpl in Aa. apply andb_true_iff in Aa. destruct Aa as [E Aa].
      destruct (IHn Aa) as [X [Y Z]].
      unfold attempts, naps, closes in *.
      destruct e; try discriminate; simpl; auto. }
    destruct Q as [Q1 [Q2 Q3]].
    unfold attempts, naps, closes in *.
    rewrite !filter_app, !length_app, A2, S2, C2, Q1, Q2, Q3. simpl. auto.
Qed.



(** X11. A [Set] that comes without its [Ref] takes the process down: the
    loop reads [set.Ref.Set] through the nil pointer, whatever came before
    in the round; the operations before it have been applied. *)
Theorem set_without_ref_panics (rs : list (nat * localnetv1.OpItem))
    (fuel : nat) (req : localnetv1.WatchReq) epc w s (t : list kv)
    d1 ss d op set rest :
  watch epc = Some s -> data epc = Some t ->
  canceled w = false ->
  sends w = (d1, true) :: ss ->
  recvs w = arriving rs ++ (d, Some op) :: rest ->
  localnetv1.Op op = Some (OpItem_Set set) ->
  localnetv1.Ref_ set = None ->
  Forall (fun r => plain (snd r) = true) rs ->
  exists w',
    NextCh (2 + List.length rs + fuel) req epc w =
      Panic (set_data (Some (effects (map snd rs) t)) epc) w'
    /\ Next (2 + List.length rs + fuel) req epc w =
         Panic (set_data (Some (effects (map snd rs) t)) epc) w'
    /\ recvs w' = rest.
Proof.
  intros Hw Hd Hc Hs Hr Hop Hn Hp.
  set (t' := effects (map snd rs) t).
  set (w1 := happen (EvSend s req true) (pass d1 (set_sends ss w))).
  destruct (apply_plain_timed (S fuel) (epc:=epc) (w:=w1) (s:=s) (t:=t)
              (tail:=(d, Some op) :: rest) Hw Hd Hr Hp) as [w2 [Ha [Ht _]]].
  fold t' in Ha.
  assert (Hw2 : watch (set_data (Some t') epc) = Some s) by exact Hw.
  rewrite (apply_turn fuel Hw2 Ht) in Ha.
  unfold applyOp in Ha. rewrite Hop, Hn in Ha. unfold panic in Ha.
  exists (happen (EvRecv s (Some op)) (pass d (set_recvs rest w2))).
  assert (N : NextCh (2 + List.length rs + fuel) req epc w =
              Panic (set_data (Some t') epc)
                    (happen (EvRecv s (Some op)) (pass d (set_recvs rest w2)))).
  { rewrite NextCh_watching with (s:=s) by exact Hw.
    replace (2 + List.length rs + fuel) with (S (List.length rs + S fuel)) by lia.
    rewrite retry_sends with (s:=s) (d:=d1) (ss:=ss) by assumption. fold w1.
    rewrite Ha. reflexivity. }
  split; [exact N|]. split; [|reflexivity].
  unfold Next. unfold bind at 1. rewrite N. reflexivity.
Qed.

End Rounds.

(** ** Connecting *)

Section Connecting.
Context {schema : Schema}.
Local Open Scope go_scope.


End Connecting.

(** ** Cancellation by [Cancel] *)

Section Canceling.
Context {schema : Schema}.
Local Open Scope go_scope.

Lemma cancel_cancels (w : World) : canceled (cancel w) = true.
Proof.
  unfold cancel. destruct (canceled w) eqn:E; [exact E|].
  unfold canceled. simpl. apply Nat.leb_refl.
Qed.

(** X12. [Cancel] is final: it returns at once and leaves the context
    canceled, by a second call as by the first; it touches neither the
    connection nor the watch nor the store; and from then on, whatever time
    passes and whatever the state of the client, [dial] gives up without a
    dial, [NextCh] returns the closed channel and [Next] the empty list,
    with the canceled flag, nothing sent and nothing closed. *)
Theorem cancel_is_final (epc : EndpointsClient) (w : World) :
  exists w1,
    Cancel epc w = Ret tt epc w1
    /\ canceled w1 = true
    /\ Cancel epc w1 = Ret tt epc w1
    /\ (canceled w = true -> w1 = w)
    /\ trace w1 = trace w /\ now w1 = now w
    /\ forall (fuel : nat) (req : localnetv1.WatchReq) epc2 w2,
         cancelAt w2 = cancelAt w1 -> now w1 <= now w2 ->
         dial (S fuel) epc2 w2 = Ret true epc2 w2
         /\ NextCh (S fuel) req epc2 w2 = Ret (ClosedEmpty, true) epc2 w2
         /\ Next (S fuel) req epc2 w2 = Ret ([], true) epc2 w2.
Proof.
  exists (cancel w).
  pose proof (cancel_cancels w) as C.
  split; [reflexivity|]. split; [exact C|].
  split; [unfold Cancel, world, cancel at 1; rewrite C; reflexivity|].
  split; [intros E; unfold cancel; rewrite E; reflexivity|].
  split; [unfold cancel; destruct (canceled w); reflexivity|].
  split; [unfold cancel; destruct (canceled w); reflexivity|].
  intros fuel req epc2 w2 Hc Hn.
  assert (C2 : canceled w2 = true) by (eapply canceled_later; eauto).
  assert (D : dial (S fuel) epc2 w2 = Ret true epc2 w2) by (apply dial_canceled; exact C2).
  assert (N : NextCh (S fuel) req epc2 w2 = Ret (ClosedEmpty, true) epc2 w2).
  { unfold NextCh. unfold bind at 1. unfold get.
    destruct (watch epc2).
    - unfold bind, ret. apply retry_canceled. exact C2.
    - unfold bind at 1. unfold bind at 1. rewrite D. unfold ret.
      apply retry_canceled. exact C2. }
  split; [exact D|]. split; [exact N|].
  unfold Next. unfold bind at 1. rewrite N. reflexivity.
Qed.

Lemma postError_canceled (fuel : nat) epc w s c :
  canceled w = true -> watch epc = Some s -> conn epc = Some c ->
  postError fuel epc w =
    Ret tt (set_conn None (set_watch None epc))
        (happen (EvClose c) (happen (EvCloseSend s) w)).
Proof.
  intros Hc Hw Hk. unfold postError. run. rewrite Hw, Hk. run.
  unfold canceled in *. simpl. rewrite Hc. reflexivity.
Qed.

(** X13. A round cut by the cancellation ends without a backoff: when the
    context is canceled while a round is under way and the stream then
    fails, on the send or on a receive, [NextCh] half-closes the watch,
    closes the connection and returns the closed channel and the canceled
    flag at the time of the failure, with no sleep and no dial; the store
    keeps the operations applied so far. *)
Theorem canceled_round_ends_without_backoff (rs : list (nat * localnetv1.OpItem))
    (fuel : nat) (req : localnetv1.WatchReq) epc w s c (t : list kv) k :
  watch epc = Some s -> conn epc = Some c -> data epc = Some t ->
  cancelAt w = Some k -> now w < k ->
  Forall (fun r => plain (snd r) = true) rs ->
  (forall d1 ss,
      sends w = (d1, false) :: ss -> k <= now w + d1 ->
      exists w',
        NextCh (2 + fuel) req epc w =
          Ret (ClosedEmpty, true) (set_conn None (set_watch None epc)) w'
        /\ now w' = now w + d1
        /\ trace w' = EvClose c :: EvCloseSend s :: EvSend s req false :: trace w
        /\ dials w' = dials w)
  /\ (forall d1 ss df rest,
        sends w = (d1, true) :: ss ->
        recvs w = arriving rs ++ (df, None) :: rest ->
        k <= now w + d1 + total rs + df ->
        exists w' new,
          NextCh (3 + List.length rs + fuel) req epc w =
            Ret (ClosedEmpty, true)
                (set_conn None
                   (set_watch None (set_data (Some (effects (map snd rs) t)) epc)))
                w'
          /\ now w' = now w + d1 + total rs + df
          /\ trace w' = EvClose c :: EvCloseSend s :: new ++ trace w
          /\ naps new = 0 /\ attempts new = 0 /\ closes new = 0
          /\ dials w' = dials w).
Proof.
  intros Hw Hk Hd Hc Hn Hp.
  assert (C0 : canceled w = false).
  { unfold canceled. rewrite Hc. apply Nat.leb_gt. exact Hn. }
  split.
  - intros d1 ss Hs Hle.
    set (w1 := happen (EvSend s req false) (pass d1 (set_sends ss w))).
    assert (C1 : canceled w1 = true).
    { unfold canceled, w1. simpl. rewrite Hc. apply Nat.leb_le. exact Hle. }
    exists (happen (EvClose c) (happen (EvCloseSend s) w1)).
    split; [|simpl; auto].
    rewrite NextCh_watching with (s:=s) by exact Hw.
    cbn [plus retry]. unfold bind at 1. unfold ctx_Err. rewrite C0.
    unfold bind at 1. unfold Send. rewrite Hw, Hs. fold w1.
    unfold bind at 1.
    rewrite (postError_canceled (S fuel) C1 Hw Hk).
    apply retry_canceled. exact C1.
  - intros d1 ss df rest Hs Hr Hle.
    set (t' := effects (map snd rs) t).
    set (w1 := happen (EvSend s req true) (pass d1 (set_sends ss w))).
    destruct (apply_plain_timed (S (S fuel)) (epc:=epc) (w:=w1) (s:=s) (t:=t)
                (tail:=(df, None) :: rest) Hw Hd Hr Hp)
      as [w2 [Ha [Ht [Hs2 [Hd2 [_ [Hc2 [Hn2 [n2 [T2 [A2 [S2 K2]]]]]]]]]]]].
    fold t' in Ha.
    set (epc2 := set_data (Some t') epc) in *.
    set (w3 := happen (EvLog "watch recv failed: ")
                 (happen (EvRecv s None) (pass df (set_recvs rest w2)))).
    assert (A3 : apply (S (S fuel)) epc2 w2 = Ret RecvFailed epc2 w3).
    { cbn [apply]. unfold bind at 1. unfold Recv.
      change (watch epc2) with (watch epc). rewrite Hw, Ht. run. reflexivity. }
    assert (C3 : canceled w3 = true).
    { unfold canceled, w3. simpl. rewrite Hc2. unfold w1. simpl. rewrite Hc.
      apply Nat.leb_le. rewrite Hn2. unfold w1. simpl. lia. }
    exists (happen (EvClose c) (happen (EvCloseSend s) w3)).
    exists (EvLog "watch recv failed: " :: EvRecv s None :: n2 ++ [EvSend s req true]).
    split.
    { rewrite NextCh_watching with (s:=s) by exact Hw.
      replace (3 + List.length rs + fuel) with (S (List.length rs + S (S fuel))) by lia.
      rewrite retry_sends with (s:=s) (d:=d1) (ss:=ss) by assumption. fold w1.
      rewrite Ha, A3. unfold bind at 1.
      rewrite (@postError_canceled (List.length rs + S (S fuel)) epc2 w3 s c C3 Hw Hk).
      destruct (List.length rs + S (S fuel)) eqn:El; [lia|].
      apply retry_canceled. exact C3. }
    split; [simpl; rewrite Hn2; unfold w1; simpl; lia|].
    split; [simpl; rewrite T2; unfold w1; simpl; do 4 f_equal; joined|].
    unfold naps, attempts, closes in *. simpl.
    rewrite !filter_app, !length_app, A2, S2, K2. simpl.
    repeat split; auto.
Qed.

End Canceling.

(** ** Signals *)

Section Signaled.
Context {schema : Schema}.

Lemma acts_app (l1 l2 : list Act) (hw : Handler * World) :
  acts (l1 ++ l2) hw = acts l2 (acts l1 hw).
Proof. unfold acts. apply fold_left_app. Qed.

Lemma relayed_app (sigs : list Signal) (l1 l2 : list Act) :
  relayed sigs (l1 ++ l2) = relayed sigs l1 + relayed sigs l2.
Proof. unfold relayed. rewrite filter_app, length_app. reflexivity. Qed.

Lemma act_notified (a : Act) (hw : Handler * World) :
  notified (fst (act a hw)) = notified (fst hw).
Proof.
  destruct hw as [h w]. unfold act.
  destruct (stage h); destruct a as [sg| |d]; simpl; auto;
    try (destruct (relays (notified h) sg)); try (destruct (inbox h)); reflexivity.
Qed.

Lemma canceled_pass (d : nat) (w : World) :
  canceled w = true -> canceled (pass d w) = true.
Proof. apply canceled_later; simpl; [reflexivity|lia]. Qed.

Lemma act_in_step (a : Act) (n : nat) (hw : Handler * World) :
  in_step n hw ->
  in_step (n + relayed (notified (fst hw)) [a]) (act a hw).
Proof.
  destruct hw as [[st nt ib] w]. unfold in_step, act, relayed, by_default.
  cbn [stage notified inbox fst].
  destruct st as [| | |code|sg|sg]; destruct a as [sig| |d];
    cbn [filter List.length];
    try destruct (relays nt sig) eqn:Er; try destruct (fatal sig) eqn:Ef;
    destruct ib;
    cbn [stage inbox notified List.length];
    intros H; decompose [and] H; clear H;
    repeat match goal with
           | H : cancelAt ?w = None |- context [cancelAt ?w <> None -> _] =>
               rewrite H
           end;
    repeat match goal with
           | H : Some ?x <> None -> _ |- _ =>
               let X := fresh in
               assert (X : Some x <> None) by discriminate; specialize (H X); clear X
           | H : None <> None -> _ |- _ => clear H
           end;
    repeat split; try reflexivity; try assumption; try lia;
    try (apply cancel_cancels); try (apply canceled_pass; assumption);
    try (intros X; contradiction X; reflexivity);
    try (intros _; lia);
    try (intros X; match goal with H : _ <> None -> _ |- _ => specialize (H X) end;
         lia).
Qed.

Lemma acts_in_step (l : list Act) :
  forall n hw,
    in_step n hw ->
    in_step (n + relayed (notified (fst hw)) l) (acts l hw)
    /\ notified (fst (acts l hw)) = notified (fst hw).
Proof.
  induction l as [|a l IH]; intros n hw H.
  - simpl. unfold relayed. simpl. rewrite Nat.add_0_r. auto.
  - change (acts (a :: l) hw) with (acts l (act a hw)).
    destruct (IH _ _ (act_in_step a H)) as [I N].
    rewrite act_notified in I, N.
    split; [|exact N].
    change (a :: l) with ([a] ++ l). rewrite relayed_app, Nat.add_assoc. exact I.
Qed.

(** X14. The goroutine of [CancelOn], whatever the signals, and whenever
    they arrive and it runs: as long as no relayed signal has arrived the
    context is not canceled; the context is canceled once the goroutine has
    received a first signal, and stays so; the goroutine exits the process,
    with code 1, only after the cancellation and only when a second relayed
    signal has arrived. A signal that [Notify] does not relay, or that
    arrives before [Notify] is called, gets the default action while the
    goroutine is at work: the context is left as it is, and the process
    ends when the signal is SIGHUP, SIGINT, SIGTERM or SIGKILL. Of the
    signals that [CancelOnSignals] names, [os.Kill] is not relayed: the
    client is canceled on [os.Interrupt] and on SIGTERM alone, and
    [os.Kill] ends the process without canceling the client. *)
Theorem exit_takes_a_second_signal (signals : list Signal) (l : list Act)
    (w : World) :
  cancelAt w = None ->
  in_step (relayed signals l) (acts l (CancelOn signals, w))
  /\ (relayed signals l = 0 -> canceled (snd (acts l (CancelOn signals, w))) = false)
  /\ (forall sig h' w',
        acts l (CancelOn signals, w) = (h', w') -> at_work h' = true ->
        stage h' = Starting \/ relays signals sig = false ->
        acts (l ++ [Arrives sig]) (CancelOn signals, w)
        = ({| stage := if fatal sig then Killed sig else Unfollowed sig;
              notified := signals; inbox := inbox h' |}, w'))
  /\ (forall sig,
        relays (notified CancelOnSignals) sig = true <->
        sig = Interrupt \/ sig = SIGTERM)
  /\ (forall h' w',
        acts l (CancelOnSignals, w) = (h', w') -> at_work h' = true ->
        acts (l ++ [Arrives Kill]) (CancelOnSignals, w)
        = ({| stage := Killed Kill; notified := [Interrupt; Kill; SIGTERM];
              inbox := inbox h' |}, w')).
Proof.
  intros Hc.
  assert (I0 : forall sigs, in_step 0 (CancelOn sigs, w)) by (simpl; auto).
  assert (D : forall sigs sig h' w',
             acts l (CancelOn sigs, w) = (h', w') -> at_work h' = true ->
             stage h' = Starting \/ relays sigs sig = false ->
             acts (l ++ [Arrives sig]) (CancelOn sigs, w)
             = ({| stage := if fatal sig then Killed sig else Unfollowed sig;
                   notified := sigs; inbox := inbox h' |}, w')).
  { intros sigs sig h' w' E Hw Hs.
    destruct (acts_in_step l (I0 sigs)) as [_ N]. rewrite E in N. simpl in N.
    rewrite acts_app, E. unfold acts. simpl. unfold act, by_default, at_work in *.
    rewrite N.
    destruct Hs as [Hs|Hs].
    - rewrite Hs. reflexivity.
    - rewrite Hs. destruct (stage h'); try discriminate Hw; reflexivity. }
  destruct (acts_in_step l (I0 signals)) as [I N]. simpl in I, N.
  split; [exact I|].
  split.
  { intros Z. rewrite Z in I.
    destruct (acts l (CancelOn signals, w)) as [h' w']. simpl in *.
    destruct (stage h').
    - unfold canceled. rewrite (proj1 I). reflexivity.
    - unfold canceled. rewrite (proj1 I). reflexivity.
    - lia.
    - lia.
    - unfold canceled. destruct (cancelAt w') as [c|]; [|reflexivity].
      assert (X : 1 <= 0) by (apply (proj2 I); discriminate). lia.
    - unfold canceled. destruct (cancelAt w') as [c|]; [|reflexivity].
      assert (X : 1 <= 0) by (apply (proj2 I); discriminate). lia. }
  split; [apply D|].
  split.
  { intros sig. unfold relays, CancelOnSignals, CancelOn, notified, Interrupt, Kill,
      SIGTERM, SIGSTOP. cbn [existsb].
    destruct (Nat.eqb_spec sig 9) as [->|N9]; simpl.
    { split; [discriminate|]. intros [E|E]; discriminate E. }
    destruct (Nat.eqb_spec sig 19) as [->|N19]; simpl.
    { split; [discriminate|]. intros [E|E]; discriminate E. }
    destruct (Nat.eqb_spec sig 2) as [->|N2]; simpl; [tauto|].
    destruct (Nat.eqb_spec sig 15) as [->|N15]; simpl; [tauto|].
    split; [discriminate|]. intros [E|E]; contradiction. }
  intros h' w' E Hw.
  exact (D [Interrupt; Kill; SIGTERM] Kill h' w' E Hw (or_intror eq_refl)).
Qed.

Lemma runs_blocked (k : nat) (h : Handler) (w : World) :
  stage h <> Starting -> inbox h = None ->
  acts (repeat Runs k) (h, w) = (h, w).
Proof.
  intros Hs Hi.
  assert (E : act Runs (h, w) = (h, w)).
  { unfold act. rewrite Hi. destruct (stage h); try reflexivity.
    contradiction Hs; reflexivity. }
  induction k as [|k IH]; [reflexivity|].
  change (acts (repeat Runs (S k)) (h, w))
    with (acts (repeat Runs k) (act Runs (h, w))).
  rewrite E. exact IH.
Qed.

Lemma arrivals_dropped (burst : list Signal) (h : Handler) (w : World) (sig : Signal) :
  (stage h = AwaitFirst \/ stage h = AwaitSecond) -> inbox h = Some sig ->
  Forall (fun b => relays (notified h) b = true) burst ->
  acts (map Arrives burst) (h, w) = (h, w).
Proof.
  intros Hs Hi Hb. induction Hb as [|b burst Hr Hb IH]; [reflexivity|].
  change (acts (map Arrives (b :: burst)) (h, w))
    with (acts (map Arrives burst) (act (Arrives b) (h, w))).
  assert (E : act (Arrives b) (h, w) = (h, w)).
  { unfold act. rewrite Hi, Hr.
    destruct Hs as [-> | ->]; reflexivity. }
  rewrite E. exact IH.
Qed.

(** X15. Relayed signals that arrive in a burst count once: when a relayed
    signal arrives at the waiting goroutine, the relayed signals that
    arrive before the goroutine runs find the channel full and are dropped;
    the goroutine then cancels the client and waits again, however often it
    runs, and the process does not exit. One more relayed signal after
    that, and the goroutine exits the process with code 1 when it runs. *)
Theorem burst_of_signals_counts_once (signals : list Signal) (sig : Signal)
    (burst : list Signal) (k : nat) (w : World) :
  cancelAt w = None ->
  relays signals sig = true ->
  Forall (fun b => relays signals b = true) burst ->
  exists w',
    acts (Runs :: Arrives sig :: map Arrives burst ++ repeat Runs (S k))
      (CancelOn signals, w)
    = ({| stage := AwaitSecond; notified := signals; inbox := None |}, w')
    /\ canceled w' = true /\ now w' = now w
    /\ forall sig2 k2,
         relays signals sig2 = true ->
         stage (fst (acts (Arrives sig2 :: repeat Runs (S k2))
                       ({| stage := AwaitSecond; notified := signals;
                           inbox := None |}, w')))
         = Exited 1.
Proof.
  intros Hc Hr Hb.
  exists (cancel (happen (EvLog "got signal ") w)).
  split.
  { change (acts (Runs :: Arrives sig :: map Arrives burst ++ repeat Runs (S k))
              (CancelOn signals, w))
      with (acts (map Arrives burst ++ repeat Runs (S k))
              (act (Arrives sig) (act Runs (CancelOn signals, w)))).
    cbn [act CancelOn stage notified inbox]. rewrite Hr.
    rewrite acts_app.
    rewrite (@arrivals_dropped burst _ _ sig) by (simpl; auto).
    change (repeat Runs (S k)) with (Runs :: repeat Runs k).
    change (acts (Runs :: repeat Runs k) ?x) with (acts (repeat Runs k) (act Runs x)).
    cbn [act stage notified inbox].
    apply runs_blocked; [discriminate|reflexivity]. }
  split; [apply cancel_cancels|].
  split.
  { unfold cancel. destruct (canceled (happen (EvLog "got signal ") w)); reflexivity. }
  intros sig2 k2 Hr2.
  change (acts (Arrives sig2 :: repeat Runs (S k2)) ?x)
    with (acts (repeat Runs k2) (act Runs (act (Arrives sig2) x))).
  cbn [act stage notified inbox]. rewrite Hr2. cbn [act stage notified inbox].
  clear. induction k2 as [|k2 IH]; [reflexivity|exact IH].
Qed.

End Signaled.

(** ** The first call *)

Section FirstCall.
Context {schema : Schema}.
Local Open Scope go_scope.



End FirstCall.

(** ** The goroutine and the loop, again *)

Section Handover.
Variable A : Type.
Variable capacity : nat.

(** While a goroutine that is to panic has not brought the process down,
    it has not ended; and it never ends by closing alone. *)
Lemma panic_keeps (l : list A) (s : chan.Sys A) :
  chan.steps capacity (chan.start l chan.ThenPanic) s ->
  (chan.ending s = None -> chan.crashed s = true)
  /\ chan.ending s <> Some chan.ThenClose.
Proof.
  intros H.
  refine (steps_keep (P:=fun s => (chan.ending s = None -> chan.crashed s = true)
                                  /\ chan.ending s <> Some chan.ThenClose) _ H _).
  - clear. intros s s' St; inversion St; subst; simpl; intros [E1 E2];
      split; auto; try discriminate; congruence.
  - simpl. split; discriminate.
Qed.

(** A goroutine that is to close never panics. *)
Lemma close_keeps (l : list A) (s : chan.Sys A) :
  chan.steps capacity (chan.start l chan.ThenClose) s ->
  chan.crashed s = false
  /\ (chan.ending s = Some chan.ThenClose \/ chan.ending s = None).
Proof.
  intros H.
  refine (steps_keep (P:=fun s => chan.crashed s = false
                                  /\ (chan.ending s = Some chan.ThenClose
                                      \/ chan.ending s = None)) _ H _).
  - clear. intros s s' St; inversion St; subst; simpl; intros [E1 [E2|E2]];
      split; auto; congruence.
  - simpl. auto.
Qed.

(** The process goes down only at the end of the goroutine. *)
Lemma crash_ends (l : list A) (e : chan.Ending) (s : chan.Sys A) :
  chan.steps capacity (chan.start l e) s ->
  chan.crashed s = true -> chan.ending s = None.
Proof.
  intros H.
  refine (steps_keep (P:=fun s => chan.crashed s = true -> chan.ending s = None)
            _ H _).
  - clear. intros s s' St; inversion St; subst; simpl; auto; discriminate.
  - simpl. discriminate.
Qed.

Lemma steps_trans (s1 s2 s3 : chan.Sys A) :
  chan.steps capacity s1 s2 -> chan.steps capacity s2 s3 ->
  chan.steps capacity s1 s3.
Proof.
  intros H. induction H as [|s1 s s2 St _ IH]; auto.
  intros H3. eapply Relation_Operators.rt1n_trans; [exact St|]. apply IH, H3.
Qed.

(** The goroutine and the loop, one item at a time: each item is sent and
    then received. *)
Lemma hand_over (p : list A) :
  0 < capacity ->
  forall e i,
    chan.steps capacity
      {| chan.pending := p; chan.ending := e; chan.buffer := [];
         chan.closed := false; chan.items := i; chan.returned := false;
         chan.crashed := false |}
      {| chan.pending := []; chan.ending := e; chan.buffer := [];
         chan.closed := false; chan.items := i ++ p; chan.returned := false;
         chan.crashed := false |}.
Proof.
  intros Hcap. induction p as [|x p IH]; intros e i.
  - rewrite app_nil_r. apply rt1n_refl.
  - eapply Relation_Operators.rt1n_trans.
    { apply chan.step_send. simpl. exact Hcap. }
    eapply Relation_Operators.rt1n_trans.
    { simpl. apply chan.step_recv. }
    replace (i ++ x :: p) with ((i ++ [x]) ++ p)
      by (rewrite <- app_assoc; reflexivity).
    apply IH.
Qed.

(** X17. When the goroutine of [NextCh] panics, its deferred call closes
    the channel and then the process goes down, whatever the order in which
    the goroutine and the loop take their turns: until the process is down
    one of them can take a turn, each turn leaves less to do, and once it
    is down nothing takes a turn. The process goes down only after the
    deferred close, with nothing left to send. What the loop has received
    at any time is a prefix of what the goroutine sent before it panicked;
    the [range] loop of [Next] may return before the process is down, and
    then it has received all of it. Both happen: there is an order of turns
    in which the loop has returned when the process goes down, and one in
    which it has not. *)
Theorem panicking_goroutine_takes_the_process_down (l : list A) (s : chan.Sys A) :
  0 < capacity ->
  chan.steps capacity (chan.start l chan.ThenPanic) s ->
  (chan.returned s = true -> chan.items s = l /\ chan.closed s = true)
  /\ (exists rest, l = chan.items s ++ rest)
  /\ (chan.crashed s = false -> exists s', chan.step capacity s s')
  /\ (forall s', chan.step capacity s s' -> chan.left s' < chan.left s)
  /\ (chan.crashed s = true ->
      chan.closed s = true /\ chan.pending s = []
      /\ forall s', ~ chan.step capacity s s')
  /\ (exists s1,
        chan.steps capacity (chan.start l chan.ThenPanic) s1
        /\ chan.crashed s1 = true /\ chan.returned s1 = true
        /\ chan.items s1 = l)
  /\ (exists s2,
        chan.steps capacity (chan.start l chan.ThenPanic) s2
        /\ chan.crashed s2 = true /\ chan.returned s2 = false).
Proof.
  intros Hcap Hs.
  assert (Hne : chan.ThenPanic <> chan.Crashing) by discriminate.
  pose proof (steps_keep (P:=@chan.orderly A) (@step_orderly A capacity) Hs
                (start_orderly l Hne)) as [O1 [O2 O3]].
  destruct (panic_keeps Hs) as [P1 P2].
  split.
  { intros R. split; [exact (range_receives_all Hne Hs R)|].
    exact (proj2 (O3 R)). }
  split.
  { exists (chan.buffer s ++ chan.pending s).
    symmetry.
    apply (steps_keep (P:=chan.carried l) (@step_carried A capacity l) Hs).
    apply start_carried. }
  split.
  { intros C. destruct (chan.returned s) eqn:R.
    - destruct (O3 eq_refl) as [Hb Hc]. destruct (O1 Hc) as [Hp [He|He]].
      + rewrite (P1 He) in C. discriminate C.
      + destruct s as [p en b c i r cr]. simpl in *. subst.
        eexists. apply chan.step_crash.
    - eapply channel_progress; eauto. }
  split; [intros s'; apply step_left|].
  split.
  { intros C.
    pose proof (crash_ends Hs C) as K.
    destruct (O2 (or_introl K)) as [Hc Hp].
    split; [exact Hc|]. split; [exact Hp|].
    intros s' St. inversion St; subst; simpl in C; discriminate C. }
  split.
  - exists {| chan.pending := []; chan.ending := None; chan.buffer := [];
              chan.closed := true; chan.items := l; chan.returned := true;
              chan.crashed := true |}.
    split; [|simpl; auto].
    eapply steps_trans; [apply (hand_over l Hcap (Some chan.ThenPanic) [])|].
    eapply Relation_Operators.rt1n_trans; [apply chan.step_panic|].
    eapply Relation_Operators.rt1n_trans; [apply chan.step_end|].
    eapply Relation_Operators.rt1n_trans; [apply chan.step_crash|].
    apply rt1n_refl.
  - exists {| chan.pending := []; chan.ending := None; chan.buffer := [];
              chan.closed := true; chan.items := l; chan.returned := false;
              chan.crashed := true |}.
    split; [|simpl; auto].
    eapply steps_trans; [apply (hand_over l Hcap (Some chan.ThenPanic) [])|].
    eapply Relation_Operators.rt1n_trans; [apply chan.step_panic|].
    eapply Relation_Operators.rt1n_trans; [apply chan.step_crash|].
    apply rt1n_refl.
Qed.

(** X18. [Next] returns only once the goroutine is done: in every order of
    turns, when the [range] loop has returned it has received all that was
    sent, and the goroutine has ended or has panicked and run its deferred
    close, with nothing left to send and nothing in the channel; the only
    turn that may be left is the end of the process after a panic, and after
    a goroutine that closes there is none. So the store is not read any
    more when the caller starts the next round, which writes it. *)
Theorem range_returns_after_the_goroutine (l : list A) (e : chan.Ending)
    (s : chan.Sys A) :
  e <> chan.Crashing ->
  chan.steps capacity (chan.start l e) s ->
  chan.returned s = true ->
  chan.pending s = [] /\ chan.buffer s = [] /\ chan.closed s = true
  /\ chan.items s = l
  /\ (chan.ending s = None \/ chan.ending s = Some chan.Crashing)
  /\ (forall s', chan.step capacity s s' ->
                 chan.ending s = Some chan.Crashing /\ chan.crashed s' = true
                 /\ chan.items s' = l /\ chan.returned s' = true)
  /\ (e = chan.ThenClose ->
      chan.ending s = None /\ chan.crashed s = false
      /\ forall s', ~ chan.step capacity s s').
Proof.
  intros He Hs Hr.
  pose proof (steps_keep (P:=@chan.orderly A) (@step_orderly A capacity) Hs
                (start_orderly l He)) as [O1 [O2 O3]].
  destruct (O3 Hr) as [Hb Hc]. destruct (O1 Hc) as [Hp Hen].
  pose proof (range_receives_all He Hs Hr) as Hi.
  split; [exact Hp|]. split; [exact Hb|]. split; [exact Hc|].
  split; [exact Hi|]. split; [exact Hen|].
  split.
  { intros s' St. inversion St; subst; simpl in *; try discriminate;
      try (destruct Hen as [X|X]; discriminate X).
    auto. }
  intros ->. destruct (close_keeps Hs) as [C [E|E]].
  { destruct Hen as [X|X]; rewrite E in X; discriminate X. }
  split; [exact E|]. split; [exact C|].
  intros s' St. inversion St; subst; simpl in *; discriminate.
Qed.

End Handover.

(** * The properties on concrete rounds *)

(** Scenario A: one aggregate, the service with its two endpoints in order. *)
Lemma round_aggregates_witness :
  ascending (btree.New 2 : list (kv (schema:=names)))
  /\ orphan_first (effects (schema:=names)
                     [set_op Set_ServicesSet "ns/svc" "S";
                      set_op Set_EndpointsSet "ns/svc/ep1" "E1";
                      set_op Set_EndpointsSet "ns/svc/ep2" "E2"] (btree.New 2))
     = false
  /\ spec_aggregates
       [service_at "ns/svc" "S"; endpoint_at "ns/svc/ep1" "E1";
        endpoint_at "ns/svc/ep2" "E2"]
     = [aggregate "S" ["E1"%string; "E2"%string]]
  /\ exists epc' w',
       Next (schema:=names) (2 + 3 + 0) tt (connected 1 []) (round_of scenario_A)
       = Ret (spec_aggregates
                (effects [set_op Set_ServicesSet "ns/svc" "S";
                          set_op Set_EndpointsSet "ns/svc/ep1" "E1";
                          set_op Set_EndpointsSet "ns/svc/ep2" "E2"] (btree.New 2)),
              false) epc' w'
       /\ data epc'
          = Some (effects [set_op Set_ServicesSet "ns/svc" "S";
                           set_op Set_EndpointsSet "ns/svc/ep1" "E1";
                           set_op Set_EndpointsSet "ns/svc/ep2" "E2"] (btree.New 2))
       /\ ascending
            (effects (schema:=names)
               [set_op Set_ServicesSet "ns/svc" "S";
                set_op Set_EndpointsSet "ns/svc/ep1" "E1";
                set_op Set_EndpointsSet "ns/svc/ep2" "E2"] (btree.New 2)).
Proof.
  split; [constructor|]. split; [reflexivity|]. split; [reflexivity|].
  apply (@round_aggregates names
           [(0, set_op Set_ServicesSet "ns/svc" "S");
            (0, set_op Set_EndpointsSet "ns/svc/ep1" "E1");
            (0, set_op Set_EndpointsSet "ns/svc/ep2" "E2")]
           0 tt (connected 1 []) (round_of scenario_A) 0 (btree.New 2)
           0 [] 0 sync_op []);
    try reflexivity; repeat constructor.
Defined.

Example scenario_A_aggregates :
  exists w',
    Next (schema:=names) 5 tt (connected 1 []) (round_of scenario_A)
    = Ret ([aggregate "S" ["E1"%string; "E2"%string]], false)
          (connected 1 [service_at "ns/svc" "S"; endpoint_at "ns/svc/ep1" "E1";
                        endpoint_at "ns/svc/ep2" "E2"])
          w'.
Proof. eexists. vm_compute. reflexivity. Qed.

(** The store as a map, on a store of two entries. *)
Lemma store_is_an_ordered_map_witness :
  ascending [service_at "ns/svc" "S"; endpoint_at "ns/svc/ep1" "E1"]
  /\ lookup "ns/svc/ep1"
       (btree.ReplaceOrInsert Less (endpoint_at "ns/svc/ep1" "E9")
          [service_at "ns/svc" "S"; endpoint_at "ns/svc/ep1" "E1"])
     = Some (endpoint_at "ns/svc/ep1" "E9")
  /\ lookup "ns/svc/ep1"
       (btree.Delete Less (endpoint_at "ns/svc/ep1" "E9")
          [service_at "ns/svc" "S"; endpoint_at "ns/svc/ep1" "E1"])
     = None.
Proof.
  assert (Ha : ascending [service_at "ns/svc" "S"; endpoint_at "ns/svc/ep1" "E1"]).
  { repeat constructor. }
  split; [exact Ha|].
  destruct (@store_is_an_ordered_map names (endpoint_at "ns/svc/ep1" "E9")
              [service_at "ns/svc" "S"; endpoint_at "ns/svc/ep1" "E1"]
              "ns/svc/ep1" Ha) as [H1 [H2 _]].
  split; [exact H1|exact H2].
Defined.

(** The channel of capacity 100 at its start, with two aggregates to send. *)
Lemma channel_hands_over_everything_witness :
  0 < 100
  /\ chan.steps 100
       (on_channel (Closes [aggregate "S" []; aggregate "T" []]))
       (on_channel (Closes [aggregate "S" []; aggregate "T" []]))
  /\ (exists s',
        chan.step 100 (on_channel (Closes [aggregate "S" []; aggregate "T" []])) s')
  /\ List.length
       (chan.buffer (on_channel (Closes [aggregate "S" []; aggregate "T" []])))
     <= 100.
Proof.
  assert (Hs : chan.steps 100
                 (on_channel (Closes [aggregate "S" []; aggregate "T" []]))
                 (on_channel (Closes [aggregate "S" []; aggregate "T" []]))).
  { constructor. }
  assert (Hc : 0 < 100) by lia.
  split; [exact Hc|]. split; [exact Hs|].
  destruct (@channel_hands_over_everything _ 100
              [aggregate "S" []; aggregate "T" []] _ Hc Hs) as [_ [H2 [_ H4]]].
  split; [apply H2; reflexivity|exact H4].
Defined.

(** Scenario B: the goroutine dies on the endpoint; [Next] returns the
    empty list at best, with the process going down. *)
Example scenario_B_panics :
  exists w',
    NextCh (schema:=names) 3 tt (connected 1 []) (round_of scenario_B)
    = Ret (FedBy (Dies []), false)
          (connected 1 [endpoint_at "ns/svc/ep1" "E1"]) w'
    /\ Next (schema:=names) 3 tt (connected 1 []) (round_of scenario_B)
       = Dying ([], false) (connected 1 [endpoint_at "ns/svc/ep1" "E1"]) w'.
Proof. eexists. split; vm_compute; reflexivity. Qed.

(** The oneof left nil, then a [Sync]. *)
Lemma unknown_operation_is_skipped_witness :
  localnetv1.Op nil_op = None
  /\ applyOp (schema:=names) nil_op (connected 1 []) (round_of [nil_op; sync_op])
     = Ret ContinueApply (connected 1 []) (round_of [nil_op; sync_op])
  /\ apply (schema:=names) 2 (connected 1 []) (round_of [nil_op; sync_op])
     = apply 1 (connected 1 [])
         (happen (EvRecv 0 (Some nil_op))
            (pass 0 (set_recvs (answers [sync_op]) (round_of [nil_op; sync_op])))).
Proof.
  split; [reflexivity|].
  destruct (@unknown_operation_is_skipped names nil_op (connected 1 [])
              (round_of [nil_op; sync_op]) eq_refl) as [H1 H2].
  split; [exact H1|]. apply H2; reflexivity.
Defined.

(** A round that is a [Sync] alone. *)
Lemma sync_leaves_the_store_witness :
  localnetv1.Op sync_op = Some OpItem_Sync
  /\ applyOp (schema:=names) sync_op (connected 1 []) (round_of [sync_op])
     = Ret BreakApply (connected 1 []) (round_of [sync_op])
  /\ exists w',
       NextCh (schema:=names) 2 tt (connected 1 []) (round_of [sync_op])
       = Ret (FedBy (Closes []), false) (connected 1 []) w'
       /\ Next (schema:=names) 2 tt (connected 1 []) (round_of [sync_op])
          = Ret ([], false) (connected 1 []) w'.
Proof.
  split; [reflexivity|].
  destruct (@sync_leaves_the_store names sync_op (connected 1 [])
              (round_of [sync_op]) eq_refl) as [H1 H2].
  split; [exact H1|].
  apply (H2 0 tt 0 0 [] 0 []); reflexivity.
Defined.

(** A [Delete] of a path the store does not hold. *)
Lemma delete_of_absent_path_witness :
  localnetv1.Op (delete_op "ns/none") =
    Some (OpItem_Delete (ref_of Set_ServicesSet "ns/none"))
  /\ data (connected 1 [service_at "ns/svc" "S"]) = Some [service_at "ns/svc" "S"]
  /\ ~ In "ns/none"%string (map Path [service_at "ns/svc" "S"])
  /\ applyOp (schema:=names) (delete_op "ns/none")
       (connected 1 [service_at "ns/svc" "S"]) (round_of [])
     = Ret ContinueApply (connected 1 [service_at "ns/svc" "S"]) (round_of []).
Proof.
  assert (Hin : ~ In "ns/none"%string (map Path [service_at "ns/svc" "S"])).
  { simpl. intros [H|[]]. discriminate H. }
  split; [reflexivity|]. split; [reflexivity|]. split; [exact Hin|].
  exact (proj1 (@delete_of_absent_path names
                  (ref_of Set_ServicesSet "ns/none")
                  (delete_op "ns/none")
                  (connected 1 [service_at "ns/svc" "S"]) (round_of [])
                  [service_at "ns/svc" "S"] eq_refl eq_refl Hin)).
Defined.

(** A [Set] of an unknown set, a [Set] whose payload does not decode, and a
    [Set] that is stored over an older value of its path, next to an
    endpoint that stays as it is. *)
Lemma set_is_decoded_then_stored_witness :
  (empty_for (Set_Unknown 7) = None
   /\ applyOp (schema:=names) (set_op (Set_Unknown 7) "ns/x" "X")
        (connected 1 []) (round_of [])
      = Ret ContinueApply (connected 1 []) (round_of []))
  /\ (Unmarshal (schema:=names) (list_byte_of_string "") EmptyService = None
      /\ applyOp (schema:=names) (set_op Set_ServicesSet "ns/svc" "")
           (connected 1 []) (round_of [])
         = Ret ContinueApply (connected 1 [])
             (happen (EvLog "failed to parse value: ")
                (happen (EvUnmarshal (list_byte_of_string "") EmptyService false)
                   (round_of []))))
  /\ (Unmarshal (schema:=names) (list_byte_of_string "S2") EmptyService
      = Some (Msg_Service (schema:=names) "S2"%string)
      /\ ascending [service_at "ns/svc" "S"; endpoint_at "ns/svc/ep1" "E1"]
      /\ applyOp (schema:=names) (set_op Set_ServicesSet "ns/svc" "S2")
           (connected 1 [service_at "ns/svc" "S"; endpoint_at "ns/svc/ep1" "E1"])
           (round_of [])
         = Ret ContinueApply
             (connected 1 [service_at "ns/svc" "S2"; endpoint_at "ns/svc/ep1" "E1"])
             (happen (EvUnmarshal (list_byte_of_string "S2") EmptyService true)
                (round_of []))
      /\ lookup "ns/svc" [service_at "ns/svc" "S2"; endpoint_at "ns/svc/ep1" "E1"]
         = Some (service_at "ns/svc" "S2")
      /\ lookup "ns/svc/ep1"
           [service_at "ns/svc" "S2"; endpoint_at "ns/svc/ep1" "E1"]
         = lookup "ns/svc/ep1"
             [service_at "ns/svc" "S"; endpoint_at "ns/svc/ep1" "E1"]).
Proof.
  split; [|split].
  - split; [reflexivity|].
    exact (proj1 (@set_is_decoded_then_stored names
                    (value_of (Set_Unknown 7) "ns/x" "X")
                    (ref_of (Set_Unknown 7) "ns/x")
                    (set_op (Set_Unknown 7) "ns/x" "X")
                    (connected 1 []) (round_of []) eq_refl eq_refl) eq_refl).
  - split; [reflexivity|].
    exact (proj1 (proj2 (@set_is_decoded_then_stored names
                           (value_of Set_ServicesSet "ns/svc" "")
                           (ref_of Set_ServicesSet "ns/svc")
                           (set_op Set_ServicesSet "ns/svc" "")
                           (connected 1 []) (round_of []) eq_refl eq_refl))
                 EmptyService eq_refl eq_refl).
  - split; [reflexivity|].
    assert (Ha : ascending [service_at "ns/svc" "S"; endpoint_at "ns/svc/ep1" "E1"]).
    { repeat constructor. }
    split; [exact Ha|].
    destruct (proj2 (proj2 (@set_is_decoded_then_stored names
                              (value_of Set_ServicesSet "ns/svc" "S2")
                              (ref_of Set_ServicesSet "ns/svc")
                              (set_op Set_ServicesSet "ns/svc" "S2")
                              (connected 1 [service_at "ns/svc" "S";
                                            endpoint_at "ns/svc/ep1" "E1"])
                              (round_of []) eq_refl eq_refl))
                EmptyService (Msg_Service (schema:=names) "S2"%string)
                [service_at "ns/svc" "S"; endpoint_at "ns/svc/ep1" "E1"]
                eq_refl eq_refl eq_refl)
      as [E [epc1 [w1 [t1 [E1 [Hd [_ Hl]]]]]]].
    split; [exact E|].
    rewrite E in E1. inversion E1 as [[He Hw]]. rewrite <- He in Hd.
    inversion Hd as [Ht].
    destruct (Hl Ha) as [_ [Hp [_ Ho]]]. rewrite <- Ht in Hp, Ho.
    split; [exact Hp|].
    apply Ho. discriminate.
Defined.

(** A [Set] on a path that is in the store, twice. *)
Lemma set_twice_is_set_once_witness :
  ascending [service_at "ns/svc" "S"; endpoint_at "ns/svc/ep1" "E1"]
  /\ applyOp (schema:=names) (set_op Set_ServicesSet "ns/svc" "S2")
       (connected 1 [service_at "ns/svc" "S"; endpoint_at "ns/svc/ep1" "E1"])
       (round_of [])
     = Ret ContinueApply
         (connected 1 [service_at "ns/svc" "S2"; endpoint_at "ns/svc/ep1" "E1"])
         (happen (EvUnmarshal (list_byte_of_string "S2") EmptyService true)
            (round_of []))
  /\ (exists w2,
        applyOp (schema:=names) (set_op Set_ServicesSet "ns/svc" "S2")
          (connected 1 [service_at "ns/svc" "S2"; endpoint_at "ns/svc/ep1" "E1"])
          (happen (EvUnmarshal (list_byte_of_string "S2") EmptyService true)
             (round_of []))
        = Ret ContinueApply
            (connected 1 [service_at "ns/svc" "S2"; endpoint_at "ns/svc/ep1" "E1"])
            w2)
  /\ NoDup (map Path [service_at "ns/svc" "S2"; endpoint_at "ns/svc/ep1" "E1"])
  /\ map Path [service_at "ns/svc" "S2"; endpoint_at "ns/svc/ep1" "E1"]
     = map Path [service_at "ns/svc" "S"; endpoint_at "ns/svc/ep1" "E1"]
  /\ lookup "ns/svc" [service_at "ns/svc" "S2"; endpoint_at "ns/svc/ep1" "E1"]
     = Some (service_at "ns/svc" "S2")
  /\ lookup "ns/svc/ep1" [service_at "ns/svc" "S2"; endpoint_at "ns/svc/ep1" "E1"]
     = lookup "ns/svc/ep1" [service_at "ns/svc" "S"; endpoint_at "ns/svc/ep1" "E1"]
  /\ List.length [service_at "ns/svc" "S2"; endpoint_at "ns/svc/ep1" "E1"]
     = List.length [service_at "ns/svc" "S"; endpoint_at "ns/svc/ep1" "E1"].
Proof.
  assert (Ha : ascending [service_at "ns/svc" "S"; endpoint_at "ns/svc/ep1" "E1"]).
  { repeat constructor. }
  assert (Hr : applyOp (schema:=names) (set_op Set_ServicesSet "ns/svc" "S2")
                 (connected 1 [service_at "ns/svc" "S"; endpoint_at "ns/svc/ep1" "E1"])
                 (round_of [])
               = Ret ContinueApply
                   (connected 1 [service_at "ns/svc" "S2"; endpoint_at "ns/svc/ep1" "E1"])
                   (happen (EvUnmarshal (list_byte_of_string "S2") EmptyService true)
                      (round_of []))).
  { reflexivity. }
  split; [exact Ha|]. split; [exact Hr|].
  destruct (@set_twice_is_set_once names
              (value_of Set_ServicesSet "ns/svc" "S2")
              (set_op Set_ServicesSet "ns/svc" "S2")
              (connected 1 [service_at "ns/svc" "S"; endpoint_at "ns/svc/ep1" "E1"])
              (round_of [])
              [service_at "ns/svc" "S"; endpoint_at "ns/svc/ep1" "E1"]
              _ _ _ eq_refl eq_refl Ha Hr) as [H1 [t1 [Hd [Ht [_ [Hn [Hp Hv]]]]]]].
  split; [exact H1|].
  assert (E : t1 = [service_at "ns/svc" "S2"; endpoint_at "ns/svc/ep1" "E1"]).
  { rewrite Ht. reflexivity. }
  rewrite E in Hn, Hp, Hv.
  assert (Hin : In "ns/svc"%string
                  (map Path [service_at "ns/svc" "S";
                             endpoint_at "ns/svc/ep1" "E1"])).
  { simpl. left. reflexivity. }
  split; [exact Hn|].
  split; [exact (Hp (ref_of Set_ServicesSet "ns/svc") eq_refl Hin)|].
  destruct (Hv (ref_of Set_ServicesSet "ns/svc") EmptyService
               (Msg_Service (schema:=names) "S2"%string)
               eq_refl eq_refl eq_refl) as [Hl [Ho [Hi _]]].
  split; [exact Hl|]. split; [apply Ho; discriminate|].
  exact (proj2 (Hi Hin)).
Defined.

(** Scenario B, through the theorem. *)
Lemma orphan_endpoint_panics_witness :
  localnetv1.Unmarshal_Endpoint (Schema:=names) (list_byte_of_string "E1")
  = Some "E1"%string
  /\ canceled (round_of scenario_B) = false
  /\ exists epc' w',
       data epc' = Some [endpoint_at "ns/svc/ep1" "E1"]
       /\ NextCh (schema:=names) 3 tt (connected 1 []) (round_of scenario_B)
          = Ret (FedBy (Dies []), false) epc' w'
       /\ Next (schema:=names) 3 tt (connected 1 []) (round_of scenario_B)
          = Dying ([], false) epc' w'.
Proof.
  split; [reflexivity|]. split; [reflexivity|].
  exact (@orphan_endpoint_panics names
           (value_of Set_EndpointsSet "ns/svc/ep1" "E1")
           (ref_of Set_EndpointsSet "ns/svc/ep1") "E1"%string
           (set_op Set_EndpointsSet "ns/svc/ep1" "E1") sync_op
           0 tt (connected 1 []) (round_of scenario_B) 0 0 [] 0 0 []
           eq_refl eq_refl eq_refl eq_refl eq_refl eq_refl eq_refl eq_refl
           eq_refl eq_refl).
Defined.

(** An endpoint sorted before the only service, through the theorem. *)
Lemma service_after_orphan_is_lost_witness :
  String.ltb "ns/a/ep" "ns/svc" = true
  /\ canceled (round_of orphan_then_service) = false
  /\ exists t epc' w',
       data epc' = Some t
       /\ spec_aggregates t = [aggregate "S" []]
       /\ NextCh (schema:=names) 4 tt (connected 1 []) (round_of orphan_then_service)
          = Ret (FedBy (Dies []), false) epc' w'
       /\ Next (schema:=names) 4 tt (connected 1 []) (round_of orphan_then_service)
          = Dying ([], false) epc' w'.
Proof.
  split; [reflexivity|]. split; [reflexivity|].
  exact (@service_after_orphan_is_lost names
           (value_of Set_EndpointsSet "ns/a/ep" "E1")
           (value_of Set_ServicesSet "ns/svc" "S")
           (ref_of Set_EndpointsSet "ns/a/ep")
           (ref_of Set_ServicesSet "ns/svc") "E1"%string "S"%string
           (set_op Set_EndpointsSet "ns/a/ep" "E1")
           (set_op Set_ServicesSet "ns/svc" "S") sync_op
           0 tt (connected 1 []) (round_of orphan_then_service) 0 0 [] 0 0 0 []
           eq_refl eq_refl eq_refl eq_refl eq_refl eq_refl eq_refl eq_refl
           eq_refl eq_refl eq_refl eq_refl eq_refl eq_refl eq_refl).
Defined.

(** A context canceled from the start, and scenario A without cancellation. *)
Lemma canceled_before_the_send_witness :
  canceled canceled_at_start = true
  /\ NextCh (schema:=names) 1 tt (fresh 1) canceled_at_start
     = Ret (ClosedEmpty, true) (fresh 1) canceled_at_start
  /\ Next (schema:=names) 1 tt (fresh 1) canceled_at_start
     = Ret ([], true) (fresh 1) canceled_at_start
  /\ exists epc' w',
       NextCh (schema:=names) 5 tt (connected 1 []) (round_of scenario_A)
       = Ret (FedBy (Closes [aggregate "S" ["E1"%string; "E2"%string]]), false)
             epc' w'
       /\ exists g,
            FedBy (Closes [aggregate "S" ["E1"%string; "E2"%string]]) = FedBy g
            /\ Next (schema:=names) 5 tt (connected 1 []) (round_of scenario_A)
               = match g, data epc' with
                 | Closes sent, _ => Ret (sent, false) epc' w'
                 | Dies sent, Some _ => Dying (sent, false) epc' w'
                 | Dies _, None => Panic epc' w'
                 end
            /\ forall s sent,
                 g = Closes sent \/ g = Dies sent ->
                 chan.steps 100 (on_channel g) s -> chan.returned s = true ->
                 chan.items s = sent.
Proof.
  split; [reflexivity|].
  destruct (proj1 (@canceled_before_the_send names 0 tt (fresh 1) canceled_at_start)
              eq_refl) as [_ [H1 H2]].
  split; [exact H1|]. split; [exact H2|].
  eexists. eexists. split; [vm_compute; reflexivity|].
  apply (proj2 (proj2 (@canceled_before_the_send names 5 tt (connected 1 [])
                         (round_of scenario_A)))).
  vm_compute. reflexivity.
Defined.

(** The watch fails to start at tick 1, when the context is canceled; [dial]
    sleeps all the same, from tick 1 to tick 6, and only then gives up. So no
    check stands before this sleep, and the sleep is not cut short. *)
Lemma sleep_starts_after_cancellation :
  (exists w',
     dial (schema:=names) 2 (fresh 5) canceled_during_dial
     = Ret true {| ErrorDelay := 5; conn := Some 1; watch := None; data := None |} w'
     /\ cancelAt w' = Some 1 /\ now w' = 6
     /\ trace w' = [EvSleep 1 5; EvLog "failed to start watch: "; EvClose 1;
                    EvWatch 1 false; EvDialContext DialOk;
                    EvLog "connecting to "])
  /\ ~ checked_before_each_sleep (schema:=names)
  /\ ~ sleep_is_interruptible (schema:=names).
Proof.
  split; [|split].
  - eexists. split; [vm_compute; reflexivity|]. simpl. auto.
  - intros H.
    assert (L : 1 < 1).
    { refine (H 2 (fresh 5) canceled_during_dial true _ _
                [EvSleep 1 5; EvLog "failed to start watch: "; EvClose 1;
                 EvWatch 1 false; EvDialContext DialOk;
                    EvLog "connecting to "]
                _ _ 1 5 1 _ _).
      - vm_compute. reflexivity.
      - reflexivity.
      - left. reflexivity.
      - reflexivity. }
    exact (Nat.lt_irrefl 1 L).
  - intros H.
    assert (L : 5 <= 1).
    { refine (H (fresh 5) canceled_during_dial (fresh 5)
                (pass 5 (happen (EvSleep 0 5) canceled_during_dial)) 1 _ _ _).
      - reflexivity.
      - reflexivity.
      - simpl. lia. }
    lia.
Defined.

(** The checks, and the sleep that is slept through. *)
Lemma backoff_checks_then_sleeps_through_witness :
  canceled canceled_at_start = true
  /\ dial (schema:=names) 1 (fresh 5) canceled_at_start
     = Ret true (fresh 5) canceled_at_start
  /\ (exists new w',
        postError (schema:=names) 0 (connected 5 []) canceled_at_start
        = Ret tt (set_conn None (set_watch None (connected 5 []))) w'
        /\ trace w' = new ++ trace canceled_at_start
        /\ existsb is_sleep new = false
        /\ now w' = now canceled_at_start
        /\ dials w' = dials canceled_at_start)
  /\ (canceled (pass 1 canceled_during_sleep) = false
      /\ canceled (pass (1 + 5) canceled_during_sleep) = true
      /\ exists w',
           dial (schema:=names) 2 (fresh 5) canceled_during_sleep
           = Ret true (fresh 5) w'
           /\ now w' = 0 + 1 + 5
           /\ In (EvSleep (0 + 1) 5) (trace w'))
  /\ (canceled (pass (1 + 0) canceled_during_second_sleep) = false
      /\ canceled (pass (1 + 0 + 5) canceled_during_second_sleep) = true
      /\ exists w',
           dial (schema:=names) 2 (fresh 5) canceled_during_second_sleep
           = Ret true (set_watch None (set_conn (Some 1) (fresh 5))) w'
           /\ now w' = 0 + 1 + 0 + 5
           /\ In (EvSleep (0 + 1 + 0) 5) (trace w')).
Proof.
  split; [reflexivity|].
  destruct (@backoff_checks_then_sleeps_through names 0 (fresh 5) canceled_at_start)
    as [H1 _].
  destruct (@backoff_checks_then_sleeps_through names 0 (connected 5 [])
              canceled_at_start) as [_ [H2 _]].
  destruct (@backoff_checks_then_sleeps_through names 0 (fresh 5)
              canceled_during_sleep) as [_ [_ [_ [H4 _]]]].
  destruct (@backoff_checks_then_sleeps_through names 0 (fresh 5)
              canceled_during_second_sleep) as [_ [_ [_ [_ H5]]]].
  split; [exact (H1 eq_refl)|]. split; [exact (H2 eq_refl)|].
  split.
  - split; [reflexivity|]. split; [reflexivity|].
    exact (H4 1 [] eq_refl eq_refl eq_refl).
  - split; [reflexivity|]. split; [reflexivity|].
    exact (H5 1 [] 0 [] eq_refl eq_refl eq_refl eq_refl).
Defined.

(** A receive fails after one operation; the client reconnects and the round
    restarts: the operation received before the failure and the entry the
    store held before the call are gone. A send fails at tick 4: the client
    closes the stream and the connection, sleeps from tick 4 to tick 5,
    dials, starts the watch, sends again on the new stream and returns at
    tick 8 with the aggregate received on it. *)
Lemma reconnect_restarts_the_round_witness :
  (exists epc' w',
     NextCh (schema:=names) 6 tt (connected 1 [service_at "ns/stale" "X"]) broken_round
     = Ret (FedBy (Closes [aggregate "S" ["E1"%string]]), false) epc' w'
     /\ data epc' = Some [service_at "ns/svc" "S"; endpoint_at "ns/svc/ep1" "E1"]
     /\ now w' = 7
     /\ exists new,
          trace w' = new ++ trace broken_round
          /\ sends_only (schema:=names) tt new
          /\ paired new
          /\ List.length (filter is_new new) = List.length (filter is_connection new)
          /\ data epc' = replay (data (connected 1 [service_at "ns/stale" "X"])) new
          /\ (existsb is_failure new = true ->
              exists post pre,
                new = post ++ EvNew :: pre
                /\ clean post
                /\ existsb is_failure pre = true
                /\ (exists s, In (EvSend (schema:=names) s tt true) post)
                /\ data epc' = Some (effects (received post) (btree.New 2))
                /\ FedBy (Closes [aggregate "S" ["E1"%string]])
                   = FedBy (grouper (effects (received post) (btree.New 2)))))
  /\ (exists epc' w',
        NextCh (schema:=names) (3 + 1 + 2 + 0) tt
          (connected 1 [service_at "ns/stale" "X"]) broken_round
        = Ret (FedBy (grouper
                        (effects
                           [set_op Set_ServicesSet "ns/svc" "S";
                            set_op Set_EndpointsSet "ns/svc/ep1" "E1"]
                           (btree.New 2))), false) epc' w'
        /\ data epc' = Some (effects
                               [set_op Set_ServicesSet "ns/svc" "S";
                                set_op Set_EndpointsSet "ns/svc/ep1" "E1"]
                               (btree.New 2)))
  /\ (exists w' mid,
        NextCh (schema:=names) 5 tt
          (connected 1 [service_at "ns/stale" "X"]) failed_send_round
        = Ret (FedBy (Closes [aggregate "S" ["E1"%string]]), false)
              {| ErrorDelay := 1; conn := Some 1; watch := Some 1;
                 data := Some [service_at "ns/svc" "S";
                               endpoint_at "ns/svc/ep1" "E1"] |} w'
        /\ trace w' =
             EvRecv (schema:=names) 1 (Some sync_op) :: mid
               ++ [EvSend (schema:=names) 1 tt true; EvNew; EvWatch 1 true; EvDialContext DialOk;
                   EvLog "connecting to "; EvSleep 4 1; EvClose 0; EvCloseSend 0;
                   EvSend (schema:=names) 0 tt false]
        /\ received mid = [set_op Set_ServicesSet "ns/svc" "S";
                           set_op Set_EndpointsSet "ns/svc/ep1" "E1"]
        /\ now w' = 8)
  /\ (exists w' mid1 mid2,
        NextCh (schema:=names) 6 tt
          (connected 1 [service_at "ns/stale" "X"]) broken_round
        = Ret (FedBy (Closes [aggregate "S" ["E1"%string]]), false)
              {| ErrorDelay := 1; conn := Some 1; watch := Some 1;
                 data := Some [service_at "ns/svc" "S";
                               endpoint_at "ns/svc/ep1" "E1"] |} w'
        /\ trace w' =
             EvRecv (schema:=names) 1 (Some sync_op) :: mid2
               ++ [EvSend (schema:=names) 1 tt true; EvNew; EvWatch 1 true; EvDialContext DialOk;
                   EvLog "connecting to "; EvSleep 3 1; EvClose 0; EvCloseSend 0;
                   EvLog "watch recv failed: "; EvRecv 0 None]
               ++ mid1 ++ [EvSend (schema:=names) 0 tt true]
        /\ received mid1 = [set_op Set_ServicesSet "ns/old" "OLD"]
        /\ received mid2 = [set_op Set_ServicesSet "ns/svc" "S";
                            set_op Set_EndpointsSet "ns/svc/ep1" "E1"]
        /\ now w' = 7).
Proof.
  split; [|split; [|split]].
  - eexists. eexists.
    split; [vm_compute; reflexivity|].
    split; [reflexivity|]. split; [reflexivity|].
    apply (proj1 (@reconnect_restarts_the_round names) 6 tt
             (connected 1 [service_at "ns/stale" "X"]) broken_round).
    vm_compute. reflexivity.
  - apply (proj1 (proj2 (@reconnect_restarts_the_round names))
             [(0, set_op Set_ServicesSet "ns/old" "OLD")]
             [(0, set_op Set_ServicesSet "ns/svc" "S");
              (0, set_op Set_EndpointsSet "ns/svc/ep1" "E1")]
             0 tt (connected 1 [service_at "ns/stale" "X"]) broken_round
             0 [service_at "ns/stale" "X"] 0 0 [] 3 2 [] 1 [] 0 sync_op []);
      try reflexivity; repeat constructor.
  - assert (Hp : Forall (fun r : nat * localnetv1.OpItem => plain (snd r) = true)
                   [(0, set_op Set_ServicesSet "ns/svc" "S");
                    (0, set_op Set_EndpointsSet "ns/svc/ep1" "E1")]).
    { repeat constructor. }
    destruct (proj1 (proj2 (proj2 (@reconnect_restarts_the_round names)))
                [(0, set_op Set_ServicesSet "ns/svc" "S");
                 (0, set_op Set_EndpointsSet "ns/svc/ep1" "E1")]
                0 tt (connected 1 [service_at "ns/stale" "X"]) failed_send_round
                0 0 [service_at "ns/stale" "X"] 4 0 [] 2 [] 1 [] 0 sync_op []
                eq_refl eq_refl eq_refl eq_refl eq_refl eq_refl eq_refl eq_refl
                eq_refl Hp)
      as [w' [mid [HN [T [_ [_ [_ [R [N _]]]]]]]]].
    exists w', mid. split; [exact HN|]. split; [exact T|].
    split; [exact R|exact N].
  - assert (Hp1 : Forall (fun r : nat * localnetv1.OpItem => plain (snd r) = true)
                    [(0, set_op Set_ServicesSet "ns/old" "OLD")]).
    { repeat constructor. }
    assert (Hp2 : Forall (fun r : nat * localnetv1.OpItem => plain (snd r) = true)
                    [(0, set_op Set_ServicesSet "ns/svc" "S");
                     (0, set_op Set_EndpointsSet "ns/svc/ep1" "E1")]).
    { repeat constructor. }
    destruct (proj2 (proj2 (proj2 (@reconnect_restarts_the_round names)))
                [(0, set_op Set_ServicesSet "ns/old" "OLD")]
                [(0, set_op Set_ServicesSet "ns/svc" "S");
                 (0, set_op Set_EndpointsSet "ns/svc/ep1" "E1")]
                0 tt (connected 1 [service_at "ns/stale" "X"]) broken_round
                0 0 [service_at "ns/stale" "X"] 0 0 [] 3 2 [] 1 [] 0 sync_op []
                eq_refl eq_refl eq_refl eq_refl eq_refl eq_refl eq_refl eq_refl
                eq_refl Hp1 Hp2)
      as [w' [mid1 [mid2 [HN [T [_ [_ [_ [R1 [_ [_ [_ [R2 [N _]]]]]]]]]]]]]].
    exists w', mid1, mid2. split; [exact HN|]. split; [exact T|].
    split; [exact R1|]. split; [exact R2|exact N].
Defined.

(** A first round, from the dial on. *)
Lemma calls_keep_the_store_ascending_witness :
  well_kept (fresh 1)
  /\ exists epc' w',
       Next (schema:=names) 5 tt (fresh 1) first_round
       = Ret ([aggregate "S" ["E1"%string; "E2"%string]], false) epc' w'
       /\ well_kept epc'.
Proof.
  split; [reflexivity|].
  eexists. eexists. split; [vm_compute; reflexivity|].
  eapply (proj1 (proj2 (@calls_keep_the_store_ascending names 5 tt (fresh 1)
                          first_round eq_refl))
            ([aggregate "S" ["E1"%string; "E2"%string]], false)).
  vm_compute. reflexivity.
Defined.

(** The broken round: the watch is half-closed, its connection closed, and
    after the sleep one connection is made, which is in use at the end. *)
Lemma transport_is_used_in_order_witness :
  linked (connected 1 [service_at "ns/stale" "X"])
  /\ exists r epc' w' new st,
       NextCh (schema:=names) 6 tt (connected 1 [service_at "ns/stale" "X"]) broken_round
       = Ret r epc' w'
       /\ trace w' = new ++ trace broken_round
       /\ wire_trace 1 new (Streaming 0) = Some st
       /\ settled st epc' /\ linked epc'
       /\ opened new + 1 = closes new + open st.
Proof.
  assert (L : linked (connected 1 [service_at "ns/stale" "X"])).
  { intros s H. simpl in *. exact H. }
  split; [exact L|].
  assert (E : exists r epc' w',
             NextCh (schema:=names) 6 tt (connected 1 [service_at "ns/stale" "X"])
               broken_round = Ret r epc' w').
  { do 3 eexists. vm_compute. reflexivity. }
  destruct E as [r [epc' [w' E]]].
  destruct (proj1 (@transport_is_used_in_order names 6 tt
                     (connected 1 [service_at "ns/stale" "X"]) broken_round L)
              _ _ _ E) as [new [st T]].
  exists r, epc', w', new, st. split; [exact E|exact T].
Defined.

(** The broken round: one attempt, after one sleep. *)
Lemma reconnects_are_spaced_witness :
  exists r epc' w' new,
    NextCh (schema:=names) 6 tt (connected 1 [service_at "ns/stale" "X"]) broken_round
    = Ret r epc' w'
    /\ trace w' = new ++ trace broken_round
    /\ attempts new <= naps new + 1
    /\ (watch (connected 1 [service_at "ns/stale" "X"]) <> None ->
        attempts new <= naps new)
    /\ now broken_round + 1 * naps new <= now w'
    /\ now broken_round + 1 * (attempts new - 1) <= now w'
    /\ ErrorDelay epc' = 1.
Proof.
  assert (E : exists r epc' w',
             NextCh (schema:=names) 6 tt (connected 1 [service_at "ns/stale" "X"])
               broken_round = Ret r epc' w').
  { do 3 eexists. vm_compute. reflexivity. }
  destruct E as [r [epc' [w' E]]].
  destruct (@reconnects_are_spaced names 6 tt _ _ _ _ _ E) as [new T].
  exists r, epc', w', new. split; [exact E|exact T].
Defined.


(** A second [Set] and a [Delete] of another path after the last word. *)
Lemma store_holds_the_last_word_witness :
  ascending [service_at "ns/svc" "S"]
  /\ lookup "ns/svc"
       (effects [set_op Set_ServicesSet "ns/svc" "S1";
                 set_op Set_ServicesSet "ns/svc" "S2";
                 delete_op "ns/gone"] [service_at "ns/svc" "S"])
     = Some (service_at "ns/svc" "S2")
  /\ effects [delete_op "ns/gone";
              set_op Set_ServicesSet "ns/svc" "S2"] [service_at "ns/svc" "S"]
     = effects [set_op Set_ServicesSet "ns/svc" "S1";
                set_op Set_ServicesSet "ns/svc" "S2";
                delete_op "ns/gone"] [service_at "ns/svc" "S"].
Proof.
  assert (Ha : ascending [service_at "ns/svc" "S"]) by repeat constructor.
  destruct (@store_holds_the_last_word names
              [set_op Set_ServicesSet "ns/svc" "S1";
               set_op Set_ServicesSet "ns/svc" "S2";
               delete_op "ns/gone"] [service_at "ns/svc" "S"] Ha) as [H1 H2].
  split; [exact Ha|]. split.
  - rewrite H1. reflexivity.
  - apply H2. intros p. cbn -[String.eqb].
    destruct (String.eqb "ns/svc" p) eqn:E1;
      destruct (String.eqb "ns/gone" p) eqn:E2; try reflexivity.
    apply String.eqb_eq in E1. subst p. discriminate E2.
Defined.


(** A service, then a [Set] without its [Ref]. *)
Lemma set_without_ref_panics_witness :
  exists w',
    NextCh (schema:=names) 3 tt (connected 1 [])
      (script None [] [] [(0, true)]
         (answers [set_op Set_ServicesSet "ns/svc" "S"; set_without_ref; sync_op]))
    = Panic (connected 1 [service_at "ns/svc" "S"]) w'
    /\ Next (schema:=names) 3 tt (connected 1 [])
         (script None [] [] [(0, true)]
            (answers [set_op Set_ServicesSet "ns/svc" "S"; set_without_ref; sync_op]))
       = Panic (connected 1 [service_at "ns/svc" "S"]) w'
    /\ recvs w' = answers [sync_op].
Proof.
  apply (@set_without_ref_panics names
           [(0, set_op Set_ServicesSet "ns/svc" "S")]
           0 tt (connected 1 [])
           (script None [] [] [(0, true)]
              (answers [set_op Set_ServicesSet "ns/svc" "S"; set_without_ref; sync_op]))
           0 (btree.New 2) 0 [] 0 set_without_ref
           {| localnetv1.Ref_ := None; localnetv1.Bytes := [] |}
           (answers [sync_op]));
    try reflexivity; repeat constructor.
Defined.

(** The cancellation at tick 2, the failed receive at tick 4. *)
Lemma canceled_round_ends_without_backoff_witness :
  exists w' new,
    NextCh (schema:=names) 4 tt (connected 5 []) canceled_mid_round
    = Ret (ClosedEmpty, true)
          {| ErrorDelay := 5; conn := None; watch := None;
             data := Some [service_at "ns/svc" "S"] |} w'
    /\ now w' = 4
    /\ trace w' = EvClose 0 :: EvCloseSend 0 :: new ++ trace canceled_mid_round
    /\ naps new = 0 /\ attempts new = 0 /\ closes new = 0
    /\ dials w' = dials canceled_mid_round.
Proof.
  apply (proj2 (@canceled_round_ends_without_backoff names
                  [(0, set_op Set_ServicesSet "ns/svc" "S")]
                  0 tt (connected 5 []) canceled_mid_round 0 0 (btree.New 2) 2
                  eq_refl eq_refl eq_refl eq_refl
                  ltac:(vm_compute; lia)
                  ltac:(repeat constructor))
           1 [] 3 []); try reflexivity.
  vm_compute. lia.
Defined.

(** Two interrupts: the client is canceled, and then the process exits.
    With SIGTERM alone given to [CancelOn], an interrupt ends the process
    and the client is not canceled. *)
Lemma exit_takes_a_second_signal_witness :
  in_step 2
    (acts [Runs; Arrives Interrupt; Runs; Passes 3; Arrives Interrupt; Runs]
       (CancelOnSignals, script None [] [] [] []))
  /\ stage (fst (acts [Runs; Arrives Interrupt; Runs; Passes 3; Arrives Interrupt; Runs]
                   (CancelOnSignals, script None [] [] [] [])))
     = Exited 1
  /\ acts ([Runs] ++ [Arrives Interrupt]) (CancelOn [SIGTERM], script None [] [] [] [])
     = ({| stage := Killed Interrupt; notified := [SIGTERM]; inbox := None |},
        script None [] [] [] [])
  /\ canceled (snd (acts [Runs; Arrives Interrupt]
                      (CancelOn [SIGTERM], script None [] [] [] []))) = false.
Proof.
  split; [|split; [reflexivity|split]].
  - exact (proj1 (@exit_takes_a_second_signal names [Interrupt; Kill; SIGTERM]
                    [Runs; Arrives Interrupt; Runs; Passes 3; Arrives Interrupt; Runs]
                    (script None [] [] [] []) eq_refl)).
  - exact (proj1 (proj2 (proj2 (@exit_takes_a_second_signal names [SIGTERM] [Runs]
                                  (script None [] [] [] []) eq_refl)))
             Interrupt _ _ eq_refl eq_refl (or_intror eq_refl)).
  - exact (proj1 (proj2 (@exit_takes_a_second_signal names [SIGTERM]
                           [Runs; Arrives Interrupt]
                           (script None [] [] [] []) eq_refl)) eq_refl).
Defined.

(** Three signals at once, and a fourth one later. *)
Lemma burst_of_signals_counts_once_witness :
  Forall (fun b => relays [Interrupt; Kill; SIGTERM] b = true) [Interrupt; SIGTERM]
  /\ exists w',
    acts (Runs :: Arrives Interrupt :: map Arrives [Interrupt; SIGTERM]
            ++ repeat Runs 2)
      (CancelOnSignals, script None [] [] [] [])
    = ({| stage := AwaitSecond; notified := [Interrupt; Kill; SIGTERM];
          inbox := None |}, w')
    /\ canceled w' = true /\ now w' = 0
    /\ forall sig2 k2,
         relays [Interrupt; Kill; SIGTERM] sig2 = true ->
         stage (fst (acts (Arrives sig2 :: repeat Runs (S k2))
                       ({| stage := AwaitSecond;
                           notified := [Interrupt; Kill; SIGTERM];
                           inbox := None |}, w')))
         = Exited 1.
Proof.
  assert (B : Forall (fun b => relays [Interrupt; Kill; SIGTERM] b = true)
                [Interrupt; SIGTERM]).
  { repeat constructor. }
  split; [exact B|].
  exact (@burst_of_signals_counts_once names [Interrupt; Kill; SIGTERM] Interrupt
           [Interrupt; SIGTERM] 1 (script None [] [] [] []) eq_refl eq_refl B).
Defined.


(** The goroutine panics with nothing sent: after its deferred close the
    loop returns the empty list, and the end of the process is the one turn
    left. *)
Lemma panicking_goroutine_takes_the_process_down_witness :
  0 < 100
  /\ exists s,
       chan.steps 100
         (on_channel (Dies ([] : list (ServiceEndpoints (schema:=names))))) s
       /\ chan.returned s = true /\ chan.items s = [] /\ chan.crashed s = false
       /\ exists s', chan.step 100 s s'.
Proof.
  assert (H : 0 < 100) by lia.
  set (s2 := {| chan.pending := []; chan.ending := Some chan.Crashing;
                chan.buffer := ([] : list (ServiceEndpoints (schema:=names)));
                chan.closed := true; chan.items := [];
                chan.returned := true; chan.crashed := false |}).
  assert (Hs : chan.steps 100 (on_channel (Dies [])) s2).
  { eapply Relation_Operators.rt1n_trans; [apply chan.step_panic|].
    eapply Relation_Operators.rt1n_trans; [apply chan.step_end|].
    apply rt1n_refl. }
  destruct (@panicking_goroutine_takes_the_process_down
              (ServiceEndpoints (schema:=names)) 100 [] s2 H Hs)
    as [R [_ [P _]]].
  split; [exact H|]. exists s2. split; [exact Hs|]. split; [reflexivity|].
  split; [exact (proj1 (R eq_refl))|]. split; [reflexivity|].
  apply P. reflexivity.
Defined.

(** One aggregate through the channel of capacity 100: sent, the channel
    closed, received, and the loop over. *)
Lemma range_returns_after_the_goroutine_witness :
  chan.ThenClose <> chan.Crashing
  /\ exists s,
    chan.steps 100 (on_channel (Closes [aggregate "S" []])) s
    /\ chan.returned s = true
    /\ chan.pending s = [] /\ chan.buffer s = [] /\ chan.closed s = true
    /\ chan.items s = [aggregate "S" []]
    /\ chan.ending s = None /\ chan.crashed s = false
    /\ forall s', ~ chan.step 100 s s'.
Proof.
  assert (He : chan.ThenClose <> chan.Crashing) by discriminate.
  set (s4 := {| chan.pending := []; chan.ending := None; chan.buffer := [];
                chan.closed := true; chan.items := [aggregate "S" []];
                chan.returned := true; chan.crashed := false |}).
  assert (Hs : chan.steps 100 (on_channel (Closes [aggregate "S" []])) s4).
  { eapply Relation_Operators.rt1n_trans; [apply chan.step_send; simpl; lia|].
    eapply Relation_Operators.rt1n_trans; [apply chan.step_close|].
    eapply Relation_Operators.rt1n_trans; [apply (@chan.step_recv _ 100 [] None (aggregate "S" []) [] true [])|].
    eapply Relation_Operators.rt1n_trans; [apply chan.step_end|].
    apply rt1n_refl. }
  destruct (@range_returns_after_the_goroutine _ 100 [aggregate "S" []]
              chan.ThenClose s4 He Hs eq_refl)
    as [Hp [Hb [Hc [Hi [_ [_ Hl]]]]]].
  split; [exact He|]. exists s4. split; [exact Hs|]. split; [reflexivity|].
  split; [exact Hp|]. split; [exact Hb|]. split; [exact Hc|]. split; [exact Hi|].
  exact (Hl eq_refl).
Defined.
